(** * Monad Wallet MCP: the transfer workflow and its transaction log

    A shallow embedding of [src/index.ts]: the dispatcher's validation of
    the [transfer] command, [MonadWalletManager.sendMonad] and the three
    functions that keep the JSON transaction log
    ([getTransactionHistory], [logTransaction],
    [updateTransactionStatus]).

    What the program takes from its platform is modelled as follows.
    - JavaScript strings are sequences of UTF-16 code units ([jstr]).
    - The file at [TX_LOG_PATH] holds text; [readFile] and [writeFile]
      can fail, following a schedule of faults carried by the state.
    - [JSON.parse] and [JSON.stringify(v, null, 2)] are implemented on
      that text (lexer, parser, printer).  Numbers are exact decimals.
      On the integers that a double holds exactly ([safe_json], as the
      timestamps of the records are) this is what the code does.
      Beyond them the rounding of a literal to binary64, the overflow
      to [Infinity], which [JSON.stringify] writes as [null], and the
      underflow to zero are not modelled: the statements in which a
      number of the log is written and read back assume [safe_json].
    - A [writeFile] that fails leaves the file as it was, as when the
      file cannot be opened.  A write that fails after the file has
      been truncated is not modelled: the statements on what the log
      holds assume that no write failed, or say that they take the
      failed write to have left the file.
    - The remote node and the [viem] helpers ([privateKeyToAccount],
      [parseEther], [getGasPrice], [getBalance], [sendTransaction],
      [waitForTransactionReceipt]) are the fields of a record [World]:
      each answers with a value or throws. *)

From Stdlib Require Import List ZArith NArith String Ascii Bool Lia.
Import ListNotations.

Local Open Scope string_scope.
Local Open Scope list_scope.

(* ================================================================== *)
(** * JavaScript strings *)
(* ================================================================== *)

(** A string is its sequence of UTF-16 code units. *)
Definition jstr := list N.

(** The code units of an ASCII literal. *)
Definition js (s : string) : jstr := map N_of_ascii (list_ascii_of_string s).

Fixpoint jstr_eqb (a b : jstr) : bool :=
  match a, b with
  | [], [] => true
  | x :: a', y :: b' => N.eqb x y && jstr_eqb a' b'
  | _, _ => false
  end.

(** ToBoolean on a string: every string but the empty one is truthy. *)
Definition truthy (s : jstr) : bool :=
  match s with [] => false | _ :: _ => true end.

Definition is_digit (c : N) : bool := (48 <=? c)%N && (c <=? 57)%N.

(** [a-fA-F0-9] *)
Definition is_hex (c : N) : bool :=
  is_digit c || ((97 <=? c)%N && (c <=? 102)%N) || ((65 <=? c)%N && (c <=? 70)%N).

Definition hex_value (c : N) : N :=
  if is_digit c then c - 48
  else if (97 <=? c)%N then c - 87
  else c - 55.

(* ================================================================== *)
(** * Regular expressions of the dispatcher *)
(* ================================================================== *)

(** The fragment of the regular expressions that [main] uses: classes,
    sequence, choice and iteration.  Every pattern of [main] is anchored
    at both ends ([^...$], no flag), so a test is a match of the whole
    string. *)
Inductive regex : Type :=
| Void : regex
| Eps : regex
| Cls : (N -> bool) -> regex
| Cat : regex -> regex -> regex
| Alt : regex -> regex -> regex
| Star : regex -> regex.

Definition Chr (c : N) : regex := Cls (N.eqb c).
Definition Opt (r : regex) : regex := Alt r Eps.
Definition Plus (r : regex) : regex := Cat r (Star r).

(** [r{n}] *)
Fixpoint Rep (n : nat) (r : regex) : regex :=
  match n with
  | O => Eps
  | S k => Cat r (Rep k r)
  end.

Fixpoint nullable (r : regex) : bool :=
  match r with
  | Void => false
  | Eps => true
  | Cls _ => false
  | Cat a b => nullable a && nullable b
  | Alt a b => nullable a || nullable b
  | Star _ => true
  end.

(** Brzozowski derivative *)
Fixpoint deriv (c : N) (r : regex) : regex :=
  match r with
  | Void => Void
  | Eps => Void
  | Cls p => if p c then Eps else Void
  | Cat a b =>
      if nullable a then Alt (Cat (deriv c a) b) (deriv c b)
      else Cat (deriv c a) b
  | Alt a b => Alt (deriv c a) (deriv c b)
  | Star a => Cat (deriv c a) (Star a)
  end.

Fixpoint re_test (r : regex) (s : jstr) : bool :=
  match s with
  | [] => nullable r
  | c :: s' => re_test (deriv c r) s'
  end.

(** The words of a regular expression *)
Inductive Matches : regex -> jstr -> Prop :=
| MEps : Matches Eps []
| MCls : forall (p : N -> bool) c, p c = true -> Matches (Cls p) [c]
| MCat : forall a b s t, Matches a s -> Matches b t -> Matches (Cat a b) (s ++ t)
| MAltL : forall a b s, Matches a s -> Matches (Alt a b) s
| MAltR : forall a b s, Matches b s -> Matches (Alt a b) s
| MStar0 : forall a, Matches (Star a) []
| MStarS : forall a s t, Matches a s -> Matches (Star a) t -> Matches (Star a) (s ++ t).

(** [/^0x[a-fA-F0-9]{64}$/] *)
Definition re_private_key : regex :=
  Cat (Chr 48) (Cat (Chr 120) (Rep 64 (Cls is_hex))).

(** [/^0x[a-fA-F0-9]{40}$/] *)
Definition re_address : regex :=
  Cat (Chr 48) (Cat (Chr 120) (Rep 40 (Cls is_hex))).

(** [/^\d*\.?\d+$/] *)
Definition re_amount : regex :=
  Cat (Star (Cls is_digit)) (Cat (Opt (Chr 46)) (Plus (Cls is_digit))).

(** [x?.match(re)], then [!]: an absent argument does not match. *)
Definition opt_match (r : regex) (x : option jstr) : bool :=
  match x with
  | None => false
  | Some s => re_test r s
  end.

(* ================================================================== *)
(** * JSON values *)
(* ================================================================== *)

(** A Number, as an exact decimal in a unique form: an integer, or
    [m / 10^e] with [e > 0] and [m] not a multiple of ten. *)
Inductive number : Type :=
| NInt : Z -> number
| NFrac : Z -> positive -> number.

(** What [JSON.parse] can return.  An object is the list of its own
    properties in enumeration order. *)
#[local] Unset Elimination Schemes.
Inductive json : Type :=
| JNull : json
| JBool : bool -> json
| JNum : number -> json
| JStr : jstr -> json
| JArr : list json -> json
| JObj : list (jstr * json) -> json.
#[local] Set Elimination Schemes.

Definition obj := list (jstr * json).

(** The number that the digits [ds] spell after the number [m]. *)
Definition accum (m : N) (ds : jstr) : N :=
  fold_left (fun a d => (a * 10 + (d - 48))%N) ds m.

(** An array index is the canonical decimal text of an integer below
    [2^32 - 1]; such keys are enumerated first, in ascending order. *)
Definition array_index (k : jstr) : option N :=
  match k with
  | [] => None
  | c :: r =>
      if forallb is_digit k && (negb (N.eqb c 48) || match r with [] => true | _ => false end)
      then
        let n := accum 0%N k in
        if (n <? 4294967295)%N then Some n else None
      else None
  end.

Fixpoint obj_get (k : jstr) (o : obj) : option json :=
  match o with
  | [] => None
  | (k', v) :: o' => if jstr_eqb k' k then Some v else obj_get k o'
  end.

(** The value of an existing property is replaced where it stands. *)
Fixpoint obj_replace (k : jstr) (v : json) (o : obj) : option obj :=
  match o with
  | [] => None
  | (k', v') :: o' =>
      if jstr_eqb k' k then Some ((k', v) :: o')
      else option_map (cons (k', v')) (obj_replace k v o')
  end.

Fixpoint obj_insert_index (n : N) (k : jstr) (v : json) (o : obj) : obj :=
  match o with
  | [] => [(k, v)]
  | (k', v') :: o' =>
      match array_index k' with
      | Some n' =>
          if (n' <? n)%N then (k', v') :: obj_insert_index n k v o'
          else (k, v) :: o
      | None => (k, v) :: o
      end
  end.

(** [o[k] = v] on an ordinary object (also CreateDataProperty, which
    [JSON.parse] uses for each member). *)
Definition obj_define (k : jstr) (v : json) (o : obj) : obj :=
  match obj_replace k v o with
  | Some o' => o'
  | None =>
      match array_index k with
      | Some n => obj_insert_index n k v o
      | None => o ++ [(k, v)]
      end
  end.

(** The object that [JSON.parse] builds from the members of an object
    literal, in the order of the text. *)
Definition obj_of_members (ms : obj) : obj :=
  fold_left (fun acc kv => obj_define (fst kv) (snd kv) acc) ms [].

(* ------------------------------------------------------------------ *)
(** ** Numbers as text *)

Fixpoint digits_aux (fuel : nat) (n : N) (acc : jstr) : jstr :=
  match fuel with
  | O => acc
  | S f =>
      let acc' := (48 + n mod 10)%N :: acc in
      if (n / 10 =? 0)%N then acc' else digits_aux f (n / 10) acc'
  end.

(** The decimal digits of [n], most significant first. *)
Definition digits (n : N) : jstr :=
  digits_aux (S (N.to_nat (N.log2 n))) n [].

Fixpoint drop_zeros (d : jstr) : jstr :=
  match d with
  | c :: d' => if N.eqb c 48 then drop_zeros d' else d
  | [] => []
  end.

Definition strip_trailing_zeros (d : jstr) : jstr := rev (drop_zeros (rev d)).

(** Number::toString for the digits [d] of the significand and the
    position [n] of the decimal point: the value is [0.d * 10^n]. *)
Definition format_digits (d : jstr) (n : Z) : jstr :=
  let k := Z.of_nat (List.length d) in
  if (k <=? n)%Z && (n <=? 21)%Z then d ++ repeat 48%N (Z.to_nat (n - k))
  else if (0 <? n)%Z && (n <=? 21)%Z then
    firstn (Z.to_nat n) d ++ 46%N :: skipn (Z.to_nat n) d
  else if (-6 <? n)%Z && (n <=? 0)%Z then
    48%N :: 46%N :: repeat 48%N (Z.to_nat (- n)) ++ d
  else
    let e := (n - 1)%Z in
    let tail := 101%N :: (if (e <? 0)%Z then 45%N else 43%N) :: digits (Z.abs_N e) in
    match d with
    | [] => tail
    | [c] => c :: tail
    | c :: r => c :: 46%N :: r ++ tail
    end.

Definition sign_of (z : Z) : jstr := if (z <? 0)%Z then [45%N] else [].

Definition number_to_string (x : number) : jstr :=
  match x with
  | NInt z =>
      if (Z.abs z <? 10 ^ 21)%Z then sign_of z ++ digits (Z.abs_N z)
      else
        let d := digits (Z.abs_N z) in
        sign_of z ++ format_digits (strip_trailing_zeros d) (Z.of_nat (List.length d))
  | NFrac m e =>
      let d := digits (Z.abs_N m) in
      sign_of m ++ format_digits d (Z.of_nat (List.length d) - Z.pos e)
  end.

(** Divide by ten while that is exact, at most [fuel] times; the second
    component is what is left of [fuel]. *)
Fixpoint strip10 (fuel : nat) (m : N) : N * nat :=
  match fuel with
  | O => (m, O)
  | S f => if (m mod 10 =? 0)%N then strip10 f (m / 10)%N else (m, fuel)
  end.

(** The number [(-1)^neg * m * 10^scale]. *)
Definition mk_number (neg : bool) (m : N) (scale : Z) : number :=
  let sg := fun x : N => if neg then (- Z.of_N x)%Z else Z.of_N x in
  if (0 <=? scale)%Z then NInt (sg (m * 10 ^ Z.to_N scale)%N)
  else
    match strip10 (Z.to_nat (- scale)) m with
    | (m', O) => NInt (sg m')
    | (m', S k) => NFrac (sg m') (Pos.of_succ_nat k)
    end.

(* ------------------------------------------------------------------ *)
(** ** [JSON.parse]: the lexer *)

Inductive token : Type :=
| TLBracket | TRBracket | TLBrace | TRBrace | TColon | TComma
| TTrue | TFalse | TNull
| TString : jstr -> token
| TNumber : number -> token.

(** The states of the scanner.  A string collects its code units in
    reverse; a number collects its sign, the digits of its significand
    [m], the count [fd] of digits after the point, and its exponent. *)
Inductive lstate : Type :=
| LDefault
| LKeyword (rest : jstr) (t : token)
| LString (acc : jstr)
| LEscape (acc : jstr)
| LUnicode (acc : jstr) (k : nat) (v : N)
| LSign
| LZero (neg : bool)
| LInt (neg : bool) (m : N)
| LDot (neg : bool) (m : N)
| LFrac (neg : bool) (m : N) (fd : N)
| LE (neg : bool) (m : N) (fd : N)
| LESign (neg : bool) (m : N) (fd : N) (eneg : bool)
| LExp (neg : bool) (m : N) (fd : N) (eneg : bool) (ex : N).

Definition is_ws (c : N) : bool :=
  N.eqb c 32 || N.eqb c 9 || N.eqb c 10 || N.eqb c 13.

Definition is_e (c : N) : bool := N.eqb c 101 || N.eqb c 69.

(** A character where a token may start. *)
Definition lex_default (c : N) : option (lstate * list token) :=
  if is_ws c then Some (LDefault, [])
  else if N.eqb c 91 then Some (LDefault, [TLBracket])
  else if N.eqb c 93 then Some (LDefault, [TRBracket])
  else if N.eqb c 123 then Some (LDefault, [TLBrace])
  else if N.eqb c 125 then Some (LDefault, [TRBrace])
  else if N.eqb c 58 then Some (LDefault, [TColon])
  else if N.eqb c 44 then Some (LDefault, [TComma])
  else if N.eqb c 34 then Some (LString [], [])
  else if N.eqb c 45 then Some (LSign, [])
  else if N.eqb c 48 then Some (LZero false, [])
  else if is_digit c then Some (LInt false (c - 48), [])
  else if N.eqb c 116 then Some (LKeyword (js "rue") TTrue, [])
  else if N.eqb c 102 then Some (LKeyword (js "alse") TFalse, [])
  else if N.eqb c 110 then Some (LKeyword (js "ull") TNull, [])
  else None.

(** The character after a backslash *)
Definition unescape (c : N) : option N :=
  if N.eqb c 34 then Some 34%N
  else if N.eqb c 92 then Some 92%N
  else if N.eqb c 47 then Some 47%N
  else if N.eqb c 98 then Some 8%N
  else if N.eqb c 102 then Some 12%N
  else if N.eqb c 110 then Some 10%N
  else if N.eqb c 114 then Some 13%N
  else if N.eqb c 116 then Some 9%N
  else None.

(** A complete number ends before [c]: emit it and scan [c] afresh. *)
Definition lex_close (x : number) (c : N) : option (lstate * list token) :=
  match lex_default c with
  | Some (st, out) => Some (st, TNumber x :: out)
  | None => None
  end.

Definition exp_scale (fd : N) (eneg : bool) (ex : N) : Z :=
  ((if eneg then - Z.of_N ex else Z.of_N ex) - Z.of_N fd)%Z.

Definition lex_step (st : lstate) (c : N) : option (lstate * list token) :=
  match st with
  | LDefault => lex_default c
  | LKeyword rest t =>
      match rest with
      | [] => None
      | x :: rest' =>
          if N.eqb c x then
            match rest' with
            | [] => Some (LDefault, [t])
            | _ => Some (LKeyword rest' t, [])
            end
          else None
      end
  | LString acc =>
      if N.eqb c 34 then Some (LDefault, [TString (rev acc)])
      else if N.eqb c 92 then Some (LEscape acc, [])
      else if (c <? 32)%N then None
      else Some (LString (c :: acc), [])
  | LEscape acc =>
      if N.eqb c 117 then Some (LUnicode acc 4 0%N, [])
      else
        match unescape c with
        | Some x => Some (LString (x :: acc), [])
        | None => None
        end
  | LUnicode acc k v =>
      if is_hex c then
        let v' := (v * 16 + hex_value c)%N in
        match k with
        | S (S k') => Some (LUnicode acc (S k') v', [])
        | _ => Some (LString (v' :: acc), [])
        end
      else None
  | LSign =>
      if N.eqb c 48 then Some (LZero true, [])
      else if is_digit c then Some (LInt true (c - 48), [])
      else None
  | LZero neg =>
      if N.eqb c 46 then Some (LDot neg 0%N, [])
      else if is_e c then Some (LE neg 0%N 0%N, [])
      else lex_close (mk_number neg 0 0) c
  | LInt neg m =>
      if is_digit c then Some (LInt neg (m * 10 + (c - 48)), [])
      else if N.eqb c 46 then Some (LDot neg m, [])
      else if is_e c then Some (LE neg m 0%N, [])
      else lex_close (mk_number neg m 0) c
  | LDot neg m =>
      if is_digit c then Some (LFrac neg (m * 10 + (c - 48)) 1%N, [])
      else None
  | LFrac neg m fd =>
      if is_digit c then Some (LFrac neg (m * 10 + (c - 48)) (fd + 1), [])
      else if is_e c then Some (LE neg m fd, [])
      else lex_close (mk_number neg m (- Z.of_N fd)) c
  | LE neg m fd =>
      if N.eqb c 43 then Some (LESign neg m fd false, [])
      else if N.eqb c 45 then Some (LESign neg m fd true, [])
      else if is_digit c then Some (LExp neg m fd false (c - 48), [])
      else None
  | LESign neg m fd eneg =>
      if is_digit c then Some (LExp neg m fd eneg (c - 48), [])
      else None
  | LExp neg m fd eneg ex =>
      if is_digit c then Some (LExp neg m fd eneg (ex * 10 + (c - 48)), [])
      else lex_close (mk_number neg m (exp_scale fd eneg ex)) c
  end.

(** At the end of the text a token must not be left open. *)
Definition lex_end (st : lstate) : option (list token) :=
  match st with
  | LDefault => Some []
  | LZero neg => Some [TNumber (mk_number neg 0 0)]
  | LInt neg m => Some [TNumber (mk_number neg m 0)]
  | LFrac neg m fd => Some [TNumber (mk_number neg m (- Z.of_N fd))]
  | LExp neg m fd eneg ex => Some [TNumber (mk_number neg m (exp_scale fd eneg ex))]
  | _ => None
  end.

Fixpoint lex (st : lstate) (s : jstr) : option (list token) :=
  match s with
  | [] => lex_end st
  | c :: s' =>
      match lex_step st c with
      | None => None
      | Some (st', out) => option_map (app out) (lex st' s')
      end
  end.

(* ------------------------------------------------------------------ *)
(** ** [JSON.parse]: the parser *)

(** An enclosing array or object that waits for a value. *)
Inductive context : Type :=
| CArr (items : list json)
| CObj (members : obj) (key : jstr).

Inductive pstate : Type :=
| SValue (stk : list context)
| SArrOpen (stk : list context)
| SArrNext (items : list json) (stk : list context)
| SObjOpen (stk : list context)
| SObjKey (members : obj) (stk : list context)
| SColon (members : obj) (key : jstr) (stk : list context)
| SObjNext (members : obj) (stk : list context)
| SDone (v : json).

(** A value is complete: hand it to what encloses it. *)
Definition deliver (v : json) (stk : list context) : pstate :=
  match stk with
  | [] => SDone v
  | CArr items :: stk' => SArrNext (v :: items) stk'
  | CObj members k :: stk' => SObjNext (obj_define k v members) stk'
  end.

(** A token where a value is expected. *)
Definition parse_value (stk : list context) (t : token) : option pstate :=
  match t with
  | TNull => Some (deliver JNull stk)
  | TTrue => Some (deliver (JBool true) stk)
  | TFalse => Some (deliver (JBool false) stk)
  | TNumber x => Some (deliver (JNum x) stk)
  | TString s => Some (deliver (JStr s) stk)
  | TLBracket => Some (SArrOpen stk)
  | TLBrace => Some (SObjOpen stk)
  | _ => None
  end.

Definition parse_step (st : pstate) (t : token) : option pstate :=
  match st with
  | SValue stk => parse_value stk t
  | SArrOpen stk =>
      match t with
      | TRBracket => Some (deliver (JArr []) stk)
      | _ => parse_value (CArr [] :: stk) t
      end
  | SArrNext items stk =>
      match t with
      | TComma => Some (SValue (CArr items :: stk))
      | TRBracket => Some (deliver (JArr (rev items)) stk)
      | _ => None
      end
  | SObjOpen stk =>
      match t with
      | TRBrace => Some (deliver (JObj []) stk)
      | TString k => Some (SColon [] k stk)
      | _ => None
      end
  | SObjKey members stk =>
      match t with
      | TString k => Some (SColon members k stk)
      | _ => None
      end
  | SColon members k stk =>
      match t with
      | TColon => Some (SValue (CObj members k :: stk))
      | _ => None
      end
  | SObjNext members stk =>
      match t with
      | TComma => Some (SObjKey members stk)
      | TRBrace => Some (deliver (JObj members) stk)
      | _ => None
      end
  | SDone _ => None
  end.

Fixpoint parse_run (st : pstate) (ts : list token) : option json :=
  match ts with
  | [] => match st with SDone v => Some v | _ => None end
  | t :: ts' =>
      match parse_step st t with
      | None => None
      | Some st' => parse_run st' ts'
      end
  end.

(** [JSON.parse(text)]; [None] stands for the SyntaxError it throws. *)
Definition JSON_parse (text : jstr) : option json :=
  match lex LDefault text with
  | None => None
  | Some ts => parse_run (SValue []) ts
  end.

(* ------------------------------------------------------------------ *)
(** ** [JSON.stringify(value, null, 2)] *)

Definition is_high (c : N) : bool := (55296 <=? c)%N && (c <=? 56319)%N.
Definition is_low (c : N) : bool := (56320 <=? c)%N && (c <=? 57343)%N.

Definition hex_digit (n : N) : N := if (n <? 10)%N then (48 + n)%N else (87 + n)%N.

(** [\uXXXX], in lower case *)
Definition uescape (c : N) : jstr :=
  [92; 117; hex_digit ((c / 4096) mod 16); hex_digit ((c / 256) mod 16);
   hex_digit ((c / 16) mod 16); hex_digit (c mod 16)]%N.

Definition quote_char (c : N) : jstr :=
  if N.eqb c 8 then [92; 98]%N
  else if N.eqb c 9 then [92; 116]%N
  else if N.eqb c 10 then [92; 110]%N
  else if N.eqb c 12 then [92; 102]%N
  else if N.eqb c 13 then [92; 114]%N
  else if N.eqb c 34 then [92; 34]%N
  else if N.eqb c 92 then [92; 92]%N
  else if (c <? 32)%N then uescape c
  else [c].

(** A surrogate is written as it is when it is half of a pair, and
    escaped when it stands alone. *)
Fixpoint quote_chars (s : jstr) : jstr :=
  match s with
  | [] => []
  | c :: s' =>
      if is_high c then
        match s' with
        | d :: s'' =>
            if is_low d then c :: d :: quote_chars s''
            else uescape c ++ quote_chars s'
        | [] => uescape c
        end
      else if is_low c then uescape c ++ quote_chars s'
      else quote_char c ++ quote_chars s'
  end.

Definition quote (s : jstr) : jstr := 34%N :: quote_chars s ++ [34%N].

Definition spaces (n : nat) : jstr := repeat 32%N n.

(** The items of an array or the members of an object, one per line at
    indentation [ind], with a comma after each but the last. *)
Fixpoint lines (ind : nat) (items : list jstr) : jstr :=
  match items with
  | [] => []
  | [x] => 10%N :: spaces ind ++ x
  | x :: rest => 10%N :: spaces ind ++ x ++ 44%N :: lines ind rest
  end.

Definition block (opening closing : N) (ind : nat) (items : list jstr) : jstr :=
  match items with
  | [] => [opening; closing]
  | _ => opening :: lines (ind + 2) items ++ 10%N :: spaces ind ++ [closing]
  end.

Fixpoint stringify_at (ind : nat) (v : json) : jstr :=
  match v with
  | JNull => js "null"
  | JBool true => js "true"
  | JBool false => js "false"
  | JNum x => number_to_string x
  | JStr s => quote s
  | JArr l => block 91 93 ind (map (stringify_at (ind + 2)) l)
  | JObj o =>
      block 123 125 ind
        (map (fun kv => quote (fst kv) ++ 58%N :: 32%N :: stringify_at (ind + 2) (snd kv)) o)
  end.

Definition JSON_stringify (v : json) : jstr := stringify_at 0 v.

(* ------------------------------------------------------------------ *)
(** ** Values that are written and read back unchanged *)

(** The tokens of the text of a value. *)
Fixpoint tokens (v : json) : list token :=
  match v with
  | JNull => [TNull]
  | JBool true => [TTrue]
  | JBool false => [TFalse]
  | JNum x => [TNumber x]
  | JStr s => [TString s]
  | JArr l =>
      TLBracket ::
      match l with
      | [] => [TRBracket]
      | x :: l' =>
          tokens x ++ flat_map (fun y => TComma :: tokens y) l' ++ [TRBracket]
      end
  | JObj o =>
      TLBrace ::
      match o with
      | [] => [TRBrace]
      | kv :: o' =>
          TString (fst kv) :: TColon :: tokens (snd kv) ++
          flat_map (fun kv' => TComma :: TString (fst kv') :: TColon :: tokens (snd kv')) o' ++
          [TRBrace]
      end
  end.

(** A number in its unique form: the significand of a fraction is not a
    multiple of ten. *)
Definition canonical_number (x : number) : Prop :=
  match x with
  | NInt _ => True
  | NFrac m _ => (Z.abs_N m mod 10 <> 0)%N
  end.

(** The key [k'] may come after the key [k] in the enumeration of an
    object: array indices ascend and come before the other keys, which
    differ from each other. *)
Definition key_after (k k' : jstr) : bool :=
  match array_index k, array_index k' with
  | Some n, Some n' => (n <? n')%N
  | Some _, None => true
  | None, Some _ => false
  | None, None => negb (jstr_eqb k k')
  end.

Fixpoint keys_ok (ks : list jstr) : bool :=
  match ks with
  | [] => true
  | k :: r => forallb (key_after k) r && keys_ok r
  end.

(** A value as [JSON.parse] builds it: the numbers are in their unique
    form and the objects list their properties the way an object
    enumerates them, each key once, the array indices first and
    ascending. *)
Fixpoint canonical (v : json) : Prop :=
  match v with
  | JNum x => canonical_number x
  | JArr l => fold_right (fun x P => canonical x /\ P) True l
  | JObj o =>
      keys_ok (map fst o) = true /\
      fold_right (fun kv P => canonical (snd kv) /\ P) True o
  | _ => True
  end.

(** An integer that a double holds exactly (a safe integer, at most
    [2^53 - 1] in magnitude): [JSON.parse] gives it for its literal and
    [JSON.stringify] writes its digits. *)
Definition safe_number (x : number) : Prop :=
  match x with
  | NInt z => (Z.abs z <=? 9007199254740991)%Z = true
  | NFrac _ _ => False
  end.

(** A value all of whose numbers are safe integers. *)
Fixpoint safe_json (v : json) : Prop :=
  match v with
  | JNum x => safe_number x
  | JArr l => fold_right (fun x P => safe_json x /\ P) True l
  | JObj o => fold_right (fun kv P => safe_json (snd kv) /\ P) True o
  | _ => True
  end.

Definition all_digits (ds : jstr) : Prop := Forall (fun c => is_digit c = true) ds.

(** The text [rest] does not go on with a number. *)
Definition stops (rest : jstr) : bool :=
  match rest with
  | [] => true
  | c :: _ => negb (is_digit c) && negb (N.eqb c 46) && negb (is_e c)
  end.

(** The states in which a number may start: after its sign or not. *)
Definition start (neg : bool) : lstate := if neg then LSign else LDefault.

(** The lexer reads [text] as the tokens [ts], whatever follows. *)
Definition lexes (text : jstr) (ts : list token) : Prop :=
  forall rest, stops rest = true ->
    lex LDefault (text ++ rest) = option_map (app ts) (lex LDefault rest).

(** The parser reads the tokens of [v] as [v], whatever encloses it. *)
Definition parses (v : json) : Prop :=
  forall stk ts, parse_run (SValue stk) (tokens v ++ ts) = parse_run (deliver v stk) ts.

(** A token, a lexer state, a context and a parser state that hold
    canonical values only. *)
Definition canonical_token (t : token) : Prop :=
  match t with
  | TNumber x => canonical_number x
  | _ => True
  end.

Definition lstate_ok (st : lstate) : Prop :=
  match st with
  | LKeyword _ t => canonical_token t
  | _ => True
  end.

Definition context_ok (c : context) : Prop :=
  match c with
  | CArr items => Forall canonical items
  | CObj members _ => canonical (JObj members)
  end.

Definition pstate_ok (st : pstate) : Prop :=
  match st with
  | SValue stk | SArrOpen stk | SObjOpen stk => Forall context_ok stk
  | SArrNext items stk => Forall canonical items /\ Forall context_ok stk
  | SObjKey members stk | SColon members _ stk | SObjNext members stk =>
      canonical (JObj members) /\ Forall context_ok stk
  | SDone v => canonical v
  end.

(* ================================================================== *)
(** * Effects: exceptions, the log file, the remote node, the console *)
(* ================================================================== *)

(** A thrown [Error]; the program only ever reads its [message]. *)
Record exn : Type := Error { message : string }.

Inductive outcome (A : Type) : Type :=
| Returned : A -> outcome A
| Thrown : exn -> outcome A.
Arguments Returned {A} _.
Arguments Thrown {A} _.

(** A request sent to the remote node. *)
Inductive rpc : Type :=
| GetGasPrice
| GetBalance (address : jstr)
| SendTransaction (from to : jstr) (value gasLimit : Z)
| WaitForTransactionReceipt (hash : jstr).

(** A line written by [console.error]: its label and the error shown. *)
Record errline : Type := ErrLine { label : string; shown : string }.

(** An operation on the log file and whether it succeeded. *)
Inductive fs_event : Type :=
| FsRead (ok : bool)
| FsWrite (ok : bool).

(** [file]: the text of the file at [TX_LOG_PATH], if the file exists.
    [faults]: for each coming [readFile] or [writeFile], in order,
    whether the platform fails it ([true]); past the end of the list
    none is failed.
    [calls]: the requests sent to the node so far, oldest first.
    [io]: the file operations so far, oldest first.
    [console]: what [console.error] has written, oldest first. *)
Record state : Type := mkState {
  file : option jstr;
  faults : list bool;
  calls : list rpc;
  io : list fs_event;
  console : list errline
}.

Definition M (A : Type) : Type := state -> outcome A * state.

Definition ret {A} (a : A) : M A := fun st => (Returned a, st).
Definition throw {A} (e : exn) : M A := fun st => (Thrown e, st).
Definition lift {A} (r : outcome A) : M A := fun st => (r, st).

Definition bind {A B} (m : M A) (k : A -> M B) : M B :=
  fun st =>
    match m st with
    | (Returned a, st') => k a st'
    | (Thrown e, st') => (Thrown e, st')
    end.

(** [try { body } catch (error) { handler }]: what [body] did to the
    state before it threw stays done. *)
Definition try_catch {A} (body : M A) (handler : exn -> M A) : M A :=
  fun st =>
    match body st with
    | (Returned a, st') => (Returned a, st')
    | (Thrown e, st') => handler e st'
    end.

Notation "x <- m ;; k" := (bind m (fun x => k))
  (at level 61, m at next level, right associativity).
Notation "m ;;; k" := (bind m (fun _ => k))
  (at level 61, right associativity).

(** Whether the platform fails the next file operation. *)
Definition next_fault (st : state) : bool := hd false (faults st).

Definition write_error : string := "EIO: write failed".

(** [readFile(TX_LOG_PATH, 'utf8')] *)
Definition readFile : M jstr :=
  fun st =>
    let after ok := mkState (file st) (tl (faults st)) (calls st) (io st ++ [FsRead ok]) (console st) in
    if next_fault st then (Thrown (Error "EIO: read failed"), after false)
    else
      match file st with
      | None => (Thrown (Error "ENOENT: no such file or directory"), after false)
      | Some text => (Returned text, after true)
      end.

(** [writeFile(TX_LOG_PATH, text)]; a write that fails leaves the file
    as it was (the file could not be opened).  A write that fails
    after the file was opened, and truncated, is not modelled. *)
Definition writeFile (text : jstr) : M unit :=
  fun st =>
    if next_fault st then
      (Thrown (Error write_error),
       mkState (file st) (tl (faults st)) (calls st) (io st ++ [FsWrite false]) (console st))
    else
      (Returned tt,
       mkState (Some text) (tl (faults st)) (calls st) (io st ++ [FsWrite true]) (console st)).

(** [console.error(label, error)] *)
Definition console_error (l : string) (e : exn) : M unit :=
  fun st =>
    (Returned tt,
     mkState (file st) (faults st) (calls st) (io st)
       (console st ++ [ErrLine l (message e)])).

(** The state after a request to the node. *)
Definition sent (call : rpc) (st : state) : state :=
  mkState (file st) (faults st) (calls st ++ [call]) (io st) (console st).

(** A request to the node and its answer. *)
Definition remote {A} (call : rpc) (answer : outcome A) : M A :=
  fun st => (answer, sent call st).

(** What the program is given from outside: the [viem] helpers that
    compute locally ([privateKeyToAccount] gives the address of the
    account, [parseEther] the amount in wei), the answers of the node,
    and the clock.  A receipt is its [status], which [viem] gives as the
    string ['success'] or ['reverted']. *)
Record World : Type := mkWorld {
  privateKeyToAccount : jstr -> outcome jstr;
  parseEther : jstr -> outcome Z;
  node_gasPrice : outcome Z;
  node_balance : jstr -> outcome Z;
  node_send : jstr -> jstr -> Z -> Z -> outcome jstr;
  node_receipt : jstr -> outcome jstr;
  Date_now : Z
}.

(* ================================================================== *)
(** * MonadWalletManager *)
(* ================================================================== *)

Definition GAS_LIMIT : Z := 21000.

(** [interface MonadTransaction], as the object literal that
    [sendMonad] builds: the properties in the order they are written. *)
Record MonadTransaction : Type := mkTx {
  id : jstr;
  timestamp : Z;
  sender : jstr;
  recipient : jstr;
  amount : jstr;
  status : jstr
}.

Definition tx_object (tx : MonadTransaction) : json :=
  JObj [ (js "id", JStr (id tx));
         (js "timestamp", JNum (NInt (timestamp tx)));
         (js "sender", JStr (sender tx));
         (js "recipient", JStr (recipient tx));
         (js "amount", JStr (amount tx));
         (js "status", JStr (status tx)) ].

Definition pending : jstr := js "pending".
Definition confirmed : jstr := js "confirmed".
Definition failed : jstr := js "failed".

(** [JSON.parse(data)] inside a [try] *)
Definition parse_or_throw (data : jstr) : M json :=
  match JSON_parse data with
  | Some v => ret v
  | None => throw (Error "SyntaxError: Unexpected token in JSON")
  end.

(** [transactions.push(tx)]: only an array has the method. *)
Definition push (transactions tx : json) : M json :=
  match transactions with
  | JArr l => ret (JArr (l ++ [tx]))
  | JNull => throw (Error "TypeError: Cannot read properties of null (reading 'push')")
  | _ => throw (Error "TypeError: transactions.push is not a function")
  end.

(** [tx.id === txId]: reading a property of [null] throws; a value
    that is not an object has no [id]. *)
Definition id_is (txId : jstr) (tx : json) : outcome bool :=
  match tx with
  | JNull => Thrown (Error "TypeError: Cannot read properties of null (reading 'id')")
  | JObj o =>
      Returned
        match obj_get (js "id") o with
        | Some (JStr s) => jstr_eqb s txId
        | _ => false
        end
  | _ => Returned false
  end.

Fixpoint findIndex_from (p : json -> outcome bool) (l : list json) (i : Z) : outcome Z :=
  match l with
  | [] => Returned (-1)%Z
  | x :: l' =>
      match p x with
      | Thrown e => Thrown e
      | Returned true => Returned i
      | Returned false => findIndex_from p l' (i + 1)%Z
      end
  end.

(** [transactions.findIndex(p)] *)
Definition findIndex (p : json -> outcome bool) (transactions : json) : M Z :=
  match transactions with
  | JArr l => lift (findIndex_from p l 0%Z)
  | JNull => throw (Error "TypeError: Cannot read properties of null (reading 'findIndex')")
  | _ => throw (Error "TypeError: transactions.findIndex is not a function")
  end.

Fixpoint update_nth (i : nat) (f : json -> json) (l : list json) : list json :=
  match l, i with
  | [], _ => []
  | x :: l', O => f x :: l'
  | x :: l', S k => x :: update_nth k f l'
  end.

(** [transactions[txIndex].status = status] (strict mode) *)
Definition set_status (txIndex : Z) (s : jstr) (transactions : json) : M json :=
  match transactions with
  | JArr l =>
      match nth_error l (Z.to_nat txIndex) with
      | Some (JObj _) =>
          ret (JArr (update_nth (Z.to_nat txIndex)
                       (fun x => match x with
                                 | JObj o => JObj (obj_define (js "status") (JStr s) o)
                                 | _ => x
                                 end) l))
      | Some (JArr _) => ret transactions
      | _ => throw (Error "TypeError: Cannot set properties (setting 'status')")
      end
  | _ => throw (Error "TypeError: Cannot set properties (setting 'status')")
  end.

Definition getTransactionHistory : M json :=
  try_catch
    (data <- readFile ;;
     parse_or_throw data)
    (fun _ => ret (JArr [])).

Definition logTransaction (tx : json) : M unit :=
  try_catch
    (transactions <- getTransactionHistory ;;
     transactions' <- push transactions tx ;;
     writeFile (JSON_stringify transactions'))
    (fun error => console_error "Failed to log transaction:" error).

Definition updateTransactionStatus (txId s : jstr) : M unit :=
  try_catch
    (transactions <- getTransactionHistory ;;
     txIndex <- findIndex (id_is txId) transactions ;;
     if negb (txIndex =? -1)%Z then
       transactions' <- set_status txIndex s transactions ;;
       writeFile (JSON_stringify transactions')
     else ret tt)
    (fun error => console_error "Failed to update transaction status:" error).

Definition insufficient : string := "Insufficient balance for transaction and gas fees".

Section Transfer.

Variable W : World.

Definition sendMonad (senderKey recipient amount : jstr) : M jstr :=
  try_catch
    (account <- lift (privateKeyToAccount W senderKey) ;;
     gasPrice <- remote GetGasPrice (node_gasPrice W) ;;
     let gasCost := (gasPrice * GAS_LIMIT)%Z in
     balance <- remote (GetBalance account) (node_balance W account) ;;
     wei <- lift (parseEther W amount) ;;
     let totalRequired := (wei + gasCost)%Z in
     if (balance <? totalRequired)%Z then throw (Error insufficient)
     else
       value <- lift (parseEther W amount) ;;
       hash <- remote (SendTransaction account recipient value GAS_LIMIT)
                 (node_send W account recipient value GAS_LIMIT) ;;
       logTransaction
         (tx_object (mkTx hash (Date_now W) account recipient amount pending)) ;;;
       receipt_status <- remote (WaitForTransactionReceipt hash) (node_receipt W hash) ;;
       updateTransactionStatus hash
         (if truthy receipt_status then confirmed else failed) ;;;
       ret hash)
    (fun error => throw (Error ("Transaction failed: " ++ message error)%string)).

(** [main] for [process.argv[2] === 'transfer']: the [case 'transfer']
    block inside the [try] of [main], whose [catch] prints the message
    and exits with code 1.  The result is the exit code.  What goes to
    [console.log] is not modelled. *)
Definition main_transfer (argv : list jstr) : M Z :=
  try_catch
    (let privateKey := nth_error argv 3 in
     let toAddress := nth_error argv 4 in
     let amount := nth_error argv 5 in
     if negb (opt_match re_private_key privateKey) then
       throw (Error "Invalid private key format")
     else if negb (opt_match re_address toAddress) then
       throw (Error "Invalid Monad address format")
     else if negb (opt_match re_amount amount) then
       throw (Error "Invalid amount format")
     else
       _ <- sendMonad (nth 3 argv []) (nth 4 argv []) (nth 5 argv []) ;;
       ret 0%Z)
    (fun error => console_error "Error:" error ;;; ret 1%Z).

End Transfer.


(* ================================================================== *)
(** * The formats that the dispatcher requires *)
(* ================================================================== *)

(** The prefix [0x], then exactly [n] hex digits. *)
Definition hex_string (n : nat) (s : jstr) : Prop :=
  exists body,
    s = 48%N :: 120%N :: body /\ List.length body = n /\
    Forall (fun c => is_hex c = true) body.

(** Decimal notation without sign or exponent: an integer part, or an
    integer part that may be empty, a point, and a fractional part
    that is not. *)
Definition decimal_amount (s : jstr) : Prop :=
  exists i f,
    Forall (fun c => is_digit c = true) i /\
    Forall (fun c => is_digit c = true) f /\
    ((s = i /\ i <> []) \/ (s = i ++ 46%N :: f /\ f <> [])).

(** An argument is present and has the format. *)
Definition has_format (P : jstr -> Prop) (x : option jstr) : Prop :=
  exists s, x = Some s /\ P s.

Definition validation_errors : list string :=
  [ "Invalid private key format"; "Invalid Monad address format"; "Invalid amount format" ].

(* ================================================================== *)
(** * Notions used in the statements *)
(* ================================================================== *)

(** The state after a [readFile] that succeeded or not. *)
Definition after_read (ok : bool) (st : state) : state :=
  mkState (file st) (tl (faults st)) (calls st) (io st ++ [FsRead ok]) (console st).

(** Whether the next [readFile] gives the text of the file. *)
Definition read_ok (st : state) : bool :=
  negb (next_fault st) && match file st with Some _ => true | None => false end.

(** The value that the file holds, when its text is JSON. *)
Definition persisted (st : state) : option json :=
  match file st with
  | Some text => JSON_parse text
  | None => None
  end.

(** The store cannot be read: the read fails, or the file is absent,
    empty or not JSON. *)
Definition unreadable (st : state) : Prop :=
  next_fault st = true \/ file st = None \/ file st = Some [] \/
  (exists text, file st = Some text /\ JSON_parse text = None).

(** What [getTransactionHistory] returns: the persisted value, or
    the empty sequence when the store cannot be read. *)
Definition history (st : state) : json :=
  if next_fault st then JArr []
  else match persisted st with Some v => v | None => JArr [] end.

(** The writes that failed among some file operations. *)
Definition failed_writes (evs : list fs_event) : nat :=
  List.length (filter (fun ev => match ev with FsWrite false => true | _ => false end) evs).

(** The lines that show the error of a failed write. *)
Definition write_error_lines (ls : list errline) : nat :=
  List.length (filter (fun l => String.eqb (shown l) write_error) ls).

Definition log_labels : list string :=
  [ "Failed to log transaction:"; "Failed to update transaction status:" ].

(** From [st] to [st'] every write that failed left its line on the
    console, under one of the two labels of the log functions. *)
Definition logged (st st' : state) : Prop :=
  exists evs ls,
    io st' = io st ++ evs /\
    console st' = console st ++ ls /\
    failed_writes evs = write_error_lines ls /\
    Forall (fun l => In (label l) log_labels) ls.

(** The same, and nothing was sent to the node. *)
Definition swallowed (st st' : state) : Prop :=
  calls st' = calls st /\ logged st st'.

(** The transfers submitted among some requests. *)
Definition submissions (cs : list rpc) : nat :=
  List.length (filter (fun c => match c with SendTransaction _ _ _ _ => true | _ => false end) cs).

(** What [sendMonad] throws when the balance does not cover the
    amount and the gas. *)
Definition InsufficientFundsError : exn :=
  Error ("Transaction failed: " ++ insufficient)%string.

(** The error of [sendMonad] for an error caught inside it. *)
Definition wrap (e : exn) : exn := Error ("Transaction failed: " ++ message e)%string.

(** The record that [sendMonad] logs for a transfer, in the status [s]. *)
Definition transfer_record (W : World) (hash account recipient amount s : jstr) : json :=
  tx_object (mkTx hash (Date_now W) account recipient amount s).

(** The platform fails none of the next [n] file operations. *)
Definition no_fault (n : nat) (st : state) : Prop :=
  Forall (fun b => b = false) (firstn n (faults st)).

(** The [id] of an entry of the log, when it has one that is a string. *)
Definition entry_id (x : json) : option jstr :=
  match x with
  | JObj o => match obj_get (js "id") o with Some (JStr s) => Some s | _ => None end
  | _ => None
  end.

(** The [status] of an entry of the log, when it is a string. *)
Definition entry_status (x : json) : option jstr :=
  match x with
  | JObj o => match obj_get (js "status") o with Some (JStr s) => Some s | _ => None end
  | _ => None
  end.

(** The entry has the id [txId]. *)
Definition with_id (txId : jstr) (x : json) : bool :=
  match entry_id x with
  | Some s => jstr_eqb s txId
  | None => false
  end.

(** No entry of [l] has the id [txId], and none is [null]. *)
Definition fresh (txId : jstr) (l : list json) : Prop :=
  Forall (fun x => id_is txId x = Returned false) l.

(** The entry [x] after [x.status = s]. *)
Definition with_status (s : jstr) (x : json) : json :=
  match x with
  | JObj o => JObj (obj_define (js "status") (JStr s) o)
  | _ => x
  end.

(** [y] is the record [x], with the status it had or after its status
    has been set, possibly several times. *)
Definition same_record (x y : json) : Prop :=
  exists ss, y = fold_left (fun acc s => with_status s acc) ss x.

(** Every entry of the log persisted in [st] is still an entry of the
    log persisted in [st']: what the claim asks for, and the least that
    keeping the records can mean. *)
Definition keeps_records (st st' : state) : Prop :=
  forall l x,
    persisted st = Some (JArr l) -> In x l ->
    exists l' y, persisted st' = Some (JArr l') /\ In y l' /\ same_record x y.

(** What the file holds has safe integers for numbers. *)
Definition safe_log (st : state) : Prop :=
  forall v, persisted st = Some v -> safe_json v.

(** The operations on the log that the commands of the program run:
    the append and the status update of [transfer], the read of
    [history]. *)
Inductive ledger_op : Type :=
| Append (tx : json)
| UpdateStatus (txId s : jstr)
| ReadAll.

Definition run_op (op : ledger_op) (st : state) : state :=
  match op with
  | Append tx => snd (logTransaction tx st)
  | UpdateStatus txId s => snd (updateTransactionStatus txId s st)
  | ReadAll => snd (getTransactionHistory st)
  end.

Definition run_ops (ops : list ledger_op) (st : state) : state :=
  fold_left (fun acc op => run_op op acc) ops st.

(** What an operation appends is canonical. *)
Definition canonical_op (op : ledger_op) : Prop :=
  match op with
  | Append tx => canonical tx
  | _ => True
  end.

(** What an operation appends has safe integers for numbers. *)
Definition safe_op (op : ledger_op) : Prop :=
  match op with
  | Append tx => safe_json tx
  | _ => True
  end.

(** From [st] to [st'] no write of the log failed. *)
Definition writes_succeeded (st st' : state) : Prop :=
  forall evs, io st' = io st ++ evs -> ~ In (FsWrite false) evs.

(** The platform fails the read of none of the appends among the
    operations [ops] run from [st]. *)
Fixpoint appends_read (ops : list ledger_op) (st : state) : Prop :=
  match ops with
  | [] => True
  | op :: ops' =>
      match op with
      | Append _ => next_fault st = false
      | _ => True
      end /\
      appends_read ops' (run_op op st)
  end.

(** The log persisted in [st'] starts with the entries of the log
    persisted in [st], one for one and in their order, each as it was
    or with its status set. *)
Definition keeps_every_record (st st' : state) : Prop :=
  forall l,
    persisted st = Some (JArr l) ->
    exists l1 l2,
      persisted st' = Some (JArr (l1 ++ l2)) /\ Forall2 same_record l l1.

(** The state after a read and a write of [text] that succeeded or not;
    a failed write is reported under [lbl]. *)
Definition after_write (ok : bool) (text : jstr) (lbl : string) (st : state) : state :=
  if ok then
    mkState (Some text) (tl (tl (faults st))) (calls st)
      (io st ++ [FsRead (read_ok st); FsWrite true]) (console st)
  else
    mkState (file st) (tl (tl (faults st))) (calls st)
      (io st ++ [FsRead (read_ok st); FsWrite false])
      (console st ++ [ErrLine lbl write_error]).

(** No entry of the persisted log has the id [txId]. *)
Definition absent (txId : jstr) (st : state) : Prop :=
  forall l x, persisted st = Some (JArr l) -> In x l -> entry_id x <> Some txId.

(** Sample inputs *)
Definition empty_disk : state := mkState None [] [] [] [].

Definition disk (text : jstr) : state := mkState (Some text) [] [] [] [].

Definition sample_key : jstr :=
  js "0x0123456789abcdef0123456789abcdef0123456789abcdef0123456789abcdef".
Definition sample_to : jstr := js "0x00000000000000000000000000000000000000b0".
Definition sample_account : jstr := js "0x00000000000000000000000000000000000000a0".
Definition sample_hash : jstr := js "0xfeed".

(** A confirmed record of an earlier transfer, and a log that holds it. *)
Definition sample_old : json :=
  tx_object (mkTx (js "0xaaaa") 1690000000000 sample_account sample_to (js "0.25") confirmed).

Definition sample_log : state := disk (JSON_stringify (JArr [sample_old])).

(** A record of an earlier transfer that has the hash [0xfeed], and a
    log that holds it. *)
Definition sample_same : json :=
  tx_object (mkTx sample_hash 1690000000000 sample_account sample_to (js "0.25") pending).

Definition same_hash_log : state := disk (JSON_stringify (JArr [sample_same])).

(** A node where the gas price is 2 wei, the sender owns [balance] wei,
    [1.5] is worth 1500 wei (a toy denomination), the transfer gets the
    hash [0xfeed] and its receipt has the status [receipt]. *)
Definition sample_world (balance : Z) (receipt : jstr) : World :=
  mkWorld (fun _ => Returned sample_account)
          (fun _ => Returned 1500%Z)
          (Returned 2%Z)
          (fun _ => Returned balance)
          (fun _ _ _ _ => Returned sample_hash)
          (fun _ => Returned receipt)
          1700000000000%Z.

(* ================================================================== *)
(** * Further notions on the transfer and on the log *)
(* ================================================================== *)

(** The node has accepted under [hash] the transfer that [sendMonad]
    submits: the key gives an account, the node answers with its gas
    price and with the balance, the amount converts, the balance covers
    the total and [sendTransaction] returns [hash]. *)
Definition submitted (W : World) (senderKey recipient amount hash : jstr) : Prop :=
  exists account gp bal wei,
    privateKeyToAccount W senderKey = Returned account /\
    node_gasPrice W = Returned gp /\
    node_balance W account = Returned bal /\
    parseEther W amount = Returned wei /\
    (wei + gp * GAS_LIMIT <= bal)%Z /\
    node_send W account recipient wei GAS_LIMIT = Returned hash.


(** The value is not an array. *)
Definition not_array (v : json) : Prop := forall l, v <> JArr l.



(** A node that accepts the transfer and never gives its receipt. *)
Definition silent_world (balance : Z) : World :=
  mkWorld (fun _ => Returned sample_account)
          (fun _ => Returned 1500%Z)
          (Returned 2%Z)
          (fun _ => Returned balance)
          (fun _ _ _ _ => Returned sample_hash)
          (fun _ => Thrown (Error "Timed out while waiting for transaction"))
          1700000000000%Z.

(** No entry of the value is found by [findIndex] for the id: the
    value is not an array, or no entry has the id, or reading the [id]
    of an entry throws before one is found. *)
Definition unmatched (txId : jstr) (v : json) : Prop :=
  match v with
  | JArr l =>
      findIndex_from (id_is txId) l 0 = Returned (-1)%Z \/
      exists e, findIndex_from (id_is txId) l 0 = Thrown e
  | _ => True
  end.

(** The properties of [sample_old]. *)
Definition sample_fields : obj :=
  [ (js "id", JStr (js "0xaaaa"));
    (js "timestamp", JNum (NInt 1690000000000));
    (js "sender", JStr sample_account);
    (js "recipient", JStr sample_to);
    (js "amount", JStr (js "0.25"));
    (js "status", JStr confirmed) ].

(** A log that holds the record [sample_old] twice. *)
Definition doubled_log : state := disk (JSON_stringify (JArr [sample_old; sample_old])).

(* ================================================================== *)
(** * The command line: [checkBalance], [getStatusEmoji] and [main] *)
(* ================================================================== *)

(** What the commands take from their platform besides the [World] of
    the transfer: [formatEther] of [viem], and for the [history]
    command [new Date(v).toLocaleString()] on a primitive value [v]
    ([None] is [undefined]), which depends on the locale and the time
    zone, and [String.prototype.toUpperCase]. *)
Record Platform : Type := mkPlatform {
  formatEther : Z -> jstr;
  Date_toLocaleString : option json -> jstr;
  toUpperCase : jstr -> jstr
}.

(** [MonadWalletManager.checkBalance] *)
Definition checkBalance (W : World) (P : Platform) (address : jstr) : M jstr :=
  try_catch
    (balance <- remote (GetBalance address) (node_balance W address) ;;
     ret (formatEther P balance))
    (fun error => throw (Error ("Failed to check balance: " ++ message error)%string)).

(** ** The process *)

(** The state of the wallet manager, and what [console.log] has
    written: one entry for each call, oldest first. *)
Record process : Type := mkProcess {
  wallet : state;
  stdout : list jstr
}.

(** In [main] an error is the JavaScript string of its [message]; the
    messages of the errors that the engine throws are in the wording of
    V8. *)
Inductive result (A : Type) : Type :=
| Ok : A -> result A
| Raise : jstr -> result A.
Arguments Ok {A} _.
Arguments Raise {A} _.

Definition C (A : Type) : Type := process -> result A * process.

Definition cret {A} (a : A) : C A := fun p => (Ok a, p).
Definition cthrow {A} (m : jstr) : C A := fun p => (Raise m, p).
Definition clift {A} (r : result A) : C A := fun p => (r, p).

Definition cbind {A B} (m : C A) (k : A -> C B) : C B :=
  fun p =>
    match m p with
    | (Ok a, p') => k a p'
    | (Raise e, p') => (Raise e, p')
    end.

Definition ctry {A} (body : C A) (handler : jstr -> C A) : C A :=
  fun p =>
    match body p with
    | (Ok a, p') => (Ok a, p')
    | (Raise e, p') => handler e p'
    end.

Notation "x <~ m ;; k" := (cbind m (fun x => k))
  (at level 61, m at next level, right associativity).
Notation "m ;;~ k" := (cbind m (fun _ => k))
  (at level 61, right associativity).

(** [console.log(line)] *)
Definition console_log (line : jstr) : C unit :=
  fun p => (Ok tt, mkProcess (wallet p) (stdout p ++ [line])).

(** A call of the wallet manager from [main]: what it throws is an
    [Error], of which [main] shows the [message]. *)
Definition in_wallet {A} (m : M A) : C A :=
  fun p =>
    match m (wallet p) with
    | (Returned a, st) => (Ok a, mkProcess st (stdout p))
    | (Thrown e, st) => (Raise (js (message e)), mkProcess st (stdout p))
    end.

(** ** The characters that the messages use beyond ASCII *)

Definition nl : jstr := [10%N].
Definition esc : jstr := [27%N].
Definition clipboard : jstr := [55357%N; 56523%N].       (* U+1F4CB *)
Definition light_bulb : jstr := [55357%N; 56481%N].      (* U+1F4A1 *)
Definition money_bag : jstr := [55357%N; 56496%N].       (* U+1F4B0 *)
Definition rocket : jstr := [55357%N; 56960%N].          (* U+1F680 *)
Definition memo : jstr := [55357%N; 56541%N].            (* U+1F4DD *)
Definition hourglass : jstr := [9203%N].                 (* U+23F3 *)
Definition empty_mailbox : jstr := [55357%N; 56557%N].   (* U+1F4ED *)
Definition id_button : jstr := [55356%N; 56724%N].       (* U+1F194 *)
Definition alarm_clock : jstr := [9200%N].               (* U+23F0 *)
Definition outbox : jstr := [55357%N; 56548%N].          (* U+1F4E4 *)
Definition inbox : jstr := [55357%N; 56549%N].           (* U+1F4E5 *)
Definition gem : jstr := [55357%N; 56462%N].             (* U+1F48E *)
Definition blue_diamond : jstr := [55357%N; 56631%N].    (* U+1F537 *)
Definition fuel_pump : jstr := [9981%N].                 (* U+26FD *)
Definition check_mark : jstr := [9989%N].                (* U+2705 *)
Definition cross_mark : jstr := [10060%N].               (* U+274C *)
Definition question_mark : jstr := [10067%N].            (* U+2753 *)

(** The text that [help] prints. *)
Definition usage : jstr :=
  nl ++ esc ++ js "[36m" ++ clipboard ++ js " Available Commands:" ++ esc ++ js "[0m" ++ nl ++
  nl ++
  js "  check    <address>                     - Check MONAD balance of an address" ++ nl ++
  js "  transfer <private-key> <to> <amount>   - Send MONAD tokens" ++ nl ++
  js "  history                                - View your transaction history" ++ nl ++
  js "  info                                   - Display Monad network information" ++ nl ++
  js "  gas                                    - Show current gas price" ++ nl ++
  nl ++
  esc ++ js "[36m" ++ light_bulb ++ js " Examples:" ++ esc ++ js "[0m" ++ nl ++
  js "  $ node build/index.js check 0x123...   - Check balance" ++ nl ++
  js "  $ node build/index.js transfer <key> 0x456... 1.5  - Send 1.5 MONAD" ++ nl ++
  js "  $ node build/index.js history          - View transactions" ++ nl ++
  nl ++
  esc ++ js "[33mNote: All amounts are in MONAD tokens" ++ esc ++ js "[0m" ++ nl ++
  js "        ".

(** ** [chain.ts] *)

(** The fields of [monadTestnet] that [info] prints. *)
Record Chain : Type := mkChain {
  chain_id : Z;
  chain_name : jstr;
  currency_name : jstr;
  currency_symbol : jstr;
  rpc_url : jstr
}.

Definition monadTestnet : Chain :=
  mkChain 10143 (js "Monad Testnet") (js "MONAD") (js "MONAD")
    (js "https://testnet-rpc.monad.xyz").

(** ** JavaScript conversions that the [history] command runs *)

(** The double of the number is zero: the number is zero, or so small
    that it rounds to zero (at most [2^-1075], half of the smallest
    double, which rounds to even). *)
Definition number_is_zero (x : number) : bool :=
  match x with
  | NInt z => (z =? 0)%Z
  | NFrac m e => (Z.abs m * 2 ^ 1075 <=? 10 ^ Z.pos e)%Z
  end.

(** ToString of a value that [JSON.parse] built.  An array is its
    elements joined by commas, [null] being the empty string.  An
    object is ["[object Object]"], unless it has an own property
    [toString]: that property hides the method, no method is left that
    gives a primitive value, and the conversion throws. *)
Fixpoint to_string (v : json) : result jstr :=
  match v with
  | JNull => Ok (js "null")
  | JBool b => Ok (if b then js "true" else js "false")
  | JNum x => Ok (number_to_string x)
  | JStr s => Ok s
  | JArr l =>
      (fix join (l : list json) : result jstr :=
         match l with
         | [] => Ok []
         | x :: l' =>
             match (match x with JNull => Ok [] | _ => to_string x end) with
             | Raise e => Raise e
             | Ok s =>
                 match l' with
                 | [] => Ok s
                 | _ :: _ =>
                     match join l' with
                     | Raise e => Raise e
                     | Ok r => Ok (s ++ 44%N :: r)
                     end
                 end
             end
         end) l
  | JObj o =>
      match obj_get (js "toString") o with
      | Some _ => Raise (js "Cannot convert object to primitive value")
      | None => Ok (js "[object Object]")
      end
  end.

(** A substitution [${v}] of a template literal; [None] is
    [undefined]. *)
Definition template (v : option json) : result jstr :=
  match v with
  | None => Ok (js "undefined")
  | Some x => to_string x
  end.

(** [tx.k] for the names [id], [timestamp], [sender], [recipient],
    [amount] and [status], which no prototype defines: the own property
    of an object, [undefined] on any other value, except on [null]
    where the read throws. *)
Definition get (k : string) (tx : json) : result (option json) :=
  match tx with
  | JNull =>
      Raise (js ("Cannot read properties of null (reading '" ++ k ++ "')"))
  | JObj o => Ok (obj_get (js k) o)
  | _ => Ok None
  end.

(** [new Date(v).toLocaleString()]: an array or an object is first
    converted to a primitive value, which is its string or throws. *)
Definition date_string (P : Platform) (v : option json) : result jstr :=
  match v with
  | Some (JArr _ as x) | Some (JObj _ as x) =>
      match to_string x with
      | Raise e => Raise e
      | Ok s => Ok (Date_toLocaleString P (Some (JStr s)))
      end
  | _ => Ok (Date_toLocaleString P v)
  end.

(** [status.toUpperCase()]: only a string has the method. *)
Definition upper_case (P : Platform) (status : option json) : result jstr :=
  match status with
  | Some (JStr s) => Ok (toUpperCase P s)
  | None =>
      Raise (js "Cannot read properties of undefined (reading 'toUpperCase')")
  | Some JNull =>
      Raise (js "Cannot read properties of null (reading 'toUpperCase')")
  | Some _ => Raise (js "tx.status.toUpperCase is not a function")
  end.

(** [getStatusEmoji]: the [switch] compares with [===]. *)
Definition getStatusEmoji (status : option json) : jstr :=
  match status with
  | Some (JStr s) =>
      if jstr_eqb s pending then hourglass
      else if jstr_eqb s confirmed then check_mark
      else if jstr_eqb s failed then cross_mark
      else question_mark
  | _ => question_mark
  end.

(** [history.length === 0] *)
Definition length_is_zero (history : json) : result bool :=
  match history with
  | JNull => Raise (js "Cannot read properties of null (reading 'length')")
  | JArr l => Ok (match l with [] => true | _ :: _ => false end)
  | JStr s => Ok (match s with [] => true | _ :: _ => false end)
  | JObj o =>
      Ok match obj_get (js "length") o with
         | Some (JNum x) => number_is_zero x
         | _ => false
         end
  | _ => Ok false
  end.

(** [array.forEach(f)] from the index [index] on. *)
Fixpoint forEach_from (f : json -> nat -> C unit) (l : list json) (index : nat) : C unit :=
  match l with
  | [] => cret tt
  | x :: l' => f x index ;;~ forEach_from f l' (S index)
  end.

(** [history.forEach(f)]: only an array has the method. *)
Definition forEach (f : json -> nat -> C unit) (history : json) : C unit :=
  match history with
  | JArr l => forEach_from f l 0
  | _ => cthrow (js "history.forEach is not a function")
  end.

(** The callback of the [history] command. *)
Definition print_transaction (P : Platform) (tx : json) (index : nat) : C unit :=
  console_log (js "Transaction #" ++ number_to_string (NInt (Z.of_nat index + 1))) ;;~
  id_text <~ clift (match get "id" tx with Raise e => Raise e | Ok v => template v end) ;;
  console_log (id_button ++ js " ID: " ++ id_text) ;;~
  time_text <~ clift (match get "timestamp" tx with
                      | Raise e => Raise e
                      | Ok v => date_string P v
                      end) ;;
  console_log (alarm_clock ++ js " Time: " ++ time_text) ;;~
  sender_text <~ clift (match get "sender" tx with Raise e => Raise e | Ok v => template v end) ;;
  console_log (outbox ++ js " From: " ++ sender_text) ;;~
  recipient_text <~ clift (match get "recipient" tx with
                           | Raise e => Raise e
                           | Ok v => template v
                           end) ;;
  console_log (inbox ++ js " To: " ++ recipient_text) ;;~
  amount_text <~ clift (match get "amount" tx with Raise e => Raise e | Ok v => template v end) ;;
  console_log (gem ++ js " Amount: " ++ amount_text ++ js " MONAD") ;;~
  status1 <~ clift (get "status" tx) ;;
  status2 <~ clift (get "status" tx) ;;
  status_text <~ clift (upper_case P status2) ;;
  console_log (getStatusEmoji status1 ++ js " Status: " ++ status_text ++ nl).

(** ** [main] *)

(** How [main] ends: it returns, or its [catch] has written
    ['\n❌ Error:'] and the message with [console.error], after all
    that the state records, and has called [process.exit(1)]. *)
Inductive ending : Type :=
| Resolved
| Exited (code : Z) (shown : jstr).

(** [!command]: the argument is absent or empty. *)
Definition falsy (x : option jstr) : bool :=
  match x with
  | None | Some [] => true
  | Some (_ :: _) => false
  end.

Definition command_is (x : option jstr) (s : string) : bool :=
  match x with
  | None => false
  | Some c => jstr_eqb c (js s)
  end.

Section Main.

Variable W : World.
Variable P : Platform.

Definition case_check (argv : list jstr) : C unit :=
  let address := nth_error argv 3 in
  if negb (opt_match re_address address) then cthrow (js "Invalid Monad address format")
  else
    balance <~ in_wallet (checkBalance W P (nth 3 argv [])) ;;
    console_log (nl ++ money_bag ++ js " Account Balance") ;;~
    console_log (js "Address: " ++ nth 3 argv []) ;;~
    console_log (js "Balance: " ++ balance ++ js " MONAD" ++ nl).

Definition case_transfer (argv : list jstr) : C unit :=
  let privateKey := nth_error argv 3 in
  let toAddress := nth_error argv 4 in
  let amount := nth_error argv 5 in
  if negb (opt_match re_private_key privateKey) then
    cthrow (js "Invalid private key format")
  else if negb (opt_match re_address toAddress) then
    cthrow (js "Invalid Monad address format")
  else if negb (opt_match re_amount amount) then
    cthrow (js "Invalid amount format")
  else
    console_log (nl ++ rocket ++ js " Initiating MONAD Transfer") ;;~
    console_log (js "To: " ++ nth 4 argv []) ;;~
    console_log (js "Amount: " ++ nth 5 argv [] ++ js " MONAD") ;;~
    hash <~ in_wallet (sendMonad W (nth 3 argv []) (nth 4 argv []) (nth 5 argv [])) ;;
    console_log (nl ++ memo ++ js " Transaction Details") ;;~
    console_log (js "Status: Submitted") ;;~
    console_log (js "Hash: " ++ hash) ;;~
    console_log (nl ++ hourglass ++ js " Waiting for confirmation..." ++ nl).

Definition case_history : C unit :=
  history <~ in_wallet getTransactionHistory ;;
  empty <~ clift (length_is_zero history) ;;
  if empty then
    console_log (nl ++ empty_mailbox ++ js " No transaction history found." ++ nl)
  else
    console_log (nl ++ clipboard ++ js " Monad Transaction History" ++ nl) ;;~
    forEach (print_transaction P) history.

Definition case_info : C unit :=
  console_log (nl ++ blue_diamond ++ js " Monad Network Information") ;;~
  console_log (js "Network: " ++ chain_name monadTestnet) ;;~
  console_log (js "Chain ID: " ++ number_to_string (NInt (chain_id monadTestnet))) ;;~
  console_log (js "Currency: " ++ currency_name monadTestnet ++ js " (" ++
               currency_symbol monadTestnet ++ js ")") ;;~
  console_log (js "RPC URL: " ++ rpc_url monadTestnet ++ nl).

Definition case_gas : C unit :=
  gasPrice <~ in_wallet (remote GetGasPrice (node_gasPrice W)) ;;
  let gasPriceGwei := formatEther P (gasPrice * 1000000000)%Z in
  console_log (nl ++ fuel_pump ++ js " Current Gas Price") ;;~
  console_log (gasPriceGwei ++ js " Gwei" ++ nl).

Definition unknown_command (command : jstr) : jstr :=
  js "Unknown command: " ++ command ++
  js ". Type 'node build/index.js help' for usage information.".

(** [main], for the arguments [process.argv].  [main_transfer] above is
    its [transfer] case without what goes to [console.log].  The lines
    that the entry point prints before it calls [main] (the banner) are
    not modelled. *)
Definition main (argv : list jstr) : C ending :=
  let command := nth_error argv 2 in
  if falsy command || command_is command "help" || command_is command "index.js" then
    console_log usage ;;~ cret Resolved
  else
    ctry
      ((if command_is command "check" then case_check argv
        else if command_is command "transfer" then case_transfer argv
        else if command_is command "history" then case_history
        else if command_is command "info" then case_info
        else if command_is command "gas" then case_gas
        else cthrow (unknown_command (nth 2 argv []))) ;;~
       cret Resolved)
      (fun message => cret (Exited 1 message)).

End Main.

(** ** Notions for the statements on [main] *)

(** A known command: [main] has a case for it, or prints the usage. *)
Definition known_commands : list string :=
  [ "help"; "index.js"; "check"; "transfer"; "history"; "info"; "gas" ].

(** The file operations are reads. *)
Definition only_reads (evs : list fs_event) : Prop :=
  Forall (fun ev => exists ok, ev = FsRead ok) evs.

(** From [st] to [st'] the log file has been read at most, nothing
    has been submitted and nothing written by [console.error]. *)
Definition read_only (st st' : state) : Prop :=
  file st' = file st /\
  (exists evs, io st' = io st ++ evs /\ only_reads evs) /\
  (exists cs, calls st' = calls st ++ cs /\ submissions cs = 0) /\
  console st' = console st.

(** The lines of the [history] command for the record [tx] at the
    index [index]. *)
Definition record_lines (P : Platform) (index : nat) (tx : MonadTransaction) : list jstr :=
  [ js "Transaction #" ++ number_to_string (NInt (Z.of_nat index + 1));
    id_button ++ js " ID: " ++ id tx;
    alarm_clock ++ js " Time: " ++ Date_toLocaleString P (Some (JNum (NInt (timestamp tx))));
    outbox ++ js " From: " ++ sender tx;
    inbox ++ js " To: " ++ recipient tx;
    gem ++ js " Amount: " ++ amount tx ++ js " MONAD";
    getStatusEmoji (Some (JStr (status tx))) ++ js " Status: " ++ toUpperCase P (status tx) ++ nl ].

(** The lines for the records [txs], the first one at [index]. *)
Fixpoint records_lines (P : Platform) (index : nat) (txs : list MonadTransaction) : list jstr :=
  match txs with
  | [] => []
  | tx :: txs' => record_lines P index tx ++ records_lines P (S index) txs'
  end.

Definition history_header : jstr := nl ++ clipboard ++ js " Monad Transaction History" ++ nl.
Definition no_history : jstr := nl ++ empty_mailbox ++ js " No transaction history found." ++ nl.

(** ** Sample platform *)

(** [toUpperCase] on the letters of ASCII. *)
Definition ascii_upper (s : jstr) : jstr :=
  map (fun c => if (97 <=? c)%N && (c <=? 122)%N then (c - 32)%N else c) s.

(** A platform for the examples: amounts are shown in wei (the toy
    denomination of [sample_world]), every date as the same text. *)
Definition sample_platform : Platform :=
  mkPlatform (fun wei => number_to_string (NInt wei))
             (fun _ => js "11/14/2023, 10:13:20 PM")
             ascii_upper.

Definition sample_process : process := mkProcess sample_log [].

(** The computation writes with [console.log] at most: it leaves the
    state of the wallet manager. *)
Definition keeps_wallet {A} (m : C A) : Prop :=
  forall p, wallet (snd (m p)) = wallet p.

(** The file holds the text that [JSON.stringify] gives for an array
    of canonical entries. *)
Definition well_written (st : state) : Prop :=
  exists l, Forall canonical l /\ file st = Some (JSON_stringify (JArr l)).
(* ================================================================== *)
(** * Strings and regular expressions: properties *)
(* ================================================================== *)

Lemma jstr_eqb_eq (a b : jstr) : jstr_eqb a b = true <-> a = b.
Proof.
  revert b; induction a as [|x a IH]; intros [|y b]; simpl; split; intro H;
    try reflexivity; try discriminate.
  - apply andb_true_iff in H as [Hx Hr].
    apply N.eqb_eq in Hx. apply IH in Hr. congruence.
  - injection H as -> ->. rewrite N.eqb_refl. simpl. apply IH. reflexivity.
Qed.

Lemma jstr_eqb_refl (a : jstr) : jstr_eqb a a = true.
Proof. apply jstr_eqb_eq. reflexivity. Qed.

Lemma Matches_eps_inv (w : jstr) : Matches Eps w -> w = [].
Proof. intro H. inversion H. reflexivity. Qed.

Lemma Matches_cls_inv (p : N -> bool) (w : jstr) :
  Matches (Cls p) w -> exists c, w = [c] /\ p c = true.
Proof. intro H. inversion H; subst. eauto. Qed.

Lemma Matches_cat_inv (a b : regex) (w : jstr) :
  Matches (Cat a b) w -> exists s t, w = s ++ t /\ Matches a s /\ Matches b t.
Proof. intro H. inversion H; subst. eauto. Qed.

Lemma Matches_alt_inv (a b : regex) (w : jstr) :
  Matches (Alt a b) w -> Matches a w \/ Matches b w.
Proof. intro H. inversion H; subst; auto. Qed.

Lemma nullable_spec (r : regex) : nullable r = true <-> Matches r [].
Proof.
  induction r as [| |p|a IHa b IHb|a IHa b IHb|a IHa]; simpl; split; intro H;
    try discriminate.
  - inversion H.
  - constructor.
  - reflexivity.
  - inversion H.
  - apply andb_true_iff in H as [H1 H2].
    change (@nil N) with (@nil N ++ []). constructor; tauto.
  - apply Matches_cat_inv in H as (s & t & Heq & Hs & Ht).
    symmetry in Heq. apply app_eq_nil in Heq as [-> ->].
    apply andb_true_iff. tauto.
  - apply orb_true_iff in H as [H|H]; [apply MAltL|apply MAltR]; tauto.
  - apply orb_true_iff. apply Matches_alt_inv in H. tauto.
  - constructor.
  - reflexivity.
Qed.

(** A nonempty word of [a*] starts with a nonempty word of [a]. *)
Lemma star_cons (a : regex) (w : jstr) :
  Matches (Star a) w ->
  forall c s, w = c :: s ->
  exists s1 s2, s = s1 ++ s2 /\ Matches a (c :: s1) /\ Matches (Star a) s2.
Proof.
  intro H. remember (Star a) as r eqn:Hr.
  induction H as [| | | | | |a' s t Hs _ Ht IHt]; try discriminate.
  injection Hr as ->. intros c u Hw.
  destruct s as [|x s].
  - simpl in Hw. apply (IHt eq_refl c u Hw).
  - simpl in Hw. injection Hw as -> <-. exists s, t. auto.
Qed.

Lemma deriv_spec (r : regex) : forall c s, Matches (deriv c r) s <-> Matches r (c :: s).
Proof.
  induction r as [| |p|a IHa b IHb|a IHa b IHb|a IHa]; intros c s; simpl.
  - split; intro H; inversion H.
  - split; intro H; inversion H.
  - destruct (p c) eqn:Hp; split; intro H.
    + apply Matches_eps_inv in H as ->. constructor. exact Hp.
    + apply Matches_cls_inv in H as (x & Heq & Hx). injection Heq as -> ->. constructor.
    + inversion H.
    + apply Matches_cls_inv in H as (x & Heq & Hx). injection Heq as -> ->. congruence.
  - assert (Hfwd : Matches (Cat (deriv c a) b) s -> Matches (Cat a b) (c :: s)).
    { intro H. apply Matches_cat_inv in H as (u & v & -> & Hu & Hv).
      apply IHa in Hu. change (c :: u ++ v) with ((c :: u) ++ v).
      constructor; assumption. }
    assert (Hbwd : Matches (Cat a b) (c :: s) ->
                   Matches (Cat (deriv c a) b) s \/
                   (Matches a [] /\ Matches b (c :: s))).
    { intro H. apply Matches_cat_inv in H as (u & v & Heq & Hu & Hv).
      destruct u as [|x u].
      - simpl in Heq. subst v. right. auto.
      - simpl in Heq. injection Heq as -> ->. left.
        constructor; [apply IHa|]; assumption. }
    destruct (nullable a) eqn:Hn; split; intro H.
    + apply Matches_alt_inv in H as [H|H]; [auto|].
      apply nullable_spec in Hn. change (c :: s) with ([] ++ c :: s).
      constructor; [assumption|]. apply IHb. assumption.
    + destruct (Hbwd H) as [H'|[_ H']]; [apply MAltL|apply MAltR]; [assumption|].
      apply IHb. assumption.
    + auto.
    + destruct (Hbwd H) as [H'|[H' _]]; [assumption|].
      apply nullable_spec in H'. congruence.
  - split; intro H; apply Matches_alt_inv in H as [H|H].
    + apply MAltL, IHa. assumption.
    + apply MAltR, IHb. assumption.
    + apply MAltL, IHa. assumption.
    + apply MAltR, IHb. assumption.
  - split; intro H.
    + apply Matches_cat_inv in H as (u & v & -> & Hu & Hv).
      apply IHa in Hu. change (c :: u ++ v) with ((c :: u) ++ v).
      constructor; assumption.
    + destruct (star_cons _ _ H _ _ eq_refl) as (s1 & s2 & -> & H1 & H2).
      constructor; [apply IHa|]; assumption.
Qed.

(** The test decides membership. *)
Lemma re_test_spec (s : jstr) : forall r, re_test r s = true <-> Matches r s.
Proof.
  induction s as [|c s IH]; intro r; simpl.
  - apply nullable_spec.
  - rewrite IH. apply deriv_spec.
Qed.

Lemma Matches_chr (c : N) (w : jstr) : Matches (Chr c) w <-> w = [c].
Proof.
  unfold Chr. split; intro H.
  - apply Matches_cls_inv in H as (x & -> & Hx). apply N.eqb_eq in Hx. congruence.
  - subst w. constructor. apply N.eqb_refl.
Qed.

Lemma Matches_rep_cls (p : N -> bool) (n : nat) :
  forall w, Matches (Rep n (Cls p)) w <->
            List.length w = n /\ Forall (fun c => p c = true) w.
Proof.
  induction n as [|n IH]; intro w; simpl; split; intro H.
  - apply Matches_eps_inv in H as ->. auto.
  - destruct H as [H _]. destruct w; [constructor|discriminate].
  - apply Matches_cat_inv in H as (s & t & -> & Hs & Ht).
    apply Matches_cls_inv in Hs as (c & -> & Hc).
    apply IH in Ht as [Hl Hf]. simpl. auto.
  - destruct H as [Hl Hf]. destruct w as [|c w]; [discriminate|].
    inversion Hf; subst. change (c :: w) with ([c] ++ w).
    constructor; [constructor; assumption|]. apply IH. simpl in Hl. auto.
Qed.

Lemma Matches_star_cls (p : N -> bool) (w : jstr) :
  Matches (Star (Cls p)) w <-> Forall (fun c => p c = true) w.
Proof.
  split; intro H.
  - remember (Star (Cls p)) as r eqn:Hr.
    induction H as [| | | | | |a s t Hs _ Ht IHt]; try discriminate.
    + constructor.
    + injection Hr as ->.
      apply Matches_cls_inv in Hs as (c & -> & Hc). simpl. auto.
  - induction H as [|c w Hc _ IH]; [constructor|].
    change (c :: w) with ([c] ++ w). constructor; [constructor|]; assumption.
Qed.

Lemma hex_re_spec (n : nat) (s : jstr) :
  re_test (Cat (Chr 48) (Cat (Chr 120) (Rep n (Cls is_hex)))) s = true <-> hex_string n s.
Proof.
  rewrite re_test_spec. unfold hex_string. split; intro H.
  - apply Matches_cat_inv in H as (a & t & -> & Ha & Ht).
    apply Matches_cat_inv in Ht as (b & body & -> & Hb & Hbody).
    apply Matches_chr in Ha as ->. apply Matches_chr in Hb as ->.
    apply Matches_rep_cls in Hbody. exists body. simpl. tauto.
  - destruct H as (body & -> & Hl & Hf).
    change (48 :: 120 :: body)%N with ([48] ++ [120] ++ body)%N.
    constructor; [apply Matches_chr; reflexivity|].
    constructor; [apply Matches_chr; reflexivity|].
    apply Matches_rep_cls. auto.
Qed.

Lemma re_amount_spec (s : jstr) : re_test re_amount s = true <-> decimal_amount s.
Proof.
  rewrite re_test_spec. unfold re_amount, decimal_amount, Opt, Plus. split; intro H.
  - apply Matches_cat_inv in H as (i & t & -> & Hi & Ht).
    apply Matches_cat_inv in Ht as (d & u & -> & Hd & Hu).
    apply Matches_cat_inv in Hu as (x & f & -> & Hx & Hf).
    apply Matches_cls_inv in Hx as (c & -> & Hc).
    apply Matches_star_cls in Hi. apply Matches_star_cls in Hf.
    apply Matches_alt_inv in Hd as [Hd|Hd].
    + apply Matches_chr in Hd as ->.
      exists i, (c :: f). repeat split; auto. right. simpl. split; [reflexivity|discriminate].
    + apply Matches_eps_inv in Hd as ->.
      exists (i ++ c :: f), []. repeat split; auto.
      * apply Forall_app. auto.
      * left. simpl. split; [reflexivity|]. destruct i; discriminate.
  - destruct H as (i & f & Hi & Hf & [[-> Hne]|[-> Hne]]).
    + destruct (exists_last Hne) as (i' & c & ->).
      apply Forall_app in Hi as [Hi' Hc]. inversion Hc; subst.
      constructor; [apply Matches_star_cls; assumption|].
      change [c] with ([] ++ [c] ++ []).
      constructor; [apply MAltR; constructor|].
      constructor; [constructor; assumption|constructor].
    + destruct f as [|c f]; [congruence|]. inversion Hf; subst.
      constructor; [apply Matches_star_cls; assumption|].
      change (46 :: c :: f)%N with ([46] ++ [c] ++ f)%N.
      constructor; [apply MAltL, Matches_chr; reflexivity|].
      constructor; [constructor; assumption|apply Matches_star_cls; assumption].
Qed.

Lemma opt_match_format (r : regex) (P : jstr -> Prop) (x : option jstr) :
  (forall s, re_test r s = true <-> P s) ->
  opt_match r x = true <-> has_format P x.
Proof.
  intro HP. unfold has_format. destruct x as [s|]; simpl.
  - rewrite HP. split; [eauto|]. intros (s' & [= <-] & H). assumption.
  - split; [discriminate|]. intros (s' & [=] & _).
Qed.

(** C8.  In the dispatcher's [transfer] command, a private key that is
    not [0x] and 64 hex digits, a recipient that is not [0x] and 40 hex
    digits, or an amount that is not plain decimal notation (or any of
    them missing) is rejected: [main] prints one of the three
    validation errors and exits with code 1, no request has been sent
    to the node and the log file has not been touched. *)
Theorem transfer_rejects_malformed_arguments
    (W : World) (argv : list jstr) (st : state) :
  ~ (has_format (hex_string 64) (nth_error argv 3) /\
     has_format (hex_string 40) (nth_error argv 4) /\
     has_format decimal_amount (nth_error argv 5)) ->
  exists msg,
    In msg validation_errors /\
    main_transfer W argv st =
      (Returned 1%Z,
       mkState (file st) (faults st) (calls st) (io st)
         (console st ++ [ErrLine "Error:" msg])).
Proof.
  intro Hbad. unfold main_transfer, try_catch, validation_errors. cbv zeta.
  destruct (opt_match re_private_key (nth_error argv 3)) eqn:Hk;
    [|eexists; split; [left; reflexivity|reflexivity]].
  destruct (opt_match re_address (nth_error argv 4)) eqn:Ha;
    [|eexists; split; [right; left; reflexivity|reflexivity]].
  destruct (opt_match re_amount (nth_error argv 5)) eqn:Hm;
    [|eexists; split; [right; right; left; reflexivity|reflexivity]].
  exfalso. apply Hbad. repeat split.
  - apply (opt_match_format re_private_key _ _ (hex_re_spec 64)). assumption.
  - apply (opt_match_format re_address _ _ (hex_re_spec 40)). assumption.
  - apply (opt_match_format re_amount _ _ re_amount_spec). assumption.
Qed.

(** C8 at a recipient that is not hexadecimal. *)
Lemma transfer_rejects_malformed_arguments_witness :
  let argv := [js "node"; js "index.js"; js "transfer"; sample_key;
               js "0xZZ00000000000000000000000000000000000000"; js "1.5"] in
  ~ (has_format (hex_string 64) (nth_error argv 3) /\
     has_format (hex_string 40) (nth_error argv 4) /\
     has_format decimal_amount (nth_error argv 5)) /\
  exists msg,
    In msg validation_errors /\
    main_transfer (sample_world 0 (js "success")) argv empty_disk =
      (Returned 1%Z,
       mkState (file empty_disk) (faults empty_disk) (calls empty_disk) (io empty_disk)
         (console empty_disk ++ [ErrLine "Error:" msg])).
Proof.
  intro argv.
  assert (Hbad : ~ (has_format (hex_string 64) (nth_error argv 3) /\
                    has_format (hex_string 40) (nth_error argv 4) /\
                    has_format decimal_amount (nth_error argv 5))).
  { intros (_ & Ha & _).
    apply (opt_match_format re_address _ _ (hex_re_spec 40)) in Ha.
    vm_compute in Ha. discriminate. }
  split; [exact Hbad|].
  exact (transfer_rejects_malformed_arguments (sample_world 0 (js "success")) argv empty_disk Hbad).
Defined.

(* ================================================================== *)
(** * [JSON.parse] after [JSON.stringify] *)
(* ================================================================== *)

Ltac divlia := zify; Z.to_euclidean_division_equations; lia.

Lemma option_map_id {A} (x : option (list A)) : option_map (app []) x = x.
Proof. destruct x; reflexivity. Qed.

Lemma option_map_app {A} (a b : list A) (x : option (list A)) :
  option_map (app a) (option_map (app b) x) = option_map (app (a ++ b)) x.
Proof. destruct x; simpl; [rewrite app_assoc|]; reflexivity. Qed.

Lemma accum_app (m : N) (a b : jstr) : accum m (a ++ b) = accum (accum m a) b.
Proof. unfold accum. apply fold_left_app. Qed.

Lemma is_digit_spec c : is_digit c = true <-> (48 <= c <= 57)%N.
Proof. unfold is_digit. rewrite andb_true_iff, !N.leb_le. tauto. Qed.

Lemma digits_aux_S (f : nat) (n : N) (acc : jstr) :
  digits_aux (S f) n acc =
    if (n / 10 =? 0)%N then (48 + n mod 10)%N :: acc
    else digits_aux f (n / 10) ((48 + n mod 10)%N :: acc).
Proof. reflexivity. Qed.

Lemma accum_cons (m c : N) (ds : jstr) : accum m (c :: ds) = accum (m * 10 + (c - 48)) ds.
Proof. reflexivity. Qed.

Lemma digits_aux_spec (fuel : nat) :
  forall n acc, (n < 2 ^ N.of_nat (S fuel))%N ->
    all_digits acc ->
    all_digits (digits_aux (S fuel) n acc) /\
    accum 0 (digits_aux (S fuel) n acc) = accum n acc /\
    (n <> 0%N -> exists c r, digits_aux (S fuel) n acc = c :: r /\ c <> 48%N) /\
    exists p, digits_aux (S fuel) n acc = p ++ (48 + n mod 10)%N :: acc.
Proof.
  induction fuel as [|f IH]; intros n acc Hn Hacc;
    assert (Hd : all_digits ((48 + n mod 10)%N :: acc))
      by (constructor; [apply is_digit_spec; divlia|exact Hacc]);
    rewrite digits_aux_S; destruct (n / 10 =? 0)%N eqn:Hsmall;
    try (apply N.eqb_eq in Hsmall; repeat split;
         [ exact Hd
         | rewrite accum_cons; f_equal; divlia
         | intro Hnz; eexists _, _; split; [reflexivity|divlia]
         | exists []; reflexivity ]).
  - apply N.eqb_neq in Hsmall. cbn in Hn. divlia.
  - apply N.eqb_neq in Hsmall.
    assert (Hn' : (n / 10 < 2 ^ N.of_nat (S f))%N).
    { rewrite Nat2N.inj_succ, N.pow_succ_r' in Hn. divlia. }
    destruct (IH (n / 10)%N _ Hn' Hd) as (H1 & H2 & H3 & p & H4).
    repeat split.
    + exact H1.
    + rewrite H2, accum_cons. f_equal. divlia.
    + intros _. exact (H3 Hsmall).
    + exists (p ++ [(48 + (n / 10) mod 10)%N]). rewrite H4, <- app_assoc. reflexivity.
Qed.

Lemma digits_fuel (n : N) : (n < 2 ^ N.of_nat (S (N.to_nat (N.log2 n))))%N.
Proof.
  rewrite Nat2N.inj_succ, N2Nat.id.
  destruct (N.eq_dec n 0) as [->|Hnz]; [reflexivity|].
  apply N.log2_spec. lia.
Qed.

Lemma digits_all (n : N) : all_digits (digits n).
Proof. apply (digits_aux_spec _ n [] (digits_fuel n)). constructor. Qed.

Lemma accum_digits (n : N) : accum 0 (digits n) = n.
Proof. apply (digits_aux_spec _ n [] (digits_fuel n)). constructor. Qed.

Lemma digits_head (n : N) : n <> 0%N -> exists c r, digits n = c :: r /\ c <> 48%N.
Proof. apply (digits_aux_spec _ n [] (digits_fuel n)). constructor. Qed.

Lemma digits_last (n : N) : exists p, digits n = p ++ [(48 + n mod 10)%N].
Proof. apply (digits_aux_spec _ n [] (digits_fuel n)). constructor. Qed.

(* ------------------------------------------------------------------ *)
(** ** The keys of an object *)

Lemma jstr_eqb_neq (a b : jstr) : jstr_eqb a b = false <-> a <> b.
Proof.
  rewrite <- jstr_eqb_eq. destruct (jstr_eqb a b); split; congruence.
Qed.

(** A key that may come after another differs from it. *)
Lemma key_after_neq (k k' : jstr) : key_after k k' = true -> jstr_eqb k k' = false.
Proof.
  unfold key_after. intro H. apply jstr_eqb_neq. intros ->.
  destruct (array_index k') as [n|].
  - apply N.ltb_lt in H. lia.
  - rewrite jstr_eqb_refl in H. discriminate.
Qed.

Lemma obj_replace_none (k : jstr) (v : json) (o : obj) :
  forallb (fun kv => key_after (fst kv) k) o = true -> obj_replace k v o = None.
Proof.
  induction o as [|[k1 v1] o IH]; [reflexivity|]. cbn [forallb fst obj_replace].
  intro H. apply andb_true_iff in H as [H1 H2].
  rewrite (key_after_neq _ _ H1), (IH H2). reflexivity.
Qed.

Lemma obj_insert_index_end (n : N) (k : jstr) (v : json) (o : obj) :
  array_index k = Some n ->
  forallb (fun kv => key_after (fst kv) k) o = true ->
  obj_insert_index n k v o = o ++ [(k, v)].
Proof.
  intro Hk. induction o as [|[k1 v1] o IH]; [reflexivity|]. cbn [forallb fst obj_insert_index].
  intro H. apply andb_true_iff in H as [H1 H2]. unfold key_after in H1. rewrite Hk in H1.
  destruct (array_index k1) as [n1|]; [|discriminate].
  rewrite H1, (IH H2). reflexivity.
Qed.

(** A key that may come after all the keys of an object is added at its end. *)
Lemma obj_define_end (k : jstr) (v : json) (o : obj) :
  forallb (fun kv => key_after (fst kv) k) o = true ->
  obj_define k v o = o ++ [(k, v)].
Proof.
  intro H. unfold obj_define. rewrite (obj_replace_none k v o H).
  destruct (array_index k) as [n|] eqn:Hk; [|reflexivity].
  apply obj_insert_index_end; assumption.
Qed.

Lemma keys_ok_app (a b : list jstr) :
  keys_ok (a ++ b) = true <->
  keys_ok a = true /\ keys_ok b = true /\
  forallb (fun x => forallb (key_after x) b) a = true.
Proof.
  induction a as [|x a IH]; cbn [app keys_ok forallb].
  - tauto.
  - rewrite !andb_true_iff, forallb_app, andb_true_iff, IH. tauto.
Qed.

Lemma obj_of_members_ok (o2 : obj) :
  forall o1, keys_ok (map fst (o1 ++ o2)) = true ->
    fold_left (fun acc kv => obj_define (fst kv) (snd kv) acc) o2 o1 = o1 ++ o2.
Proof.
  induction o2 as [|[k v] o2 IH]; intros o1 H; cbn [fold_left]; [rewrite app_nil_r; reflexivity|].
  cbn [fst snd].
  assert (Hend : forallb (fun kv => key_after (fst kv) k) o1 = true).
  { rewrite map_app in H. apply keys_ok_app in H as (_ & _ & H).
    rewrite forallb_forall in H |- *. intros [k1 v1] Hin. cbn [fst].
    specialize (H k1 (in_map fst _ _ Hin)). cbn [map fst forallb] in H.
    apply andb_true_iff in H. tauto. }
  rewrite (obj_define_end k v o1 Hend), IH.
  - rewrite <- app_assoc. reflexivity.
  - rewrite <- app_assoc. exact H.
Qed.

Lemma obj_of_members_id (o : obj) : keys_ok (map fst o) = true -> obj_of_members o = o.
Proof. intro H. exact (obj_of_members_ok o [] H). Qed.

Lemma obj_replace_keys (k : jstr) (v : json) (o : obj) :
  forall o', obj_replace k v o = Some o' -> map fst o' = map fst o.
Proof.
  induction o as [|[k1 v1] o IH]; intros o'; cbn [obj_replace]; [discriminate|].
  destruct (jstr_eqb k1 k).
  - intros [= <-]. reflexivity.
  - destruct (obj_replace k v o) as [o''|]; [|discriminate].
    intros [= <-]. cbn [map fst]. rewrite (IH o'' eq_refl). reflexivity.
Qed.

Lemma obj_replace_absent (k : jstr) (v : json) (o : obj) :
  obj_replace k v o = None -> forallb (fun kv => negb (jstr_eqb (fst kv) k)) o = true.
Proof.
  induction o as [|[k1 v1] o IH]; [reflexivity|]. cbn [obj_replace forallb fst].
  destruct (jstr_eqb k1 k); [discriminate|].
  destruct (obj_replace k v o); [discriminate|]. intros _. apply IH. reflexivity.
Qed.

(** Setting a property whose key is not an array index leaves the keys well ordered. *)
Lemma keys_ok_define (k : jstr) (v : json) (o : obj) :
  array_index k = None -> keys_ok (map fst o) = true ->
  keys_ok (map fst (obj_define k v o)) = true.
Proof.
  intros Hk Hok. unfold obj_define.
  destruct (obj_replace k v o) as [o'|] eqn:Hr.
  - rewrite (obj_replace_keys k v o o' Hr). exact Hok.
  - rewrite Hk, map_app. apply keys_ok_app. split; [exact Hok|]. split; [reflexivity|].
    apply obj_replace_absent in Hr. rewrite forallb_forall in Hr |- *.
    intros k1 Hin. apply in_map_iff in Hin as ([k1' v1] & <- & Hin).
    specialize (Hr _ Hin). cbn [map fst forallb] in *. unfold key_after. rewrite Hk.
    destruct (array_index k1'); [reflexivity|]. rewrite Hr. reflexivity.
Qed.

(* ------------------------------------------------------------------ *)
(** ** The lexer on the text of a number *)

Local Open Scope N_scope.

Lemma lex_skip (st st' : lstate) (c : N) (s : jstr) :
  lex_step st c = Some (st', []) -> lex st (c :: s) = lex st' s.
Proof. intro H. cbn [lex]. rewrite H. apply option_map_id. Qed.

Lemma lex_emit (st st' : lstate) (c : N) (t : token) (s : jstr) :
  lex_step st c = Some (st', [t]) -> lex st (c :: s) = option_map (cons t) (lex st' s).
Proof. intro H. cbn [lex]. rewrite H. reflexivity. Qed.

Lemma lex_spaces (n : nat) (s : jstr) : lex LDefault (spaces n ++ s) = lex LDefault s.
Proof.
  induction n as [|n IH]; [reflexivity|].
  cbn [spaces repeat app]. rewrite (lex_skip LDefault LDefault) by reflexivity. exact IH.
Qed.

Lemma lex_close_spec (x : number) (c : N) (r : jstr) :
  match lex_close x c with
  | None => None
  | Some (st', out) => option_map (app out) (lex st' r)
  end = option_map (cons (TNumber x)) (lex LDefault (c :: r)).
Proof.
  unfold lex_close. cbn [lex lex_step].
  destruct (lex_default c) as [[st' out]|]; [|reflexivity].
  destruct (lex st' r); reflexivity.
Qed.

Lemma stops_cons (c : N) (r : jstr) :
  stops (c :: r) = true -> is_digit c = false /\ N.eqb c 46 = false /\ is_e c = false.
Proof.
  cbn [stops]. rewrite !andb_true_iff, !negb_true_iff. tauto.
Qed.

Lemma mk_number_int (neg : bool) (m : N) :
  mk_number neg m 0 = NInt (if neg then (- Z.of_N m)%Z else Z.of_N m).
Proof. unfold mk_number. cbn [Z.leb Z.compare Z.to_N N.pow]. rewrite N.mul_1_r. reflexivity. Qed.

Lemma lex_int_digits (neg : bool) (ds : jstr) :
  all_digits ds ->
  forall m rest, lex (LInt neg m) (ds ++ rest) = lex (LInt neg (accum m ds)) rest.
Proof.
  induction 1 as [|c ds Hc _ IH]; intros m rest; [reflexivity|].
  cbn [app]. rewrite (lex_skip (LInt neg m) (LInt neg (m * 10 + (c - 48)))).
  - apply IH.
  - cbn [lex_step]. rewrite Hc. reflexivity.
Qed.

Lemma lex_int_end (neg : bool) (m : N) (rest : jstr) :
  stops rest = true ->
  lex (LInt neg m) rest =
    option_map (cons (TNumber (NInt (if neg then (- Z.of_N m)%Z else Z.of_N m))))
      (lex LDefault rest).
Proof.
  intro Hs. rewrite <- mk_number_int. destruct rest as [|c r]; [reflexivity|].
  apply stops_cons in Hs as (Hd & Hp & He).
  cbn [lex lex_step]. rewrite Hd, Hp, He. apply lex_close_spec.
Qed.

Lemma lex_zero_end (neg : bool) (rest : jstr) :
  stops rest = true ->
  lex (LZero neg) rest = option_map (cons (TNumber (NInt 0))) (lex LDefault rest).
Proof.
  intro Hs. replace (NInt 0) with (mk_number neg 0 0)
    by (rewrite mk_number_int; destruct neg; reflexivity).
  destruct rest as [|c r]; [reflexivity|].
  apply stops_cons in Hs as (Hd & Hp & He).
  cbn [lex lex_step]. rewrite Hp, He. apply lex_close_spec.
Qed.

Lemma digit_cases (c : N) :
  is_digit c = true -> c <> 48 ->
  c = 49 \/ c = 50 \/ c = 51 \/ c = 52 \/ c = 53 \/ c = 54 \/ c = 55 \/ c = 56 \/ c = 57.
Proof. intros H Hz. apply is_digit_spec in H. lia. Qed.

Lemma lex_first_digit (c : N) :
  is_digit c = true -> c <> 48 ->
  lex_default c = Some (LInt false (c - 48), []) /\
  lex_step LSign c = Some (LInt true (c - 48), []).
Proof.
  intros H Hz.
  destruct (digit_cases c H Hz) as [->|[->|[->|[->|[->|[->|[->|[->| ->]]]]]]]];
    split; reflexivity.
Qed.

(** An integer printed without exponent. *)
Lemma lex_plain_int (z : Z) (rest : jstr) :
  (Z.abs z < 10 ^ 21)%Z -> stops rest = true ->
  lex LDefault ((sign_of z ++ digits (Z.abs_N z)) ++ rest) =
    option_map (cons (TNumber (NInt z))) (lex LDefault rest).
Proof.
  intros Hz Hs. unfold sign_of.
  destruct (Z.eq_dec z 0) as [->|Hnz].
  - cbn [Z.ltb Z.compare app]. change (digits (Z.abs_N 0)) with [48].
    cbn [app]. rewrite (lex_skip LDefault (LZero false)) by reflexivity.
    apply lex_zero_end. exact Hs.
  - assert (Habs : Z.abs_N z <> 0) by lia.
    destruct (digits_head _ Habs) as (c & r & Hd & Hc).
    pose proof (digits_all (Z.abs_N z)) as Hall.
    pose proof (accum_digits (Z.abs_N z)) as Hval.
    rewrite Hd in Hall, Hval |- *. inversion Hall as [|? ? Hcd Hr]; subst.
    rewrite accum_cons in Hval. cbn [N.mul N.add] in Hval.
    destruct (lex_first_digit c Hcd Hc) as [Hpos Hneg].
    destruct (z <? 0)%Z eqn:Hsign; cbn [app].
    + rewrite (lex_skip LDefault LSign) by reflexivity.
      rewrite (lex_skip LSign _ _ _ Hneg), lex_int_digits by exact Hr.
      rewrite lex_int_end by exact Hs. rewrite Hval.
      apply Z.ltb_lt in Hsign.
      replace (- Z.of_N (Z.abs_N z))%Z with z by lia. reflexivity.
    + rewrite (lex_skip LDefault _ _ _ Hpos), lex_int_digits by exact Hr.
      rewrite lex_int_end by exact Hs. rewrite Hval.
      apply Z.ltb_ge in Hsign.
      replace (Z.of_N (Z.abs_N z)) with z by lia. reflexivity.
Qed.

Lemma accum_zeros (j : nat) : forall m, accum m (repeat 48 j) = m * 10 ^ N.of_nat j.
Proof.
  induction j as [|j IH]; intro m.
  - cbn [repeat]. change (accum m []) with m. change (10 ^ N.of_nat 0) with 1. lia.
  - cbn [repeat]. rewrite accum_cons, IH, Nat2N.inj_succ, N.pow_succ_r'. lia.
Qed.

Lemma all_digits_zeros (j : nat) : all_digits (repeat 48 j).
Proof. induction j; constructor; [reflexivity|assumption]. Qed.

Lemma lex_frac_digits (neg : bool) (ds : jstr) :
  all_digits ds ->
  forall m fd rest,
    lex (LFrac neg m fd) (ds ++ rest) =
    lex (LFrac neg (accum m ds) (fd + N.of_nat (List.length ds))) rest.
Proof.
  induction 1 as [|c ds Hc _ IH]; intros m fd rest.
  - cbn [app List.length]. rewrite N.add_0_r. reflexivity.
  - cbn [app]. rewrite (lex_skip (LFrac neg m fd) (LFrac neg (m * 10 + (c - 48)) (fd + 1))).
    + rewrite IH. cbn [List.length]. rewrite accum_cons, Nat2N.inj_succ.
      replace (fd + 1 + N.of_nat (List.length ds)) with (fd + N.succ (N.of_nat (List.length ds)))
        by lia.
      reflexivity.
    + cbn [lex_step]. rewrite Hc. reflexivity.
Qed.

Lemma lex_dot_digits (neg : bool) (m : N) (c : N) (ds rest : jstr) :
  all_digits (c :: ds) ->
  lex (LDot neg m) (c :: ds ++ rest) =
  lex (LFrac neg (accum m (c :: ds)) (N.of_nat (List.length (c :: ds)))) rest.
Proof.
  intro H. inversion H as [|? ? Hc Hds]; subst.
  rewrite (lex_skip (LDot neg m) (LFrac neg (m * 10 + (c - 48)) 1)).
  - rewrite lex_frac_digits by exact Hds. rewrite accum_cons. cbn [List.length].
    rewrite Nat2N.inj_succ.
    replace (1 + N.of_nat (List.length ds)) with (N.succ (N.of_nat (List.length ds))) by lia.
    reflexivity.
  - cbn [lex_step]. rewrite Hc. reflexivity.
Qed.

Lemma lex_exp_digits (neg : bool) (m fd : N) (eneg : bool) (ds : jstr) :
  all_digits ds ->
  forall ex rest,
    lex (LExp neg m fd eneg ex) (ds ++ rest) = lex (LExp neg m fd eneg (accum ex ds)) rest.
Proof.
  induction 1 as [|c ds Hc _ IH]; intros ex rest; [reflexivity|].
  cbn [app]. rewrite (lex_skip (LExp neg m fd eneg ex) (LExp neg m fd eneg (ex * 10 + (c - 48)))).
  - apply IH.
  - cbn [lex_step]. rewrite Hc. reflexivity.
Qed.

Lemma lex_esign_digits (neg : bool) (m fd : N) (eneg : bool) (c : N) (ds rest : jstr) :
  all_digits (c :: ds) ->
  lex (LESign neg m fd eneg) (c :: ds ++ rest) =
  lex (LExp neg m fd eneg (accum 0 (c :: ds))) rest.
Proof.
  intro H. inversion H as [|? ? Hc Hds]; subst.
  rewrite (lex_skip (LESign neg m fd eneg) (LExp neg m fd eneg (c - 48))).
  - rewrite lex_exp_digits by exact Hds. reflexivity.
  - cbn [lex_step]. rewrite Hc. reflexivity.
Qed.

Lemma lex_frac_end (neg : bool) (m fd : N) (rest : jstr) :
  stops rest = true ->
  lex (LFrac neg m fd) rest =
    option_map (cons (TNumber (mk_number neg m (- Z.of_N fd)))) (lex LDefault rest).
Proof.
  intro Hs. destruct rest as [|c r]; [reflexivity|].
  apply stops_cons in Hs as (Hd & Hp & He).
  cbn [lex lex_step]. rewrite Hd, He. apply lex_close_spec.
Qed.

Lemma lex_exp_end (neg : bool) (m fd : N) (eneg : bool) (ex : N) (rest : jstr) :
  stops rest = true ->
  lex (LExp neg m fd eneg ex) rest =
    option_map (cons (TNumber (mk_number neg m (exp_scale fd eneg ex)))) (lex LDefault rest).
Proof.
  intro Hs. destruct rest as [|c r]; [reflexivity|].
  apply stops_cons in Hs as (Hd & Hp & He).
  cbn [lex lex_step]. rewrite Hd. apply lex_close_spec.
Qed.

Lemma lex_start_digit (neg : bool) (c : N) (s : jstr) :
  is_digit c = true -> c <> 48 ->
  lex (start neg) (c :: s) = lex (LInt neg (c - 48)) s.
Proof.
  intros Hc Hz. destruct (lex_first_digit c Hc Hz) as [Hpos Hneg].
  destruct neg; apply lex_skip; assumption.
Qed.

Lemma lex_start_zero (neg : bool) (s : jstr) :
  lex (start neg) (48 :: s) = lex (LZero neg) s.
Proof. destruct neg; apply lex_skip; reflexivity. Qed.

Lemma mk_number_nonneg (neg : bool) (m : N) (s : Z) :
  (0 <= s)%Z ->
  mk_number neg m s = NInt (if neg then (- Z.of_N (m * 10 ^ Z.to_N s))%Z else Z.of_N (m * 10 ^ Z.to_N s)).
Proof. intro H. unfold mk_number. apply Z.leb_le in H. rewrite H. reflexivity. Qed.

Lemma accum_start (c : N) (r : jstr) : accum 0 (c :: r) = accum (c - 48) r.
Proof. rewrite accum_cons. f_equal. Qed.

Lemma digits_nonempty (n : N) : exists c ds, digits n = c :: ds.
Proof.
  destruct (digits_last n) as [p Hp]. destruct (digits n) as [|c ds]; [|eauto].
  destruct p; discriminate.
Qed.

(** The exponent part [e+N] or [e-N], after a significand [m] with [fd]
    digits behind the point. *)
Lemma lex_exponent (neg : bool) (m fd : N) (e : Z) (rest : jstr) :
  stops rest = true ->
  lex (LE neg m fd)
      ((if (e <? 0)%Z then 45 else 43) :: digits (Z.abs_N e) ++ rest) =
    option_map (cons (TNumber (mk_number neg m (e - Z.of_N fd)))) (lex LDefault rest).
Proof.
  intro Hs. destruct (digits_nonempty (Z.abs_N e)) as (c & ds & Hd).
  pose proof (digits_all (Z.abs_N e)) as Hall.
  pose proof (accum_digits (Z.abs_N e)) as Hval.
  rewrite Hd in Hall, Hval |- *.
  rewrite (lex_skip (LE neg m fd) (LESign neg m fd (e <? 0)%Z))
    by (destruct (e <? 0)%Z; reflexivity).
  cbn [app]. rewrite lex_esign_digits by exact Hall. rewrite Hval.
  rewrite lex_exp_end by exact Hs. unfold exp_scale.
  replace (if (e <? 0)%Z then (- Z.of_N (Z.abs_N e))%Z else Z.of_N (Z.abs_N e)) with e; [reflexivity|].
  destruct (e <? 0)%Z eqn:He; [apply Z.ltb_lt in He|apply Z.ltb_ge in He]; lia.
Qed.

Lemma lex_format (neg : bool) (c : N) (r : jstr) (n : Z) (rest : jstr) :
  all_digits (c :: r) -> c <> 48 -> stops rest = true ->
  lex (start neg) (format_digits (c :: r) n ++ rest) =
    option_map
      (cons (TNumber (mk_number neg (accum 0 (c :: r))
                        (n - Z.of_nat (List.length (c :: r))))))
      (lex LDefault rest).
Proof.
  intros Hall Hc Hs. inversion Hall as [|? ? Hcd Hr]; subst.
  rewrite accum_start. unfold format_digits.
  set (k := Z.of_nat (List.length (c :: r))).
  assert (Hk : k = (1 + Z.of_nat (List.length r))%Z) by (unfold k; cbn [List.length]; lia).
  destruct ((k <=? n)%Z && (n <=? 21)%Z) eqn:B1.
  { (* digits, then zeros *)
    apply andb_true_iff in B1 as [B1 _]. apply Z.leb_le in B1.
    cbn [app]. rewrite lex_start_digit by assumption.
    rewrite <- app_assoc, lex_int_digits by exact Hr.
    rewrite lex_int_digits by apply all_digits_zeros.
    rewrite lex_int_end by exact Hs. rewrite accum_zeros.
    rewrite mk_number_nonneg by lia.
    replace (N.of_nat (Z.to_nat (n - k))) with (Z.to_N (n - k)) by lia. reflexivity. }
  destruct ((0 <? n)%Z && (n <=? 21)%Z) eqn:B2.
  { (* a point inside the digits *)
    apply andb_true_iff in B2 as [B2a B2b]. apply Z.ltb_lt in B2a.
    assert (Hnk : (n < k)%Z).
    { destruct (k <=? n)%Z eqn:E; [rewrite B2b in B1; discriminate|].
      apply Z.leb_gt in E. exact E. }
    destruct (Z.to_nat n) as [|p] eqn:Hp; [lia|].
    cbn [firstn skipn app]. rewrite lex_start_digit by assumption.
    assert (Hsplit : r = firstn p r ++ skipn p r) by (symmetry; apply firstn_skipn).
    assert (Hfirst : all_digits (firstn p r)).
    { rewrite Hsplit in Hr. apply Forall_app in Hr. tauto. }
    assert (Hskip : all_digits (skipn p r)).
    { rewrite Hsplit in Hr. apply Forall_app in Hr. tauto. }
    rewrite <- app_assoc, lex_int_digits by exact Hfirst. cbn [app].
    rewrite (lex_skip (LInt neg _) (LDot neg (accum (c - 48) (firstn p r)))) by reflexivity.
    assert (Hlen : List.length (skipn p r) = (List.length r - p)%nat) by apply length_skipn.
    destruct (skipn p r) as [|c2 r2] eqn:Hsk; [cbn [List.length] in Hlen; lia|].
    rewrite <- app_comm_cons, lex_dot_digits by exact Hskip.
    rewrite lex_frac_end by exact Hs.
    rewrite <- accum_app, <- Hsplit, Hlen.
    replace (- Z.of_N (N.of_nat (List.length r - p)))%Z with (n - k)%Z by lia.
    reflexivity. }
  destruct ((-6 <? n)%Z && (n <=? 0)%Z) eqn:B3.
  { (* zeros after the point, then the digits *)
    apply andb_true_iff in B3 as [_ B3]. apply Z.leb_le in B3.
    cbn [app]. rewrite lex_start_zero.
    rewrite (lex_skip (LZero neg) (LDot neg 0)) by reflexivity.
    assert (Hz : all_digits (repeat 48 (Z.to_nat (- n)) ++ c :: r)).
    { apply Forall_app. split; [apply all_digits_zeros|exact Hall]. }
    assert (Hlen : List.length (repeat 48 (Z.to_nat (- n)) ++ c :: r)
                   = (Z.to_nat (- n) + S (List.length r))%nat).
    { rewrite length_app, repeat_length. reflexivity. }
    assert (Hacc : accum 0 (repeat 48 (Z.to_nat (- n)) ++ c :: r) = accum (c - 48) r).
    { rewrite accum_app, accum_zeros, N.mul_0_l. apply accum_start. }
    destruct (repeat 48 (Z.to_nat (- n)) ++ c :: r) as [|c2 r2] eqn:Hd;
      [cbn [List.length] in Hlen; lia|].
    rewrite <- app_comm_cons, lex_dot_digits by exact Hz.
    rewrite lex_frac_end by exact Hs. rewrite Hacc, Hlen.
    replace (- Z.of_N (N.of_nat (Z.to_nat (- n) + S (List.length r))))%Z with (n - k)%Z by lia.
    reflexivity. }
  (* exponent notation *)
  destruct r as [|c2 r2].
  - cbn [List.length] in Hk. cbn [app]. rewrite lex_start_digit by assumption.
    rewrite (lex_skip (LInt neg _) (LE neg (c - 48) 0)) by reflexivity.
    rewrite lex_exponent by exact Hs.
    replace (n - 1 - Z.of_N 0)%Z with (n - k)%Z by lia. reflexivity.
  - cbn [app]. rewrite lex_start_digit by assumption.
    rewrite (lex_skip (LInt neg _) (LDot neg (c - 48))) by reflexivity.
    rewrite <- app_assoc, <- app_comm_cons, lex_dot_digits by exact Hr.
    cbn [app].
    rewrite (lex_skip (LFrac neg _ _) (LE neg (accum (c - 48) (c2 :: r2))
                                          (N.of_nat (List.length (c2 :: r2))))).
    + rewrite lex_exponent by exact Hs.
      replace (n - 1 - Z.of_N (N.of_nat (List.length (c2 :: r2))))%Z with (n - k)%Z by lia.
      reflexivity.
    + reflexivity.
Qed.

Lemma lex_sign (z : Z) (s : jstr) :
  lex LDefault (sign_of z ++ s) = lex (start (z <? 0)%Z) s.
Proof.
  unfold sign_of, start. destruct (z <? 0)%Z; [|reflexivity].
  cbn [app]. apply lex_skip. reflexivity.
Qed.

Lemma drop_zeros_spec (l : jstr) : exists j, l = repeat 48 j ++ drop_zeros l.
Proof.
  induction l as [|c l [j IH]]; [exists 0%nat; reflexivity|].
  cbn [drop_zeros]. destruct (N.eqb c 48) eqn:Hc.
  - apply N.eqb_eq in Hc. subst c. exists (S j). cbn [repeat app]. rewrite <- IH. reflexivity.
  - exists 0%nat. reflexivity.
Qed.

Lemma strip_spec (d : jstr) : exists j, d = strip_trailing_zeros d ++ repeat 48 j.
Proof.
  unfold strip_trailing_zeros. destruct (drop_zeros_spec (rev d)) as [j Hj].
  exists j. rewrite <- (rev_involutive d) at 1. rewrite Hj at 1.
  rewrite rev_app_distr, rev_repeat. reflexivity.
Qed.

Lemma sg_abs (z : Z) :
  (if (z <? 0)%Z then (- Z.of_N (Z.abs_N z))%Z else Z.of_N (Z.abs_N z)) = z.
Proof. destruct (z <? 0)%Z eqn:H; [apply Z.ltb_lt in H|apply Z.ltb_ge in H]; lia. Qed.

Lemma mk_number_frac (neg : bool) (m : N) (e : positive) :
  m mod 10 <> 0 ->
  mk_number neg m (- Z.pos e) = NFrac (if neg then (- Z.of_N m)%Z else Z.of_N m) e.
Proof.
  intro Hm. unfold mk_number. cbn [Z.opp Z.leb Z.compare Z.to_nat].
  destruct (Pos2Nat.is_succ e) as [j Hj]. rewrite Hj. cbn [strip10].
  apply N.eqb_neq in Hm. rewrite Hm. f_equal.
  apply Pos2Nat.inj. rewrite SuccNat2Pos.id_succ. symmetry. exact Hj.
Qed.

(** What Number::toString writes is read back as the number. *)
Lemma lex_number (x : number) (rest : jstr) :
  canonical_number x -> stops rest = true ->
  lex LDefault (number_to_string x ++ rest) =
    option_map (cons (TNumber x)) (lex LDefault rest).
Proof.
  intros Hx Hs. destruct x as [z|m e].
  - destruct (Z.abs z <? 10 ^ 21)%Z eqn:Hsmall.
    + cbn [number_to_string]. rewrite Hsmall.
      apply lex_plain_int; [apply Z.ltb_lt; exact Hsmall|exact Hs].
    + cbn [number_to_string]. rewrite Hsmall. apply Z.ltb_ge in Hsmall.
      assert (Habs : Z.abs_N z <> 0) by lia.
      destruct (digits_head _ Habs) as (c & r & Hd & Hc).
      pose proof (digits_all (Z.abs_N z)) as Hall.
      pose proof (accum_digits (Z.abs_N z)) as Hval.
      destruct (strip_spec (digits (Z.abs_N z))) as [j Hj].
      set (D := digits (Z.abs_N z)) in *.
      destruct (strip_trailing_zeros D) as [|c' r'] eqn:Hstrip.
      { exfalso. cbn [app] in Hj. rewrite Hd in Hj. destruct j; [discriminate|].
        cbn [repeat] in Hj. congruence. }
      assert (c' = c) by (rewrite Hd in Hj; cbn [app] in Hj; congruence). subst c'.
      assert (Hall' : all_digits (c :: r')).
      { rewrite Hj in Hall. apply Forall_app in Hall. tauto. }
      rewrite <- app_assoc, lex_sign, lex_format by assumption.
      assert (Hlen : (Z.of_nat (List.length D) - Z.of_nat (List.length (c :: r'))
                      = Z.of_nat j)%Z).
      { rewrite Hj at 1. rewrite length_app, repeat_length. lia. }
      rewrite Hlen, mk_number_nonneg by lia.
      replace (accum 0 (c :: r') * 10 ^ Z.to_N (Z.of_nat j)) with (Z.abs_N z).
      * rewrite sg_abs. reflexivity.
      * rewrite <- Hval, Hj, accum_app, accum_zeros. f_equal. f_equal. lia.
  - cbn [canonical_number] in Hx. cbn [number_to_string].
    assert (Habs : Z.abs_N m <> 0) by (intro H0; rewrite H0 in Hx; apply Hx; reflexivity).
    destruct (digits_head _ Habs) as (c & r & Hd & Hc).
    pose proof (digits_all (Z.abs_N m)) as Hall.
    pose proof (accum_digits (Z.abs_N m)) as Hval.
    rewrite Hd in Hall, Hval |- *.
    rewrite <- app_assoc, lex_sign, lex_format by assumption.
    replace (Z.of_nat (List.length (c :: r)) - Z.pos e - Z.of_nat (List.length (c :: r)))%Z
      with (- Z.pos e)%Z by lia.
    rewrite Hval, mk_number_frac by exact Hx. rewrite sg_abs. reflexivity.
Qed.

(* ------------------------------------------------------------------ *)
(** ** The lexer on a quoted string *)

Lemma hex_digit_ok (n : N) :
  n < 16 -> is_hex (hex_digit n) = true /\ hex_value (hex_digit n) = n.
Proof.
  intro H. destruct n as [|p]; [split; reflexivity|].
  do 4 (try destruct p as [p|p|]); try (split; reflexivity); lia.
Qed.

Lemma lex_unicode_step (acc : jstr) (k : nat) (v n : N) :
  n < 16 ->
  lex_step (LUnicode acc (S (S k)) v) (hex_digit n) = Some (LUnicode acc (S k) (v * 16 + n), []) /\
  lex_step (LUnicode acc 1 v) (hex_digit n) = Some (LString (v * 16 + n :: acc), []).
Proof.
  intro H. destruct (hex_digit_ok n H) as [Hh Hv].
  cbn [lex_step]. rewrite Hh, Hv. split; reflexivity.
Qed.

Lemma lex_uescape (c : N) (acc r : jstr) :
  c < 65536 -> lex (LString acc) (uescape c ++ r) = lex (LString (c :: acc)) r.
Proof.
  intro Hc. unfold uescape. cbn [app].
  rewrite (lex_skip (LString acc) (LEscape acc)) by reflexivity.
  rewrite (lex_skip (LEscape acc) (LUnicode acc 4 0)) by reflexivity.
  rewrite (lex_skip _ _ _ _ (proj1 (lex_unicode_step acc 2 0 (c / 4096 mod 16) ltac:(divlia)))).
  rewrite (lex_skip _ _ _ _ (proj1 (lex_unicode_step acc 1 _ (c / 256 mod 16) ltac:(divlia)))).
  rewrite (lex_skip _ _ _ _ (proj1 (lex_unicode_step acc 0 _ (c / 16 mod 16) ltac:(divlia)))).
  rewrite (lex_skip _ _ _ _ (proj2 (lex_unicode_step acc 0 _ (c mod 16) ltac:(divlia)))).
  replace ((((0 * 16 + c / 4096 mod 16) * 16 + c / 256 mod 16) * 16 + c / 16 mod 16) * 16
           + c mod 16) with c by divlia.
  reflexivity.
Qed.

Lemma lex_plain_char (c : N) (acc r : jstr) :
  N.eqb c 34 = false -> N.eqb c 92 = false -> (c <? 32) = false ->
  lex (LString acc) (c :: r) = lex (LString (c :: acc)) r.
Proof.
  intros H1 H2 H3. apply lex_skip. cbn [lex_step]. rewrite H1, H2, H3. reflexivity.
Qed.

Lemma lex_quote_char (c : N) (acc r : jstr) :
  lex (LString acc) (quote_char c ++ r) = lex (LString (c :: acc)) r.
Proof.
  assert (Hesc : forall x, unescape x = Some c ->
            lex (LString acc) ([92; x] ++ r) = lex (LString (c :: acc)) r).
  { intros x Hx. cbn [app].
    rewrite (lex_skip (LString acc) (LEscape acc)) by reflexivity.
    apply lex_skip. cbn [lex_step].
    destruct (N.eqb x 117) eqn:E; [apply N.eqb_eq in E; subst; discriminate|].
    rewrite Hx. reflexivity. }
  unfold quote_char.
  destruct (N.eqb c 8) eqn:E8; [apply N.eqb_eq in E8; subst; apply Hesc; reflexivity|].
  destruct (N.eqb c 9) eqn:E9; [apply N.eqb_eq in E9; subst; apply Hesc; reflexivity|].
  destruct (N.eqb c 10) eqn:E10; [apply N.eqb_eq in E10; subst; apply Hesc; reflexivity|].
  destruct (N.eqb c 12) eqn:E12; [apply N.eqb_eq in E12; subst; apply Hesc; reflexivity|].
  destruct (N.eqb c 13) eqn:E13; [apply N.eqb_eq in E13; subst; apply Hesc; reflexivity|].
  destruct (N.eqb c 34) eqn:E34; [apply N.eqb_eq in E34; subst; apply Hesc; reflexivity|].
  destruct (N.eqb c 92) eqn:E92; [apply N.eqb_eq in E92; subst; apply Hesc; reflexivity|].
  destruct (c <? 32) eqn:E32.
  - apply lex_uescape. apply N.ltb_lt in E32. lia.
  - cbn [app]. apply lex_plain_char; assumption.
Qed.

Lemma surrogate_plain (c : N) :
  is_high c = true \/ is_low c = true ->
  N.eqb c 34 = false /\ N.eqb c 92 = false /\ (c <? 32) = false /\ c < 65536.
Proof.
  unfold is_high, is_low. rewrite !andb_true_iff, !N.leb_le.
  intro H. rewrite !N.eqb_neq, N.ltb_ge. lia.
Qed.

Lemma lex_quote_chars (n : nat) :
  forall s acc rest, (List.length s <= n)%nat ->
    lex (LString acc) (quote_chars s ++ 34 :: rest) =
      option_map (cons (TString (rev acc ++ s))) (lex LDefault rest).
Proof.
  induction n as [|n IH]; intros s acc rest Hlen.
  - destruct s; [|simpl in Hlen; lia]. cbn [quote_chars app].
    rewrite app_nil_r. apply lex_emit. reflexivity.
  - destruct s as [|c s].
    { cbn [quote_chars app]. rewrite app_nil_r. apply lex_emit. reflexivity. }
    assert (Hnext : forall acc', rev acc' = rev acc ++ [c] ->
              lex (LString acc') (quote_chars s ++ 34 :: rest) =
              option_map (cons (TString (rev acc ++ c :: s))) (lex LDefault rest)).
    { intros acc' Hacc. rewrite IH by (simpl in Hlen; lia).
      rewrite Hacc, <- app_assoc. reflexivity. }
    cbn [quote_chars]. destruct (is_high c) eqn:Hh.
    + destruct (surrogate_plain c (or_introl Hh)) as (H1 & H2 & H3 & H4).
      destruct s as [|d s].
      * rewrite lex_uescape by exact H4. apply (Hnext (c :: acc)). reflexivity.
      * destruct (is_low d) eqn:Hl.
        -- destruct (surrogate_plain d (or_intror Hl)) as (G1 & G2 & G3 & G4).
           cbn [app]. rewrite lex_plain_char, lex_plain_char by assumption.
           rewrite IH by (simpl in Hlen; lia). cbn [rev].
           rewrite <- !app_assoc. reflexivity.
        -- rewrite <- app_assoc, lex_uescape by exact H4.
           apply (Hnext (c :: acc)). reflexivity.
    + destruct (is_low c) eqn:Hl.
      * destruct (surrogate_plain c (or_intror Hl)) as (H1 & H2 & H3 & H4).
        rewrite <- app_assoc, lex_uescape by exact H4.
        apply (Hnext (c :: acc)). reflexivity.
      * rewrite <- app_assoc, lex_quote_char. apply (Hnext (c :: acc)). reflexivity.
Qed.

Lemma lex_string (s rest : jstr) :
  lex LDefault (quote s ++ rest) = option_map (cons (TString s)) (lex LDefault rest).
Proof.
  unfold quote. cbn [app]. rewrite (lex_skip LDefault (LString [])) by reflexivity.
  rewrite <- app_assoc. cbn [app]. apply (lex_quote_chars (List.length s)). lia.
Qed.

(* ------------------------------------------------------------------ *)
(** ** The lexer on the text of a value *)

Lemma json_induction (P : json -> Prop) :
  P JNull -> (forall b, P (JBool b)) -> (forall x, P (JNum x)) -> (forall s, P (JStr s)) ->
  (forall l, Forall P l -> P (JArr l)) ->
  (forall o, Forall (fun kv => P (snd kv)) o -> P (JObj o)) ->
  forall v, P v.
Proof.
  intros Hnull Hbool Hnum Hstr Harr Hobj. fix IH 1.
  intros [|b|x|s|l|o]; [exact Hnull|apply Hbool|apply Hnum|apply Hstr| |].
  - apply Harr. induction l as [|x l IHl]; constructor; [apply IH|exact IHl].
  - apply Hobj. induction o as [|kv o IHo]; constructor; [apply IH|exact IHo].
Qed.

Lemma canonical_arr (l : list json) : canonical (JArr l) <-> Forall canonical l.
Proof.
  induction l as [|x l IH]; cbn [canonical fold_right]; split; intro H.
  - constructor.
  - exact I.
  - destruct H as [Hx Hl]. constructor; [exact Hx|]. apply IH. exact Hl.
  - inversion H; subst. split; [assumption|]. apply IH. assumption.
Qed.

Lemma canonical_obj (o : obj) :
  canonical (JObj o) <->
  keys_ok (map fst o) = true /\ Forall (fun kv => canonical (snd kv)) o.
Proof.
  cbn [canonical]. apply and_iff_compat_l.
  induction o as [|kv o IH]; cbn [fold_right]; split; intro H.
  - constructor.
  - exact I.
  - destruct H as [Hx Hl]. constructor; [exact Hx|]. apply IH. exact Hl.
  - inversion H; subst. split; [assumption|]. apply IH. assumption.
Qed.

Lemma lines_one (i : nat) (x : jstr) : lines i [x] = 10 :: spaces i ++ x.
Proof. reflexivity. Qed.

Lemma lines_more (i : nat) (x y : jstr) (r : list jstr) :
  lines i (x :: y :: r) = 10 :: spaces i ++ x ++ 44 :: lines i (y :: r).
Proof. reflexivity. Qed.

Lemma lex_lines {A : Type} (pr : A -> jstr) (tk : A -> list token) (i : nat) :
  forall l x,
    Forall (fun y => lexes (pr y) (tk y)) (x :: l) ->
    forall rest,
      lex LDefault (lines i (map pr (x :: l)) ++ 10 :: rest) =
        option_map (app (tk x ++ flat_map (fun y => TComma :: tk y) l))
          (lex LDefault (10 :: rest)).
Proof.
  induction l as [|y l IH]; intros x Hall rest; inversion Hall as [|? ? Hx Hl]; subst.
  - cbn [map flat_map]. rewrite lines_one, app_nil_r. cbn [app].
    rewrite (lex_skip LDefault LDefault) by reflexivity.
    rewrite <- app_assoc, lex_spaces. apply Hx. reflexivity.
  - change (map pr (x :: y :: l)) with (pr x :: pr y :: map pr l).
    rewrite lines_more. change (pr y :: map pr l) with (map pr (y :: l)). cbn [app].
    rewrite (lex_skip LDefault LDefault) by reflexivity.
    rewrite <- !app_assoc, lex_spaces. rewrite Hx by reflexivity.
    cbn [app]. rewrite (lex_emit LDefault LDefault 44 TComma) by reflexivity.
    rewrite (IH y Hl rest). cbn [flat_map].
    destruct (lex LDefault (10 :: rest)); cbn [option_map]; [|reflexivity].
    rewrite <- !app_assoc. reflexivity.
Qed.

Lemma lex_block {A : Type} (pr : A -> jstr) (tk : A -> list token)
    (op cl : N) (topen tclose : token) (ind : nat) (l : list A) :
  lex_default op = Some (LDefault, [topen]) ->
  lex_default cl = Some (LDefault, [tclose]) ->
  Forall (fun y => lexes (pr y) (tk y)) l ->
  forall rest,
    lex LDefault (block op cl ind (map pr l) ++ rest) =
      option_map
        (app (topen :: match l with
                       | [] => [tclose]
                       | x :: l' => tk x ++ flat_map (fun y => TComma :: tk y) l' ++ [tclose]
                       end))
        (lex LDefault rest).
Proof.
  intros Hop Hcl Hall rest. unfold block. destruct l as [|x l].
  - cbn [map app]. rewrite (lex_emit LDefault LDefault op topen) by exact Hop.
    rewrite (lex_emit LDefault LDefault cl tclose) by exact Hcl.
    destruct (lex LDefault rest); reflexivity.
  - change (map pr (x :: l)) with (pr x :: map pr l).
    cbn [app]. rewrite (lex_emit LDefault LDefault op topen) by exact Hop.
    change (pr x :: map pr l) with (map pr (x :: l)).
    rewrite <- app_assoc. cbn [app]. rewrite (lex_lines pr tk _ l x Hall).
    rewrite (lex_skip LDefault LDefault) by reflexivity.
    rewrite <- app_assoc, lex_spaces. cbn [app].
    rewrite (lex_emit LDefault LDefault cl tclose) by exact Hcl.
    destruct (lex LDefault rest); cbn [option_map]; [|reflexivity].
    rewrite <- !app_assoc. reflexivity.
Qed.

Lemma lex_stringify (v : json) :
  canonical v -> forall ind, lexes (stringify_at ind v) (tokens v).
Proof.
  induction v as [|b|x|s|l IH|o IH] using json_induction; intros Hc ind rest Hs.
  - change (stringify_at ind JNull) with [110; 117; 108; 108]. cbn [app tokens].
    rewrite (lex_skip LDefault (LKeyword [117; 108; 108] TNull)) by reflexivity.
    rewrite (lex_skip _ (LKeyword [108; 108] TNull)) by reflexivity.
    rewrite (lex_skip _ (LKeyword [108] TNull)) by reflexivity.
    apply lex_emit. reflexivity.
  - destruct b.
    + change (stringify_at ind (JBool true)) with [116; 114; 117; 101]. cbn [app tokens].
      rewrite (lex_skip LDefault (LKeyword [114; 117; 101] TTrue)) by reflexivity.
      rewrite (lex_skip _ (LKeyword [117; 101] TTrue)) by reflexivity.
      rewrite (lex_skip _ (LKeyword [101] TTrue)) by reflexivity.
      apply lex_emit. reflexivity.
    + change (stringify_at ind (JBool false)) with [102; 97; 108; 115; 101]. cbn [app tokens].
      rewrite (lex_skip LDefault (LKeyword [97; 108; 115; 101] TFalse)) by reflexivity.
      rewrite (lex_skip _ (LKeyword [108; 115; 101] TFalse)) by reflexivity.
      rewrite (lex_skip _ (LKeyword [115; 101] TFalse)) by reflexivity.
      rewrite (lex_skip _ (LKeyword [101] TFalse)) by reflexivity.
      apply lex_emit. reflexivity.
  - cbn [stringify_at tokens]. apply lex_number; assumption.
  - cbn [stringify_at tokens]. apply lex_string.
  - apply canonical_arr in Hc. cbn [stringify_at tokens].
    apply (lex_block (stringify_at (ind + 2)) tokens 91 93 TLBracket TRBracket);
      try reflexivity.
    rewrite Forall_forall in IH, Hc |- *. intros y Hy. apply IH; auto.
  - apply canonical_obj in Hc as [_ Hc]. cbn [stringify_at].
    rewrite (lex_block
               (fun kv => quote (fst kv) ++ 58 :: 32 :: stringify_at (ind + 2) (snd kv))
               (fun kv => TString (fst kv) :: TColon :: tokens (snd kv))
               123 125 TLBrace TRBrace) by
      (try reflexivity;
       rewrite Forall_forall in IH, Hc |- *; intros kv Hkv rest' Hs';
       rewrite <- app_assoc, lex_string; cbn [app];
       rewrite (lex_emit LDefault LDefault 58 TColon) by reflexivity;
       rewrite (lex_skip LDefault LDefault) by reflexivity;
       rewrite (IH kv Hkv (Hc kv Hkv) _ rest' Hs');
       destruct (lex LDefault rest'); reflexivity).
    cbn [tokens]. destruct o as [|kv o]; [reflexivity|].
    destruct (lex LDefault rest); cbn [option_map app]; [|reflexivity].
    reflexivity.
Qed.

(* ------------------------------------------------------------------ *)
(** ** The parser on the tokens of a value *)

Lemma parse_first (x : json) (stk : list context) (ts : list token) :
  parse_run (SArrOpen stk) (tokens x ++ ts) =
  parse_run (SValue (CArr [] :: stk)) (tokens x ++ ts).
Proof. destruct x as [|[|]|n|s|l|o]; reflexivity. Qed.

Lemma parse_elements (stk : list context) (ts : list token) (l : list json) :
  Forall parses l ->
  forall items,
    parse_run (SArrNext items stk)
      (flat_map (fun y => TComma :: tokens y) l ++ TRBracket :: ts) =
    parse_run (deliver (JArr (rev items ++ l)) stk) ts.
Proof.
  induction 1 as [|y l Hy _ IH]; intro items.
  - cbn [flat_map app parse_run parse_step]. rewrite app_nil_r. reflexivity.
  - cbn [flat_map app]. rewrite <- app_assoc.
    cbn [parse_run parse_step]. rewrite Hy. cbn [deliver].
    rewrite IH. cbn [rev]. rewrite <- app_assoc. reflexivity.
Qed.

Lemma parse_members (stk : list context) (ts : list token) (o : obj) :
  Forall (fun kv => parses (snd kv)) o ->
  forall members,
    parse_run (SObjNext members stk)
      (flat_map (fun kv => TComma :: TString (fst kv) :: TColon :: tokens (snd kv)) o
         ++ TRBrace :: ts) =
    parse_run
      (deliver (JObj (fold_left (fun acc kv => obj_define (fst kv) (snd kv) acc) o members))
         stk) ts.
Proof.
  induction 1 as [|kv o Hkv _ IH]; intro members.
  - reflexivity.
  - cbn [flat_map app]. rewrite <- app_assoc.
    cbn [parse_run parse_step]. rewrite Hkv. cbn [deliver].
    rewrite IH. reflexivity.
Qed.

Lemma parse_tokens (v : json) : canonical v -> parses v.
Proof.
  induction v as [|b|x|s|l IH|o IH] using json_induction; intros Hc stk ts;
    try reflexivity.
  - destruct b; reflexivity.
  - apply canonical_arr in Hc.
    assert (Hall : Forall parses l).
    { rewrite Forall_forall in IH, Hc |- *. auto. }
    cbn [tokens app parse_run parse_step parse_value].
    destruct l as [|x l]; [reflexivity|]. inversion Hall as [|? ? Hx Hl]; subst.
    rewrite <- app_assoc, parse_first, Hx. cbn [deliver app].
    rewrite <- app_assoc. cbn [app]. rewrite (parse_elements stk ts l Hl). reflexivity.
  - apply canonical_obj in Hc as [Hnorm Hc].
    assert (Hall : Forall (fun kv => parses (snd kv)) o).
    { rewrite Forall_forall in IH, Hc |- *. auto. }
    cbn [tokens app parse_run parse_step parse_value].
    destruct o as [|kv o]; [reflexivity|]. inversion Hall as [|? ? Hx Hl]; subst.
    cbn [app parse_run parse_step]. rewrite <- app_assoc, Hx. cbn [deliver].
    rewrite <- app_assoc. cbn [app]. rewrite (parse_members stk ts o Hl).
    apply obj_of_members_id in Hnorm. unfold obj_of_members in Hnorm.
    cbn [fold_left] in Hnorm. rewrite Hnorm. reflexivity.
Qed.

(** What [JSON.stringify] writes for a canonical value, [JSON.parse]
    reads back as that value. *)
Lemma JSON_roundtrip (v : json) :
  canonical v -> JSON_parse (JSON_stringify v) = Some v.
Proof.
  intro Hc. unfold JSON_parse, JSON_stringify.
  rewrite <- (app_nil_r (stringify_at 0 v)).
  rewrite (lex_stringify v Hc 0 [] eq_refl). cbn [lex lex_end option_map].
  rewrite (parse_tokens v Hc). reflexivity.
Qed.

(* ------------------------------------------------------------------ *)
(** *** What [JSON.parse] returns is canonical *)

(** The digits do not depend on what they are put in front of, nor on
    the fuel when it is enough. *)
Lemma digits_aux_acc (f : nat) :
  forall n acc, digits_aux f n acc = digits_aux f n [] ++ acc.
Proof.
  induction f as [|f IH]; intros n acc; [reflexivity|].
  rewrite (digits_aux_S f n acc), (digits_aux_S f n []).
  destruct (n / 10 =? 0); [reflexivity|].
  rewrite (IH _ (_ :: acc)), (IH _ [_]), <- app_assoc. reflexivity.
Qed.

Lemma digits_aux_fuel (f1 : nat) :
  forall f2 n, n < 2 ^ N.of_nat (S f1) -> n < 2 ^ N.of_nat (S f2) ->
    digits_aux (S f1) n [] = digits_aux (S f2) n [].
Proof.
  induction f1 as [|f1 IH]; intros f2 n H1 H2;
    rewrite (digits_aux_S _ n []), (digits_aux_S f2 n []);
    destruct (n / 10 =? 0) eqn:Hs; try reflexivity; apply N.eqb_neq in Hs.
  - cbn in H1. divlia.
  - destruct f2 as [|f2]; [cbn in H2; divlia|].
    rewrite (digits_aux_acc (S f1)), (digits_aux_acc (S f2)). f_equal.
    apply IH.
    + rewrite Nat2N.inj_succ, N.pow_succ_r' in H1. divlia.
    + rewrite Nat2N.inj_succ, N.pow_succ_r' in H2. divlia.
Qed.

Lemma digits_small (n : N) : n < 10 -> digits n = [48 + n].
Proof.
  intro H. unfold digits. rewrite digits_aux_S.
  replace (n / 10 =? 0) with true by (symmetry; apply N.eqb_eq; divlia).
  f_equal. f_equal. divlia.
Qed.

Lemma digits_step (n : N) :
  n / 10 <> 0 -> digits n = digits (n / 10) ++ [48 + n mod 10].
Proof.
  intro H. unfold digits at 1. rewrite digits_aux_S.
  apply N.eqb_neq in H. rewrite H. apply N.eqb_neq in H.
  pose proof (digits_fuel n) as Hf.
  destruct (N.to_nat (N.log2 n)) as [|f] eqn:Hlog; [cbn in Hf; divlia|].
  rewrite digits_aux_acc. f_equal. unfold digits.
  apply digits_aux_fuel.
  - rewrite Nat2N.inj_succ, N.pow_succ_r' in Hf. divlia.
  - apply digits_fuel.
Qed.

Lemma digits_accum (k : jstr) :
  all_digits k -> forall m, m <> 0 -> digits (accum m k) = digits m ++ k.
Proof.
  induction 1 as [|c k Hc _ IH]; intros m Hm.
  - change (accum m []) with m. rewrite app_nil_r. reflexivity.
  - apply is_digit_spec in Hc. rewrite accum_cons, IH by lia.
    rewrite digits_step by divlia.
    replace ((m * 10 + (c - 48)) / 10) with m by divlia.
    replace (48 + (m * 10 + (c - 48)) mod 10) with c by divlia.
    rewrite <- app_assoc. reflexivity.
Qed.

(** An array index is the decimal text of its number. *)
Lemma array_index_digits (k : jstr) (n : N) : array_index k = Some n -> k = digits n.
Proof.
  unfold array_index. destruct k as [|c r]; [discriminate|].
  destruct (forallb is_digit (c :: r)) eqn:Hall; [|discriminate].
  cbn [andb]. rewrite forallb_forall in Hall.
  assert (Hd : all_digits (c :: r)) by (apply Forall_forall; exact Hall).
  inversion Hd as [|? ? Hc Hr]; subst.
  destruct (negb (c =? 48) || match r with [] => true | _ => false end) eqn:Hcanon;
    [|discriminate].
  destruct (accum 0 (c :: r) <? 4294967295); [|discriminate].
  intros [= <-]. apply is_digit_spec in Hc.
  destruct (N.eq_dec c 48) as [->|Hnz].
  - rewrite N.eqb_refl in Hcanon. cbn [negb orb] in Hcanon.
    destruct r; [reflexivity|discriminate].
  - rewrite digits_accum by (try exact Hr; lia).
    rewrite digits_small by lia. cbn [app]. f_equal. lia.
Qed.

Lemma array_index_inj (k k' : jstr) (n : N) :
  array_index k = Some n -> array_index k' = Some n -> k = k'.
Proof.
  intros H H'. apply array_index_digits in H, H'. congruence.
Qed.

(* ---------- what the lexer and the parser build is canonical ---------- *)

Lemma strip10_spec (fuel : nat) :
  forall m m' k, strip10 fuel m = (m', S k) -> m' mod 10 <> 0.
Proof.
  induction fuel as [|f IH]; intros m m' k; cbn [strip10]; [discriminate|].
  destruct (m mod 10 =? 0) eqn:Hm.
  - apply IH.
  - intros [= <- _]. apply N.eqb_neq. exact Hm.
Qed.

Lemma mk_number_canonical (neg : bool) (m : N) (s : Z) : canonical_number (mk_number neg m s).
Proof.
  unfold mk_number. destruct (0 <=? s)%Z; [exact I|].
  destruct (strip10 (Z.to_nat (- s)) m) as [m' [|k]] eqn:Hs; [exact I|].
  apply strip10_spec in Hs. cbn [canonical_number].
  replace (Z.abs_N (if neg then (- Z.of_N m')%Z else Z.of_N m')) with m'
    by (destruct neg; lia).
  exact Hs.
Qed.

Lemma lex_default_canonical (c : N) (st : lstate) (out : list token) :
  lex_default c = Some (st, out) -> Forall canonical_token out /\ lstate_ok st.
Proof.
  unfold lex_default.
  repeat match goal with
         | |- context [if ?b then _ else _] => destruct b
         end; intros [= <- <-]; split; repeat constructor.
Qed.

Lemma lex_close_canonical (x : number) (c : N) (st : lstate) (out : list token) :
  canonical_number x -> lex_close x c = Some (st, out) ->
  Forall canonical_token out /\ lstate_ok st.
Proof.
  intro Hx. unfold lex_close. destruct (lex_default c) as [[st' out']|] eqn:Hd; [|discriminate].
  intros [= <- <-]. destruct (lex_default_canonical c st' out' Hd) as [Ho Hs].
  split; [constructor; [exact Hx|exact Ho]|exact Hs].
Qed.

Lemma lex_step_canonical (st : lstate) (c : N) (st' : lstate) (out : list token) :
  lstate_ok st -> lex_step st c = Some (st', out) ->
  Forall canonical_token out /\ lstate_ok st'.
Proof.
  intro Hok. destruct st; cbn [lex_step lstate_ok] in *;
    try apply lex_default_canonical;
    repeat match goal with
           | |- context [match ?x with _ => _ end] =>
               lazymatch x with
               | lex_close _ _ => fail
               | _ => destruct x
               end
           end;
    try discriminate;
    try (intros [= <- <-]; split; repeat constructor; assumption);
    try (apply lex_close_canonical, mk_number_canonical).
Qed.

Lemma lex_canonical (s : jstr) :
  forall st ts, lstate_ok st -> lex st s = Some ts -> Forall canonical_token ts.
Proof.
  induction s as [|c s IH]; intros st ts Hok; cbn [lex].
  - destruct st; cbn [lex_end]; try discriminate; intros [= <-];
      repeat constructor; apply mk_number_canonical.
  - destruct (lex_step st c) as [[st' out]|] eqn:Hstep; [|discriminate].
    destruct (lex st' s) as [ts'|] eqn:Hrest; [|discriminate].
    destruct (lex_step_canonical st c st' out Hok Hstep) as [Hout Hok'].
    intros [= <-]. apply Forall_app. split; [exact Hout|].
    exact (IH st' ts' Hok' Hrest).
Qed.

Lemma obj_replace_values (P : json -> Prop) (k : jstr) (v : json) (o : obj) :
  P v -> Forall (fun kv => P (snd kv)) o ->
  forall o', obj_replace k v o = Some o' -> Forall (fun kv => P (snd kv)) o'.
Proof.
  intros Hv. induction 1 as [|[k1 v1] o H1 Ho IH]; intros o'; cbn [obj_replace]; [discriminate|].
  destruct (jstr_eqb k1 k).
  - intros [= <-]. constructor; [exact Hv|exact Ho].
  - destruct (obj_replace k v o) as [o''|]; [|discriminate].
    intros [= <-]. constructor; [exact H1|]. apply IH. reflexivity.
Qed.

(** A key that comes after an array index comes before what follows it. *)
Lemma key_after_index (k k1 k2 : jstr) (n : N) :
  array_index k = Some n -> key_after k k1 = true -> key_after k1 k2 = true ->
  key_after k k2 = true.
Proof.
  unfold key_after. intros ->.
  destruct (array_index k1) as [n1|], (array_index k2) as [n2|]; try reflexivity; try discriminate.
  rewrite !N.ltb_lt. lia.
Qed.

Lemma obj_insert_index_keys (P : jstr -> bool) (n : N) (k : jstr) (v : json) (o : obj) :
  P k = true -> forallb P (map fst o) = true ->
  forallb P (map fst (obj_insert_index n k v o)) = true.
Proof.
  intro Hk. induction o as [|[k1 v1] o IH]; cbn [obj_insert_index map fst forallb].
  - rewrite Hk. reflexivity.
  - intro H. apply andb_true_iff in H as [H1 H2].
    destruct (array_index k1) as [n1|]; [destruct (n1 <? n)|];
      cbn [map fst forallb]; rewrite ?Hk, ?H1, ?H2, ?(IH H2); reflexivity.
Qed.

Lemma keys_ok_insert_index (n : N) (k : jstr) (v : json) (o : obj) :
  array_index k = Some n ->
  forallb (fun kv => negb (jstr_eqb (fst kv) k)) o = true ->
  keys_ok (map fst o) = true ->
  keys_ok (map fst (obj_insert_index n k v o)) = true.
Proof.
  intro Hk. induction o as [|[k1 v1] o IH]; [reflexivity|].
  cbn [forallb fst obj_insert_index map keys_ok].
  intros Hne Hok. apply andb_true_iff in Hne as [Hne1 Hne2].
  apply andb_true_iff in Hok as [Hok1 Hok2].
  assert (Hfront : key_after k k1 = true ->
            keys_ok (map fst ((k, v) :: (k1, v1) :: o)) = true).
  { intro Hkk. cbn [map fst keys_ok forallb]. rewrite Hkk, Hok1, Hok2. cbn [andb].
    rewrite andb_true_r. rewrite forallb_forall in Hok1 |- *. intros k2 Hin.
    exact (key_after_index k k1 k2 n Hk Hkk (Hok1 k2 Hin)). }
  destruct (array_index k1) as [n1|] eqn:Hk1.
  - destruct (n1 <? n) eqn:Hlt.
    + cbn [map fst keys_ok]. rewrite (IH Hne2 Hok2), andb_true_r.
      apply obj_insert_index_keys; [|exact Hok1].
      unfold key_after. rewrite Hk1, Hk. exact Hlt.
    + apply Hfront. unfold key_after. rewrite Hk, Hk1. apply N.ltb_lt.
      apply N.ltb_ge in Hlt.
      assert (n <> n1); [|lia]. intros ->.
      apply negb_true_iff, jstr_eqb_neq in Hne1. apply Hne1.
      exact (array_index_inj k1 k n1 Hk1 Hk).
  - apply Hfront. unfold key_after. rewrite Hk, Hk1. reflexivity.
Qed.

(** Setting a property leaves the keys of an object well ordered. *)
Lemma keys_ok_obj_define (k : jstr) (v : json) (o : obj) :
  keys_ok (map fst o) = true -> keys_ok (map fst (obj_define k v o)) = true.
Proof.
  intro Hok. destruct (array_index k) as [n|] eqn:Hk; [|apply keys_ok_define; assumption].
  unfold obj_define. destruct (obj_replace k v o) as [o'|] eqn:Hr.
  - rewrite (obj_replace_keys k v o o' Hr). exact Hok.
  - rewrite Hk. apply keys_ok_insert_index; [exact Hk| |exact Hok].
    apply obj_replace_absent with (v := v). exact Hr.
Qed.

Lemma obj_insert_index_values (P : json -> Prop) (n : N) (k : jstr) (v : json) (o : obj) :
  P v -> Forall (fun kv => P (snd kv)) o ->
  Forall (fun kv => P (snd kv)) (obj_insert_index n k v o).
Proof.
  intro Hv. induction 1 as [|[k1 v1] o H1 Ho IH]; cbn [obj_insert_index].
  - repeat constructor. exact Hv.
  - destruct (array_index k1) as [n1|]; [destruct (n1 <? n)|];
      repeat (constructor; try assumption).
Qed.

Lemma obj_define_values (P : json -> Prop) (k : jstr) (v : json) (o : obj) :
  P v -> Forall (fun kv => P (snd kv)) o ->
  Forall (fun kv => P (snd kv)) (obj_define k v o).
Proof.
  intros Hv Ho. unfold obj_define. destruct (obj_replace k v o) as [o'|] eqn:Hr.
  - exact (obj_replace_values P k v o Hv Ho o' Hr).
  - destruct (array_index k) as [n|].
    + apply obj_insert_index_values; assumption.
    + apply Forall_app. split; [exact Ho|]. repeat constructor. exact Hv.
Qed.

Lemma canonical_obj_define (k : jstr) (v : json) (o : obj) :
  canonical v -> canonical (JObj o) -> canonical (JObj (obj_define k v o)).
Proof.
  rewrite !canonical_obj. intros Hv [Hk Ho]. split.
  - apply keys_ok_obj_define. exact Hk.
  - apply obj_define_values; assumption.
Qed.

Lemma deliver_ok (v : json) (stk : list context) :
  canonical v -> Forall context_ok stk -> pstate_ok (deliver v stk).
Proof.
  intros Hv Hs. destruct Hs as [|[items|members k] stk Hc Hs]; cbn [deliver pstate_ok].
  - exact Hv.
  - split; [constructor; [exact Hv|exact Hc]|exact Hs].
  - split; [apply canonical_obj_define; [exact Hv|exact Hc]|exact Hs].
Qed.

Lemma parse_value_ok (stk : list context) (t : token) (st : pstate) :
  canonical_token t -> Forall context_ok stk -> parse_value stk t = Some st -> pstate_ok st.
Proof.
  intros Ht Hs. destruct t; cbn [parse_value]; try discriminate; intros [= <-];
    try (apply deliver_ok; [|exact Hs]); try exact Hs; try exact I; exact Ht.
Qed.

Lemma canonical_empty_obj : canonical (JObj []).
Proof. split; [reflexivity|exact I]. Qed.

Lemma parse_step_ok (st : pstate) (t : token) (st' : pstate) :
  canonical_token t -> pstate_ok st -> parse_step st t = Some st' -> pstate_ok st'.
Proof.
  intros Ht Hst. destruct st; cbn [parse_step pstate_ok] in *.
  - apply parse_value_ok; assumption.
  - destruct t; try (apply parse_value_ok; [exact Ht|repeat constructor; exact Hst]).
    intros [= <-]. apply deliver_ok; [exact I|exact Hst].
  - destruct Hst as [Hi Hs]. destruct t; try discriminate; intros [= <-].
    + apply deliver_ok; [|exact Hs]. apply canonical_arr, Forall_rev. exact Hi.
    + cbn [pstate_ok]. constructor; [exact Hi|exact Hs].
  - destruct t; try discriminate; intros [= <-].
    + apply deliver_ok; [exact canonical_empty_obj|exact Hst].
    + split; [exact canonical_empty_obj|exact Hst].
  - destruct t; try discriminate; intros [= <-]. exact Hst.
  - destruct Hst as [Hm Hs]. destruct t; try discriminate; intros [= <-].
    cbn [pstate_ok]. constructor; [exact Hm|exact Hs].
  - destruct Hst as [Hm Hs]. destruct t; try discriminate; intros [= <-].
    + apply deliver_ok; assumption.
    + split; assumption.
  - discriminate.
Qed.

Lemma parse_run_ok (ts : list token) :
  forall st v, Forall canonical_token ts -> pstate_ok st -> parse_run st ts = Some v ->
    canonical v.
Proof.
  induction ts as [|t ts IH]; intros st v Hts Hst; cbn [parse_run].
  - destruct st; try discriminate. intros [= <-]. exact Hst.
  - inversion Hts as [|? ? Ht Hts']; subst.
    destruct (parse_step st t) as [st'|] eqn:Hstep; [|discriminate].
    apply IH; [exact Hts'|]. exact (parse_step_ok st t st' Ht Hst Hstep).
Qed.

(** What [JSON.parse] returns is canonical. *)
Lemma JSON_parse_canonical (text : jstr) (v : json) :
  JSON_parse text = Some v -> canonical v.
Proof.
  unfold JSON_parse. destruct (lex LDefault text) as [ts|] eqn:Hlex; [|discriminate].
  apply parse_run_ok; [|constructor].
  exact (lex_canonical text LDefault ts I Hlex).
Qed.

Local Close Scope N_scope.

(* ================================================================== *)
(** * Reading the log *)
(* ================================================================== *)

Lemma readFile_eq (st : state) :
  readFile st =
    (if read_ok st
     then match file st with Some text => Returned text | None => Returned [] end
     else Thrown (Error (if next_fault st then "EIO: read failed"
                         else "ENOENT: no such file or directory")),
     after_read (read_ok st) st).
Proof.
  unfold readFile, read_ok, after_read.
  destruct (next_fault st); simpl; [reflexivity|].
  destruct (file st); reflexivity.
Qed.

(** What [getTransactionHistory] returns, in one expression. *)
Lemma getTransactionHistory_eq (st : state) :
  getTransactionHistory st = (Returned (history st), after_read (read_ok st) st).
Proof.
  unfold getTransactionHistory, try_catch, bind, history, persisted, parse_or_throw.
  rewrite readFile_eq. unfold read_ok.
  destruct (next_fault st); simpl; [reflexivity|].
  destruct (file st) as [text|]; simpl; [|reflexivity].
  destruct (JSON_parse text); reflexivity.
Qed.

(** C7.  [getTransactionHistory] never raises: it always returns a
    value, and when the store cannot be read (the read fails, or the
    file is absent, empty or not JSON) that value is the empty
    sequence. *)
Theorem getTransactionHistory_never_raises (st : state) :
  (exists v st', getTransactionHistory st = (Returned v, st')) /\
  (unreadable st -> fst (getTransactionHistory st) = Returned (JArr [])).
Proof.
  rewrite getTransactionHistory_eq. split; [eauto|].
  unfold unreadable, history, persisted. simpl.
  intros [H|[H|[H|(text & H & Hp)]]]; rewrite H; try reflexivity.
  - destruct (next_fault st); reflexivity.
  - destruct (next_fault st); reflexivity.
  - rewrite Hp. destruct (next_fault st); reflexivity.
Qed.

(** C7 on an empty file. *)
Lemma getTransactionHistory_never_raises_witness :
  unreadable (disk []) /\
  fst (getTransactionHistory (disk [])) = Returned (JArr []).
Proof.
  assert (H : unreadable (disk [])) by (right; right; left; reflexivity).
  split; [exact H|].
  exact (proj2 (getTransactionHistory_never_raises (disk [])) H).
Defined.

(** C10.  [getTransactionHistory] does not look at the shape of what
    it parsed: when the file is read and its text is JSON, the parsed
    value is returned as it is, array or not; and a value other than
    the parsed one is returned only when the store cannot be read, and
    is then the empty sequence. *)
Theorem getTransactionHistory_no_shape_validation (st : state) :
  (forall text v,
      next_fault st = false -> file st = Some text -> JSON_parse text = Some v ->
      fst (getTransactionHistory st) = Returned v) /\
  (forall v,
      fst (getTransactionHistory st) = Returned v ->
      (exists text, next_fault st = false /\ file st = Some text /\
                    JSON_parse text = Some v) \/
      (v = JArr [] /\ unreadable st)).
Proof.
  rewrite getTransactionHistory_eq. unfold history, persisted, unreadable. simpl. split.
  - intros text v -> -> ->. reflexivity.
  - intros v H. destruct (next_fault st); [injection H as <-; auto|].
    destruct (file st) as [text|]; [|injection H as <-; auto].
    destruct (JSON_parse text) as [v'|] eqn:Hp; injection H as <-.
    + left. eauto.
    + right. split; [reflexivity|]. right. right. right. eauto.
Qed.

(** C10 on a file that holds a JSON object, not an array. *)
Lemma getTransactionHistory_no_shape_validation_witness :
  fst (getTransactionHistory (disk (js "{}"))) = Returned (JObj []).
Proof.
  exact (proj1 (getTransactionHistory_no_shape_validation (disk (js "{}")))
           (js "{}") (JObj []) eq_refl eq_refl eq_refl).
Defined.

(* ================================================================== *)
(** * The two functions that write the log *)
(* ================================================================== *)






(** The state has the shape that [swallowed] asks for. *)
Lemma swallowed_intro (st : state) (f : option jstr) (fl : list bool)
    (evs : list fs_event) (ls : list errline) :
  failed_writes evs = write_error_lines ls ->
  Forall (fun l => In (label l) log_labels) ls ->
  swallowed st (mkState f fl (calls st) (io st ++ evs) (console st ++ ls)).
Proof. intros Hn Hl. split; [reflexivity|]. exists evs, ls. auto. Qed.

Ltac swallow :=
  unfold after_read; cbn [io console calls file faults];
  rewrite <- ?app_assoc;
  first
    [ apply swallowed_intro
    | rewrite <- (app_nil_r (console _)); apply swallowed_intro ];
  [ reflexivity | repeat (apply Forall_cons || apply Forall_nil); cbn; auto ].

(** When [findIndex] throws, it is on a [null] entry. *)
Lemma findIndex_from_thrown (txId : jstr) (l : list json) :
  forall i e, findIndex_from (id_is txId) l i = Thrown e ->
              message e = "TypeError: Cannot read properties of null (reading 'id')".
Proof.
  induction l as [|x l IH]; intros i e; simpl; [discriminate|].
  destruct x; simpl; try apply IH.
  - intros [= <-]. reflexivity.
  - destruct (match obj_get (js "id") l0 with Some (JStr s) => jstr_eqb s txId | _ => false end);
      [discriminate|apply IH].
Qed.

(** [logTransaction] never throws and sends nothing; a write that
    failed is on the console. *)
Lemma logTransaction_swallowed (tx : json) (st : state) :
  exists st', logTransaction tx st = (Returned tt, st') /\ swallowed st st'.
Proof.
  unfold logTransaction, try_catch, bind. rewrite getTransactionHistory_eq.
  destruct (history st) as [|b|x|s|l|o]; cbn [push throw ret console_error message];
    try (eexists; split; [reflexivity|swallow]).
  unfold writeFile. destruct (next_fault (after_read (read_ok st) st));
    cbn [console_error message]; eexists; (split; [reflexivity|swallow]).
Qed.

(** The same for [updateTransactionStatus]. *)
Lemma updateTransactionStatus_swallowed (txId s : jstr) (st : state) :
  exists st', updateTransactionStatus txId s st = (Returned tt, st') /\ swallowed st st'.
Proof.
  unfold updateTransactionStatus, try_catch, bind. rewrite getTransactionHistory_eq.
  destruct (history st) as [|b|x|t|l|o]; cbn [findIndex throw ret lift console_error message];
    try (eexists; split; [reflexivity|swallow]).
  unfold lift.
  destruct (findIndex_from (id_is txId) l 0) as [i|e] eqn:Hi.
  2:{ apply findIndex_from_thrown in Hi. unfold console_error. rewrite Hi.
      eexists; split; [reflexivity|swallow]. }
  destruct (negb (i =? -1)%Z); cbn [ret]; [|eexists; split; [reflexivity|swallow]].
  unfold set_status.
  destruct (nth_error l (Z.to_nat i)) as [[|b|x|t|l'|o]|];
    cbn [throw ret console_error message];
    try (eexists; split; [reflexivity|swallow]);
    unfold writeFile; destruct (next_fault (after_read (read_ok st) st));
    cbn [console_error message]; eexists; (split; [reflexivity|swallow]).
Qed.

Lemma logTransaction_returns (tx : json) (st : state) :
  logTransaction tx st = (Returned tt, snd (logTransaction tx st)).
Proof. destruct (logTransaction_swallowed tx st) as (st' & -> & _). reflexivity. Qed.

Lemma updateTransactionStatus_returns (txId s : jstr) (st : state) :
  updateTransactionStatus txId s st = (Returned tt, snd (updateTransactionStatus txId s st)).
Proof. destruct (updateTransactionStatus_swallowed txId s st) as (st' & -> & _). reflexivity. Qed.

Lemma logTransaction_snd (tx : json) (st : state) :
  swallowed st (snd (logTransaction tx st)).
Proof. destruct (logTransaction_swallowed tx st) as (st' & -> & H). exact H. Qed.

Lemma updateTransactionStatus_snd (txId s : jstr) (st : state) :
  swallowed st (snd (updateTransactionStatus txId s st)).
Proof. destruct (updateTransactionStatus_swallowed txId s st) as (st' & -> & H). exact H. Qed.

(* ================================================================== *)
(** * [sendMonad] *)
(* ================================================================== *)

Lemma submissions_app (a b : list rpc) :
  submissions (a ++ b) = submissions a + submissions b.
Proof. unfold submissions. rewrite filter_app, length_app. reflexivity. Qed.

Section Funds.

Variable W : World.
Variables (senderKey recipient amount account : jstr) (gp bal wei : Z).
Hypothesis Hacc : privateKeyToAccount W senderKey = Returned account.
Hypothesis Hgas : node_gasPrice W = Returned gp.
Hypothesis Hbal : node_balance W account = Returned bal.
Hypothesis Hwei : parseEther W amount = Returned wei.

(** The balance is short: two requests, then the error. *)
Lemma sendMonad_short (st : state) :
  (bal <? wei + gp * GAS_LIMIT)%Z = true ->
  sendMonad W senderKey recipient amount st =
    (Thrown InsufficientFundsError, sent (GetBalance account) (sent GetGasPrice st)).
Proof.
  intro Hlt. unfold sendMonad, try_catch, bind, lift, remote, throw.
  rewrite Hacc, Hgas, Hbal, Hwei, Hlt. reflexivity.
Qed.

(** The balance covers the total: the transfer is submitted, and
    what follows depends on the node only. *)
Lemma sendMonad_funded (st : state) :
  (bal <? wei + gp * GAS_LIMIT)%Z = false ->
  sendMonad W senderKey recipient amount st =
    let st3 := sent (SendTransaction account recipient wei GAS_LIMIT)
                 (sent (GetBalance account) (sent GetGasPrice st)) in
    match node_send W account recipient wei GAS_LIMIT with
    | Thrown e => (Thrown (wrap e), st3)
    | Returned hash =>
        let st4 := snd (logTransaction
                          (tx_object (mkTx hash (Date_now W) account recipient amount pending))
                          st3) in
        let st5 := sent (WaitForTransactionReceipt hash) st4 in
        match node_receipt W hash with
        | Thrown e => (Thrown (wrap e), st5)
        | Returned receipt_status =>
            (Returned hash,
             snd (updateTransactionStatus hash
                    (if truthy receipt_status then confirmed else failed) st5))
        end
    end.
Proof.
  intro Hge. unfold sendMonad, try_catch, bind, lift, remote, throw.
  rewrite Hacc, Hgas, Hbal, Hwei, Hge.
  destruct (node_send W account recipient wei GAS_LIMIT) as [hash|e]; [|reflexivity].
  rewrite logTransaction_returns.
  destruct (node_receipt W hash) as [rs|e]; [|reflexivity].
  rewrite updateTransactionStatus_returns. reflexivity.
Qed.

(** And exactly one transfer has been submitted when it returns or
    throws. *)
Lemma sendMonad_funded_submits (st : state) :
  (bal <? wei + gp * GAS_LIMIT)%Z = false ->
  submissions (calls (snd (sendMonad W senderKey recipient amount st)))
    = S (submissions (calls st)).
Proof.
  intro Hge. rewrite (sendMonad_funded st Hge). cbv zeta.
  destruct (node_send W account recipient wei GAS_LIMIT) as [hash|e].
  - destruct (node_receipt W hash) as [rs|e]; cbn [snd];
      try rewrite (proj1 (updateTransactionStatus_snd _ _ _));
      cbn [sent calls];
      rewrite (proj1 (logTransaction_snd _ _));
      cbn [sent calls]; rewrite !submissions_app;
      set (n := submissions (calls st)); cbn; lia.
  - cbn [snd sent calls]. rewrite !submissions_app.
    set (n := submissions (calls st)). cbn. lia.
Qed.

End Funds.

(** C2.  When the node has answered with the gas price and the
    balance and the amount converts to [wei]: [sendMonad] throws the
    insufficient-funds error without having submitted anything if and
    only if [balance < wei + gasPrice * 21000]; otherwise, also when
    the balance equals that total, exactly one transfer is submitted. *)
Theorem insufficient_funds_iff
    (W : World) (senderKey recipient amount account : jstr) (gp bal wei : Z)
    (st : state) :
  privateKeyToAccount W senderKey = Returned account ->
  node_gasPrice W = Returned gp ->
  node_balance W account = Returned bal ->
  parseEther W amount = Returned wei ->
  ((fst (sendMonad W senderKey recipient amount st) = Thrown InsufficientFundsError /\
    submissions (calls (snd (sendMonad W senderKey recipient amount st)))
      = submissions (calls st))
   <-> (bal < wei + gp * 21000)%Z) /\
  ((wei + gp * 21000 <= bal)%Z ->
   submissions (calls (snd (sendMonad W senderKey recipient amount st)))
     = S (submissions (calls st))).
Proof.
  intros Hacc Hgas Hbal Hwei.
  destruct (bal <? wei + gp * GAS_LIMIT)%Z eqn:Hcmp.
  - rewrite (sendMonad_short W _ recipient _ _ _ _ _ Hacc Hgas Hbal Hwei st Hcmp).
    apply Z.ltb_lt in Hcmp. unfold GAS_LIMIT in Hcmp.
    split; [|lia]. split; [intros _; exact Hcmp|]. intros _. split; [reflexivity|].
    cbn [snd sent calls]. rewrite !submissions_app.
    set (n := submissions (calls st)). cbn. lia.
  - pose proof (sendMonad_funded_submits W _ recipient _ _ _ _ _
                  Hacc Hgas Hbal Hwei st Hcmp) as Hsub.
    apply Z.ltb_ge in Hcmp. unfold GAS_LIMIT in Hcmp.
    split; [|intros _; exact Hsub].
    split; [|lia]. intros [_ H]. rewrite Hsub in H. lia.
Qed.

(** C2 at the boundary: with the gas price at 2 and 1500 wei to send
    the total is 43500, and a balance of 43500 is enough. *)
Lemma insufficient_funds_iff_witness :
  ((fst (sendMonad (sample_world 43500 (js "success")) sample_key sample_to (js "1.5") empty_disk)
      = Thrown InsufficientFundsError /\
    submissions (calls (snd (sendMonad (sample_world 43500 (js "success"))
                               sample_key sample_to (js "1.5") empty_disk)))
      = submissions (calls empty_disk))
   <-> (43500 < 1500 + 2 * 21000)%Z) /\
  ((1500 + 2 * 21000 <= 43500)%Z ->
   submissions (calls (snd (sendMonad (sample_world 43500 (js "success"))
                              sample_key sample_to (js "1.5") empty_disk)))
     = S (submissions (calls empty_disk))).
Proof.
  exact (insufficient_funds_iff (sample_world 43500 (js "success"))
           sample_key sample_to (js "1.5") sample_account 2 43500 1500 empty_disk
           eq_refl eq_refl eq_refl eq_refl).
Defined.



(* ================================================================== *)
(** * Updating an id that the log does not hold *)
(* ================================================================== *)

Lemma id_is_true (txId : jstr) (x : json) :
  id_is txId x = Returned true <-> entry_id x = Some txId.
Proof.
  destruct x as [|b|n|s|l|o]; simpl; try (split; discriminate).
  destruct (obj_get (js "id") o) as [[|b|n|s|l|o']|]; try (split; discriminate).
  split.
  - intros [= H]. apply jstr_eqb_eq in H. congruence.
  - intros [= ->]. rewrite jstr_eqb_refl. reflexivity.
Qed.

Lemma findIndex_from_absent (txId : jstr) (l : list json) :
  (forall x, In x l -> entry_id x <> Some txId) ->
  forall i, findIndex_from (id_is txId) l i = Returned (-1)%Z \/
            exists e, findIndex_from (id_is txId) l i = Thrown e.
Proof.
  induction l as [|x l IH]; intros Habs i; simpl; [auto|].
  destruct (id_is txId x) as [[|]|e] eqn:Hx.
  - apply id_is_true in Hx. exfalso. apply (Habs x); [left; reflexivity|exact Hx].
  - apply IH. intros y Hy. apply Habs. right. exact Hy.
  - eauto.
Qed.

(** The history is the persisted value or the empty sequence. *)
Lemma history_cases (st : state) :
  history st = JArr [] \/ persisted st = Some (history st).
Proof.
  unfold history. destruct (next_fault st); [auto|].
  destruct (persisted st); auto.
Qed.

(** C5.  When no entry of the persisted log has the id,
    [updateTransactionStatus] returns without writing: the only file
    operation is its read, and the file is what it was. *)
Theorem updateTransactionStatus_absent_id (txId s : jstr) (st : state) :
  absent txId st ->
  exists st',
    updateTransactionStatus txId s st = (Returned tt, st') /\
    io st' = io st ++ [FsRead (read_ok st)] /\
    file st' = file st.
Proof.
  intro Habs.
  unfold updateTransactionStatus, try_catch, bind. rewrite getTransactionHistory_eq.
  destruct (history st) as [|b|x|t|l|o] eqn:Hh;
    cbn [findIndex throw ret lift console_error message];
    try (eexists; split; [reflexivity|split; reflexivity]).
  assert (Hl : forall x, In x l -> entry_id x <> Some txId).
  { destruct (history_cases st) as [H|H]; rewrite Hh in H.
    - injection H as ->. intros x [].
    - intros x Hx. exact (Habs l x H Hx). }
  unfold lift.
  destruct (findIndex_from_absent txId l Hl 0) as [-> | [e ->]];
    eexists; (split; [reflexivity|split; reflexivity]).
Qed.

(** C5 on a log of one confirmed record, asked for another id. *)
Lemma updateTransactionStatus_absent_id_witness :
  let st := disk (JSON_stringify
                    (JArr [tx_object (mkTx sample_hash 1700000000000 sample_account
                                        sample_to (js "1.5") confirmed)])) in
  exists st',
    updateTransactionStatus (js "0xbeef") failed st = (Returned tt, st') /\
    io st' = io st ++ [FsRead (read_ok st)] /\
    file st' = file st.
Proof.
  intro st. apply (updateTransactionStatus_absent_id (js "0xbeef") failed st).
  intros l x Hp Hx. vm_compute in Hp. injection Hp as <-.
  destruct Hx as [<-|[]]. vm_compute. discriminate.
Defined.

(* ================================================================== *)
(** * The log through a transfer *)
(* ================================================================== *)

Lemma tl_skipn {A : Type} (k : nat) : forall l : list A, tl (skipn k l) = skipn (S k) l.
Proof.
  induction k as [|k IH]; intro l.
  - destruct l; reflexivity.
  - destruct l as [|a l]; [reflexivity|]. apply IH.
Qed.

Lemma iter_tl_skipn {A : Type} (k : nat) (l : list A) : Nat.iter k (@tl A) l = skipn k l.
Proof.
  induction k as [|k IH]; [reflexivity|].
  cbn [Nat.iter nat_rect]. change (Nat.iter k (@tl A) l = skipn k l) in IH.
  unfold Nat.iter in IH. rewrite IH. apply tl_skipn.
Qed.

Lemma no_fault_skipn (k : nat) : forall n fl,
  Forall (fun b => b = false) (firstn n fl) -> (k < n)%nat -> hd false (skipn k fl) = false.
Proof.
  induction k as [|k IH]; intros [|n] [|b fl] H Hlt; try lia; try reflexivity.
  - cbn [firstn] in H. inversion H. assumption.
  - cbn [firstn skipn] in *. inversion H; subst. apply (IH n); [assumption|lia].
Qed.

(** The operation after [k] others is not failed. *)
Lemma no_fault_at (k n : nat) (st st' : state) :
  no_fault n st -> (k < n)%nat -> faults st' = Nat.iter k (@tl bool) (faults st) ->
  next_fault st' = false.
Proof.
  intros H Hlt Hf. unfold next_fault. rewrite Hf, iter_tl_skipn.
  exact (no_fault_skipn k n _ H Hlt).
Qed.

(** The history of a store that can be read. *)
Lemma history_readable (st : state) (text : jstr) (v : json) :
  next_fault st = false -> file st = Some text -> JSON_parse text = Some v ->
  history st = v.
Proof. unfold history, persisted. intros -> -> ->. reflexivity. Qed.

(** [logTransaction] on a log that reads as an array. *)
Lemma logTransaction_on_array (tx : json) (st : state) (l : list json) :
  history st = JArr l ->
  logTransaction tx st =
    (Returned tt,
     after_write (negb (hd false (tl (faults st)))) (JSON_stringify (JArr (l ++ [tx])))
       "Failed to log transaction:" st).
Proof.
  intros Hh. unfold logTransaction, try_catch, bind.
  rewrite getTransactionHistory_eq, Hh. cbn [push ret]. unfold writeFile, next_fault, after_write.
  cbn [after_read file faults calls io console].
  destruct (hd false (tl (faults st))); cbn [negb console_error message];
    unfold console_error; cbn [file faults calls io console message];
    rewrite <- app_assoc; reflexivity.
Qed.

Lemma logTransaction_appends (tx : json) (st : state) (l : list json) :
  history st = JArr l -> no_fault 2 st ->
  logTransaction tx st =
    (Returned tt,
     mkState (Some (JSON_stringify (JArr (l ++ [tx])))) (tl (tl (faults st)))
       (calls st) (io st ++ [FsRead (read_ok st); FsWrite true]) (console st)).
Proof.
  intros Hh Hf. rewrite (logTransaction_on_array tx st l Hh).
  change (hd false (tl (faults st))) with (next_fault (after_read (read_ok st) st)).
  rewrite (no_fault_at 1 2 st (after_read (read_ok st) st) Hf ltac:(lia) eq_refl).
  reflexivity.
Qed.

Lemma findIndex_from_found (txId : jstr) (l1 l2 : list json) (x : json) :
  fresh txId l1 -> id_is txId x = Returned true ->
  forall i, findIndex_from (id_is txId) (l1 ++ x :: l2) i = Returned (i + Z.of_nat (List.length l1))%Z.
Proof.
  intros Hf Hx. induction Hf as [|y l1 Hy _ IH]; intro i; cbn [app findIndex_from List.length].
  - rewrite Hx. f_equal. cbn. lia.
  - rewrite Hy, IH. f_equal. lia.
Qed.

Lemma update_nth_app (f : json -> json) (l1 l2 : list json) (x : json) :
  update_nth (List.length l1) f (l1 ++ x :: l2) = l1 ++ f x :: l2.
Proof. induction l1 as [|y l1 IH]; cbn [List.length app update_nth]; [|rewrite IH]; reflexivity. Qed.

Lemma entry_of_id (txId : jstr) (x : json) :
  id_is txId x = Returned true -> exists o, x = JObj o.
Proof. destruct x; try discriminate. eauto. Qed.

(** [updateTransactionStatus] on a log whose first entry with the id is [x]. *)
Lemma updateTransactionStatus_on_entry
    (txId s : jstr) (st : state) (l1 l2 : list json) (x : json) :
  history st = JArr (l1 ++ x :: l2) -> fresh txId l1 -> id_is txId x = Returned true ->
  updateTransactionStatus txId s st =
    (Returned tt,
     after_write (negb (hd false (tl (faults st))))
       (JSON_stringify (JArr (l1 ++ with_status s x :: l2)))
       "Failed to update transaction status:" st).
Proof.
  intros Hh Hfr Hx. destruct (entry_of_id txId x Hx) as [o ->].
  unfold updateTransactionStatus, try_catch, bind.
  rewrite getTransactionHistory_eq, Hh. cbn [findIndex lift].
  rewrite (findIndex_from_found txId l1 l2 (JObj o) Hfr Hx 0).
  replace (0 + Z.of_nat (List.length l1))%Z with (Z.of_nat (List.length l1)) by lia.
  replace (negb (Z.of_nat (List.length l1) =? -1)%Z) with true
    by (symmetry; apply negb_true_iff, Z.eqb_neq; lia).
  unfold set_status. rewrite Nat2Z.id, nth_error_app2, Nat.sub_diag by lia.
  cbn [nth_error ret]. rewrite update_nth_app. unfold writeFile, next_fault, after_write.
  cbn [after_read file faults calls io console with_status].
  destruct (hd false (tl (faults st))); cbn [negb console_error message];
    unfold console_error; cbn [file faults calls io console message];
    rewrite <- app_assoc; reflexivity.
Qed.

Lemma updateTransactionStatus_found (txId s : jstr) (st : state) (l1 l2 : list json) (x : json) :
  history st = JArr (l1 ++ x :: l2) -> fresh txId l1 -> id_is txId x = Returned true ->
  no_fault 2 st ->
  updateTransactionStatus txId s st =
    (Returned tt,
     mkState (Some (JSON_stringify (JArr (l1 ++ with_status s x :: l2)))) (tl (tl (faults st)))
       (calls st) (io st ++ [FsRead (read_ok st); FsWrite true]) (console st)).
Proof.
  intros Hh Hfr Hx Hf. rewrite (updateTransactionStatus_on_entry txId s st l1 l2 x Hh Hfr Hx).
  change (hd false (tl (faults st))) with (next_fault (after_read (read_ok st) st)).
  rewrite (no_fault_at 1 2 st (after_read (read_ok st) st) Hf ltac:(lia) eq_refl).
  reflexivity.
Qed.

Lemma canonical_tx_object (tx : MonadTransaction) : canonical (tx_object tx).
Proof.
  unfold tx_object. apply canonical_obj. split; [reflexivity|].
  repeat constructor.
Qed.

Lemma history_written (st : state) (v : json) :
  canonical v -> file st = Some (JSON_stringify v) -> next_fault st = false ->
  history st = v.
Proof.
  intros Hc Hf Hn. apply (history_readable st _ v Hn Hf). apply JSON_roundtrip. exact Hc.
Qed.

Lemma no_fault_next (n : nat) (st : state) : no_fault (S n) st -> next_fault st = false.
Proof. intro H. apply (no_fault_at 0 (S n) st); [exact H|lia|reflexivity]. Qed.

Lemma no_fault_le (n m : nat) (st : state) :
  no_fault n st -> (m <= n)%nat -> no_fault m st.
Proof.
  unfold no_fault. generalize (faults st) as fl. revert n.
  induction m as [|m IH]; intros n fl H Hle; [constructor|].
  destruct n as [|n]; [lia|]. destruct fl as [|b fl]; [constructor|].
  cbn [firstn] in *. apply Forall_cons_iff in H as [Hb H].
  constructor; [exact Hb|]. apply (IH n); [exact H|lia].
Qed.

(** What is read from the log went through [JSON.parse]. *)
Lemma persisted_canonical (st : state) (v : json) : persisted st = Some v -> canonical v.
Proof.
  unfold persisted. destruct (file st) as [text|]; [|discriminate].
  apply JSON_parse_canonical.
Qed.

Lemma history_canonical (st : state) (l : list json) :
  history st = JArr l -> Forall canonical l.
Proof.
  intro Hh. apply canonical_arr. rewrite <- Hh. unfold history.
  destruct (next_fault st); [exact I|].
  destruct (persisted st) as [v|] eqn:Hp; [|exact I].
  exact (persisted_canonical st v Hp).
Qed.

(** C6.  When the log reads as the sequence [l], its numbers and
    those of the record are safe integers and no file operation
    fails, [logTransaction tx] followed by
    [getTransactionHistory] returns [l] with [tx] at the end: the order
    and every value are those that were written. *)
Theorem append_then_read (tx : json) (st : state) (l : list json) :
  history st = JArr l -> Forall safe_json l ->
  canonical tx -> safe_json tx -> no_fault 3 st ->
  exists st1 st2,
    logTransaction tx st = (Returned tt, st1) /\
    getTransactionHistory st1 = (Returned (JArr (l ++ [tx])), st2).
Proof.
  intros Hh _ Htx _ Hf. pose proof (history_canonical st l Hh) as Hl.
  rewrite (logTransaction_appends tx st l Hh (no_fault_le 3 2 st Hf ltac:(lia))).
  eexists _, _. split; [reflexivity|].
  rewrite getTransactionHistory_eq, (history_written _ (JArr (l ++ [tx]))).
  - reflexivity.
  - apply canonical_arr, Forall_app. split; [exact Hl|]. constructor; [exact Htx|constructor].
  - reflexivity.
  - apply (no_fault_at 2 3 st); [exact Hf|lia|reflexivity].
Qed.

(** C6 on a log of one record. *)
Lemma append_then_read_witness :
  exists st1 st2,
    logTransaction (tx_object (mkTx sample_hash 1700000000000 sample_account sample_to
                                 (js "1.5") pending)) sample_log
      = (Returned tt, st1) /\
    getTransactionHistory st1 =
      (Returned (JArr ([sample_old] ++
                       [tx_object (mkTx sample_hash 1700000000000 sample_account sample_to
                                     (js "1.5") pending)])), st2).
Proof.
  apply (append_then_read _ sample_log [sample_old]).
  - vm_compute. reflexivity.
  - repeat constructor.
  - repeat constructor.
  - repeat constructor.
  - vm_compute. constructor.
Defined.

Lemma id_is_tx_object (tx : MonadTransaction) : id_is (id tx) (tx_object tx) = Returned true.
Proof. cbn. rewrite jstr_eqb_refl. reflexivity. Qed.

Lemma with_status_tx_object (s : jstr) (tx : MonadTransaction) :
  with_status s (tx_object tx) =
    tx_object (mkTx (id tx) (timestamp tx) (sender tx) (recipient tx) (amount tx) s).
Proof. reflexivity. Qed.


Section Ledger.

Variable W : World.
Variables (senderKey toAddress amountText account hash receipt : jstr) (gp bal wei : Z).
Hypothesis Hacc : privateKeyToAccount W senderKey = Returned account.
Hypothesis Hgas : node_gasPrice W = Returned gp.
Hypothesis Hbal : node_balance W account = Returned bal.
Hypothesis Hwei : parseEther W amountText = Returned wei.
Hypothesis Hfunds : (wei + gp * 21000 <= bal)%Z.
Hypothesis Hsend : node_send W account toAddress wei 21000 = Returned hash.
Hypothesis Hrec : node_receipt W hash = Returned receipt.

(** When nothing fails, the transfer ends with its record at the end of
    the log, in the status that the receipt decides. *)
Lemma sendMonad_persists (st : state) (l : list json) :
  history st = JArr l -> Forall canonical l -> fresh hash l -> no_fault 4 st ->
  sendMonad W senderKey toAddress amountText st =
    (Returned hash,
     mkState
       (Some (JSON_stringify
                (JArr (l ++ [transfer_record W hash account toAddress amountText (if truthy receipt then confirmed else failed)]))))
       (tl (tl (tl (tl (faults st)))))
       (calls st ++ [GetGasPrice; GetBalance account;
                     SendTransaction account toAddress wei GAS_LIMIT;
                     WaitForTransactionReceipt hash])
       (io st ++ [FsRead (read_ok st); FsWrite true; FsRead true; FsWrite true])
       (console st)).
Proof.
  intros Hh Hl Hfr Hf.
  assert (Hcmp : (bal <? wei + gp * GAS_LIMIT)%Z = false) by (apply Z.ltb_ge; exact Hfunds).
  rewrite (sendMonad_funded W _ toAddress _ _ _ _ _ Hacc Hgas Hbal Hwei st Hcmp).
  cbv zeta. change GAS_LIMIT with 21000%Z. rewrite Hsend, Hrec.
  set (st3 := sent _ (sent _ (sent _ st))).
  assert (Hh3 : history st3 = JArr l) by exact Hh.
  assert (Hf3 : no_fault 4 st3) by exact Hf.
  rewrite (logTransaction_appends _ st3 l Hh3 (no_fault_le 4 2 st3 Hf3 ltac:(lia))).
  cbn [snd]. set (st5 := sent _ _).
  assert (Hh5 : history st5 = JArr (l ++ [transfer_record W hash account toAddress amountText pending])).
  { apply history_written.
    - apply canonical_arr, Forall_app. split; [exact Hl|].
      constructor; [apply canonical_tx_object|constructor].
    - reflexivity.
    - apply (no_fault_at 2 4 st); [exact Hf|lia|reflexivity]. }
  assert (Hf5 : no_fault 2 st5).
  { unfold no_fault in *. cbn [st5 sent faults st3] in *.
    change (tl (tl (faults st))) with (Nat.iter 2 (@tl bool) (faults st)).
    rewrite iter_tl_skipn. rewrite <- (firstn_skipn 2 (faults st)) in Hf.
    destruct (faults st) as [|a [|b r]]; try constructor.
    cbn [firstn skipn app] in *. 
    apply Forall_cons_iff in Hf as [_ Hf]. apply Forall_cons_iff in Hf as [_ Hf].
    exact Hf. }
  assert (Hr5 : read_ok st5 = true).
  { unfold read_ok. rewrite (no_fault_next 1 st5 Hf5). reflexivity. }
  rewrite (updateTransactionStatus_found hash _ st5 l [] (transfer_record W hash account toAddress amountText pending) Hh5 Hfr
             (id_is_tx_object _) Hf5).
  cbn [snd]. rewrite Hr5. unfold transfer_record at 1. rewrite with_status_tx_object.
  cbn [st5 st3 sent file faults calls io console id timestamp sender
       recipient amount].
  rewrite <- !app_assoc. reflexivity.
Qed.


(** C1.  When the receipt of the transfer has the status ['reverted']
    and nothing fails on the log, [sendMonad] returns the hash, and the
    status that it stores for the record is [confirmed]: the string
    ['reverted'] is truthy, so [receipt.status ? 'confirmed' : 'failed']
    never takes its second branch on a receipt of [viem]. *)
Theorem reverted_transfer_is_stored_confirmed (st : state) (l : list json) :
  receipt = js "reverted" ->
  history st = JArr l -> fresh hash l -> no_fault 4 st ->
  exists st',
    sendMonad W senderKey toAddress amountText st = (Returned hash, st') /\
    persisted st' =
      Some (JArr (l ++ [transfer_record W hash account toAddress amountText confirmed])).
Proof.
  intros Hrev Hh Hfr Hf. pose proof (history_canonical st l Hh) as Hl.
  rewrite (sendMonad_persists st l Hh Hl Hfr Hf). subst receipt.
  eexists. split; [reflexivity|]. unfold persisted. cbn [file truthy js map list_ascii_of_string].
  apply JSON_roundtrip, canonical_arr, Forall_app. split; [exact Hl|].
  constructor; [apply canonical_tx_object|constructor].
Qed.

End Ledger.


(** The ids of the log matter as well: when the log already holds a
    record with the hash that the node returns, the transfer appends a
    second record with it, the status update goes to the first one, and
    the record of the transfer stays [pending]. *)
Lemma transfer_with_a_logged_hash_leaves_two_records :
  exists st' st'' x y,
    sendMonad (sample_world 43500 (js "success")) sample_key sample_to (js "1.5")
      same_hash_log = (Returned sample_hash, st') /\
    io st' = [FsRead true; FsWrite true; FsRead true; FsWrite true] /\
    getTransactionHistory st' = (Returned (JArr [x; y]), st'') /\
    filter (with_id sample_hash) [x; y] = [x; y] /\
    entry_status y = Some pending.
Proof.
  assert (Hs : sendMonad (sample_world 43500 (js "success")) sample_key sample_to (js "1.5")
                 same_hash_log =
               (Returned sample_hash,
                snd (sendMonad (sample_world 43500 (js "success")) sample_key sample_to
                       (js "1.5") same_hash_log))).
  { vm_compute. reflexivity. }
  rewrite Hs. clear Hs.
  set (st' := snd _).
  assert (Hh : getTransactionHistory st' =
               (Returned (JArr [with_status confirmed sample_same;
                                transfer_record (sample_world 43500 (js "success")) sample_hash
                                  sample_account sample_to (js "1.5") pending]),
                snd (getTransactionHistory st'))).
  { vm_compute. reflexivity. }
  eexists st', _, _, _. split; [reflexivity|]. split; [vm_compute; reflexivity|].
  split; [exact Hh|]. split; reflexivity.
Qed.


(** C1 on a log of one record: the reverted transfer is stored as
    confirmed. *)
Lemma reverted_transfer_is_stored_confirmed_witness :
  exists st',
    sendMonad (sample_world 43500 (js "reverted")) sample_key sample_to (js "1.5") sample_log
      = (Returned sample_hash, st') /\
    persisted st' =
      Some (JArr ([sample_old] ++
                  [transfer_record (sample_world 43500 (js "reverted")) sample_hash
                     sample_account sample_to (js "1.5") confirmed])).
Proof.
  apply (reverted_transfer_is_stored_confirmed (sample_world 43500 (js "reverted"))
           sample_key sample_to (js "1.5") sample_account sample_hash (js "reverted")
           2 43500 1500).
  - reflexivity.
  - reflexivity.
  - reflexivity.
  - reflexivity.
  - vm_compute. discriminate.
  - reflexivity.
  - reflexivity.
  - reflexivity.
  - vm_compute. reflexivity.
  - repeat constructor.
  - vm_compute. constructor.
Defined.

(* ================================================================== *)
(** * Records are kept *)
(* ================================================================== *)

Lemma same_record_refl (x : json) : same_record x x.
Proof. exists []. reflexivity. Qed.

Lemma same_record_trans (x y z : json) : same_record x y -> same_record y z -> same_record x z.
Proof. intros [a ->] [b ->]. exists (a ++ b). rewrite fold_left_app. reflexivity. Qed.

Lemma same_record_status (s : jstr) (x : json) : same_record x (with_status s x).
Proof. exists [s]. reflexivity. Qed.

Lemma findIndex_from_returned (txId : jstr) (l : list json) :
  forall i j, findIndex_from (id_is txId) l i = Returned j ->
    j = (-1)%Z \/
    exists l1 x l2, l = l1 ++ x :: l2 /\ fresh txId l1 /\ id_is txId x = Returned true.
Proof.
  induction l as [|y l IH]; intros i j; cbn [findIndex_from]; [intros [= <-]; auto|].
  destruct (id_is txId y) as [[|]|e] eqn:Hy; [|intro H|discriminate].
  - intros _. right. exists [], y, l. repeat split; [apply Forall_nil|exact Hy].
  - destruct (IH _ _ H) as [->|(l1 & x & l2 & -> & Hfr & Hx)]; [auto|].
    right. exists (y :: l1), x, l2.
    split; [reflexivity|]. split; [apply Forall_cons; [exact Hy|exact Hfr]|exact Hx].
Qed.

Lemma canonical_with_status (s : jstr) (x : json) : canonical x -> canonical (with_status s x).
Proof.
  destruct x as [|b|n|t|l|o]; try (intro H; exact H). intro H.
  apply canonical_obj in H as [Hk Hv]. cbn [with_status]. apply canonical_obj. split.
  - apply keys_ok_define; [reflexivity|exact Hk].
  - unfold obj_define. destruct (obj_replace (js "status") (JStr s) o) as [o'|] eqn:Hr.
    + apply (obj_replace_values canonical (js "status") (JStr s) o I Hv o' Hr).
    + change (array_index (js "status")) with (@None N).
      apply Forall_app. split; [exact Hv|]. repeat constructor.
Qed.

(** The first thing each operation does is to read the log. *)
Lemma run_op_reads (op : ledger_op) (st : state) :
  exists rest, io (run_op op st) = io st ++ FsRead (read_ok st) :: rest.
Proof.
  destruct op as [tx|txId s|]; cbn [run_op].
  - unfold logTransaction, try_catch, bind. rewrite getTransactionHistory_eq.
    destruct (history st) as [|b|x|t|l|o] eqn:Hh;
      cbn [push throw ret console_error message snd io after_read];
      try (eexists; reflexivity).
    unfold writeFile. destruct (next_fault (after_read (read_ok st) st));
      cbn [console_error snd io after_read]; rewrite <- app_assoc; eexists; reflexivity.
  - unfold updateTransactionStatus, try_catch, bind. rewrite getTransactionHistory_eq.
    destruct (history st) as [|b|x|t|l|o] eqn:Hh;
      cbn [findIndex lift throw ret console_error message snd io after_read];
      try (eexists; reflexivity).
    unfold lift. destruct (findIndex_from (id_is txId) l 0) as [i|e];
      [|cbn [console_error snd io after_read]; eexists; reflexivity].
    destruct (negb (i =? -1)%Z); cbn [ret snd io after_read]; [|eexists; reflexivity].
    unfold set_status.
    destruct (nth_error l (Z.to_nat i)) as [[|b|x|t|l'|o]|];
      cbn [throw ret console_error message snd io after_read];
      try (eexists; reflexivity);
      unfold writeFile; destruct (next_fault (after_read (read_ok st) st));
      cbn [console_error snd io after_read]; rewrite <- app_assoc; eexists; reflexivity.
  - rewrite getTransactionHistory_eq. eexists. reflexivity.
Qed.

(** Without an entry to update, [updateTransactionStatus] leaves the file. *)
Lemma updateTransactionStatus_no_match (txId s : jstr) (st : state) (l : list json) :
  history st = JArr l ->
  findIndex_from (id_is txId) l 0 = Returned (-1)%Z \/
  (exists e, findIndex_from (id_is txId) l 0 = Thrown e) ->
  file (snd (updateTransactionStatus txId s st)) = file st.
Proof.
  intros Hh Hno. unfold updateTransactionStatus, try_catch, bind.
  rewrite getTransactionHistory_eq, Hh. cbn [findIndex]. unfold lift.
  destruct Hno as [-> | [e ->]]; reflexivity.
Qed.

Lemma history_persisted (st : state) (v : json) :
  read_ok st = true -> persisted st = Some v -> history st = v.
Proof.
  unfold read_ok, history. intros Hr ->.
  destruct (next_fault st); [discriminate|reflexivity].
Qed.

Lemma run_ops_io (ops : list ledger_op) :
  forall st, exists evs, io (run_ops ops st) = io st ++ evs.
Proof.
  induction ops as [|op ops IH]; intro st; cbn [run_ops fold_left].
  - exists []. rewrite app_nil_r. reflexivity.
  - destruct (run_op_reads op st) as [rest Hop].
    destruct (IH (run_op op st)) as [evs Hops]. unfold run_ops in Hops.
    rewrite Hops, Hop, <- app_assoc. eexists. reflexivity.
Qed.

Lemma obj_get_replace (k k' : jstr) (v : json) (o : obj) :
  jstr_eqb k' k = false ->
  forall o', obj_replace k' v o = Some o' -> obj_get k o' = obj_get k o.
Proof.
  intro Hk. induction o as [|[k1 v1] o IH]; intros o'; cbn [obj_replace]; [discriminate|].
  destruct (jstr_eqb k1 k') eqn:H1.
  - intros [= <-]. cbn [obj_get]. apply jstr_eqb_eq in H1. subst k1. rewrite Hk. reflexivity.
  - destruct (obj_replace k' v o) as [o''|]; [|discriminate].
    intros [= <-]. cbn [obj_get]. rewrite (IH o'' eq_refl). reflexivity.
Qed.

Lemma obj_get_app (k k' : jstr) (v : json) (o : obj) :
  jstr_eqb k' k = false -> obj_get k (o ++ [(k', v)]) = obj_get k o.
Proof.
  intro Hk. induction o as [|[k1 v1] o IH]; cbn [app obj_get]; [rewrite Hk; reflexivity|].
  rewrite IH. reflexivity.
Qed.

(** Setting the status of an entry does not change its id. *)
Lemma entry_id_with_status (s : jstr) (x : json) : entry_id (with_status s x) = entry_id x.
Proof.
  destruct x as [|b|n|t|l|o]; try reflexivity. cbn [with_status entry_id].
  unfold obj_define. destruct (obj_replace (js "status") (JStr s) o) as [o'|] eqn:Hr.
  - rewrite (obj_get_replace (js "id") (js "status") (JStr s) o eq_refl o' Hr). reflexivity.
  - change (array_index (js "status")) with (@None N). cbv beta iota.
    rewrite (obj_get_app (js "id") (js "status") (JStr s) o eq_refl). reflexivity.
Qed.

Lemma same_record_id (x y : json) : same_record x y -> entry_id y = entry_id x.
Proof.
  intros [ss ->]. revert x. induction ss as [|s ss IH]; intro x; [reflexivity|].
  cbn [fold_left]. rewrite IH. apply entry_id_with_status.
Qed.

(** C9 as stated fails: when the read of [logTransaction] fails on a
    log that holds a record, the file is rewritten with the new record
    alone. *)
Lemma append_on_unreadable_store_loses_records :
  ~ keeps_records
      (mkState (Some (JSON_stringify (JArr [sample_old]))) [true] [] [] [])
      (run_ops
         [Append (tx_object (mkTx sample_hash 1700000000000 sample_account sample_to
                               (js "1.5") pending))]
         (mkState (Some (JSON_stringify (JArr [sample_old]))) [true] [] [] [])).
Proof.
  intro H.
  destruct (H [sample_old] sample_old) as (l' & y & Hp & Hy & Hsame).
  - vm_compute. reflexivity.
  - left. reflexivity.
  - vm_compute in Hp. injection Hp as <-. destruct Hy as [<-|[]].
    apply same_record_id in Hsame. vm_compute in Hsame. discriminate.
Qed.


(* ================================================================== *)
(** * The transfer, step by step *)
(* ================================================================== *)

(** [sendMonad] as the answers it gets decide. *)
Lemma sendMonad_eq (W : World) (senderKey recipient amount : jstr) (st : state) :
  sendMonad W senderKey recipient amount st =
    match privateKeyToAccount W senderKey with
    | Thrown e => (Thrown (wrap e), st)
    | Returned account =>
        let st1 := sent GetGasPrice st in
        match node_gasPrice W with
        | Thrown e => (Thrown (wrap e), st1)
        | Returned gp =>
            let st2 := sent (GetBalance account) st1 in
            match node_balance W account with
            | Thrown e => (Thrown (wrap e), st2)
            | Returned bal =>
                match parseEther W amount with
                | Thrown e => (Thrown (wrap e), st2)
                | Returned wei =>
                    if (bal <? wei + gp * GAS_LIMIT)%Z
                    then (Thrown InsufficientFundsError, st2)
                    else
                      let st3 := sent (SendTransaction account recipient wei GAS_LIMIT) st2 in
                      match node_send W account recipient wei GAS_LIMIT with
                      | Thrown e => (Thrown (wrap e), st3)
                      | Returned hash =>
                          let st4 :=
                            snd (logTransaction
                                   (transfer_record W hash account recipient amount pending)
                                   st3) in
                          let st5 := sent (WaitForTransactionReceipt hash) st4 in
                          match node_receipt W hash with
                          | Thrown e => (Thrown (wrap e), st5)
                          | Returned receipt_status =>
                              (Returned hash,
                               snd (updateTransactionStatus hash
                                      (if truthy receipt_status then confirmed else failed)
                                      st5))
                          end
                      end
                end
            end
        end
    end.
Proof.
  destruct (privateKeyToAccount W senderKey) as [account|e] eqn:Hacc.
  2:{ unfold sendMonad, try_catch, bind, lift. rewrite Hacc. reflexivity. }
  destruct (node_gasPrice W) as [gp|e] eqn:Hgas.
  2:{ unfold sendMonad, try_catch, bind, lift, remote. rewrite Hacc, Hgas. reflexivity. }
  destruct (node_balance W account) as [bal|e] eqn:Hbal.
  2:{ unfold sendMonad, try_catch, bind, lift, remote. rewrite Hacc, Hgas, Hbal. reflexivity. }
  destruct (parseEther W amount) as [wei|e] eqn:Hwei.
  2:{ unfold sendMonad, try_catch, bind, lift, remote. rewrite Hacc, Hgas, Hbal, Hwei.
      reflexivity. }
  cbv zeta. destruct (bal <? wei + gp * GAS_LIMIT)%Z eqn:Hlt.
  - exact (sendMonad_short W _ _ _ _ _ _ _ Hacc Hgas Hbal Hwei st Hlt).
  - exact (sendMonad_funded W _ _ _ _ _ _ _ Hacc Hgas Hbal Hwei st Hlt).
Qed.

(** X1.  [sendMonad] returns a hash exactly when the node accepted the
    transfer under that hash and gave its receipt: the state of the log
    file and what happens to the two writes have no part in it. *)
Theorem sendMonad_returns_iff
    (W : World) (senderKey recipient amount hash : jstr) (st : state) :
  fst (sendMonad W senderKey recipient amount st) = Returned hash <->
  submitted W senderKey recipient amount hash /\
  exists receipt_status, node_receipt W hash = Returned receipt_status.
Proof.
  rewrite sendMonad_eq. unfold submitted. split.
  - destruct (privateKeyToAccount W senderKey) as [account|e]; [|discriminate].
    destruct (node_gasPrice W) as [gp|e]; [|discriminate].
    destruct (node_balance W account) as [bal|e] eqn:Hbal; [|discriminate].
    destruct (parseEther W amount) as [wei|e]; [|discriminate].
    cbv zeta. destruct (bal <? wei + gp * GAS_LIMIT)%Z eqn:Hlt; [discriminate|].
    destruct (node_send W account recipient wei GAS_LIMIT) as [h|e] eqn:Hsend; [|discriminate].
    destruct (node_receipt W h) as [rs|e] eqn:Hrec; [|discriminate].
    cbn [fst]. intros [= ->]. split.
    + exists account, gp, bal, wei. apply Z.ltb_ge in Hlt. auto 10.
    + exists rs. exact Hrec.
  - intros [(account & gp & bal & wei & -> & -> & -> & -> & Hle & ->) (rs & ->)].
    cbv zeta. apply Z.ltb_ge in Hle. rewrite Hle. reflexivity.
Qed.




Section Unconfirmed.

Variable W : World.
Variables (senderKey toAddress amountText account hash : jstr) (gp bal wei : Z) (e : exn).
Hypothesis Hacc : privateKeyToAccount W senderKey = Returned account.
Hypothesis Hgas : node_gasPrice W = Returned gp.
Hypothesis Hbal : node_balance W account = Returned bal.
Hypothesis Hwei : parseEther W amountText = Returned wei.
Hypothesis Hfunds : (wei + gp * 21000 <= bal)%Z.
Hypothesis Hsend : node_send W account toAddress wei 21000 = Returned hash.
Hypothesis Hrec : node_receipt W hash = Thrown e.

(** X4.  When the wait for the receipt fails after the node accepted the
    transfer, [sendMonad] throws the wrapped error and never comes to
    the status update: the record that it appended stays in the log
    with the status [pending].  The numbers of the log and the time of
    the clock are safe integers. *)
Theorem unconfirmed_transfer_stays_pending (st : state) (l : list json) :
  history st = JArr l -> Forall safe_json l -> safe_number (NInt (Date_now W)) ->
  no_fault 2 st ->
  exists st',
    sendMonad W senderKey toAddress amountText st = (Thrown (wrap e), st') /\
    persisted st' =
      Some (JArr (l ++ [transfer_record W hash account toAddress amountText pending])) /\
    io st' = io st ++ [FsRead (read_ok st); FsWrite true].
Proof.
  intros Hh _ _ Hf. pose proof (history_canonical st l Hh) as Hl.
  rewrite sendMonad_eq, Hacc, Hgas, Hbal, Hwei. cbv zeta.
  change GAS_LIMIT with 21000%Z.
  replace (bal <? wei + gp * 21000)%Z with false by (symmetry; apply Z.ltb_ge; exact Hfunds).
  rewrite Hsend, Hrec.
  set (st3 := sent _ (sent _ (sent _ st))).
  assert (Hh3 : history st3 = JArr l) by exact Hh.
  assert (Hf3 : no_fault 2 st3) by exact Hf.
  unfold transfer_record at 1.
  rewrite (logTransaction_appends _ st3 l Hh3 Hf3). cbn [snd].
  eexists. split; [reflexivity|]. split; [|reflexivity].
  unfold persisted. cbn [sent file].
  apply JSON_roundtrip, canonical_arr, Forall_app. split; [exact Hl|].
  constructor; [apply canonical_tx_object|constructor].
Qed.

End Unconfirmed.

(** On a log of one record, with a node that never gives the receipt. *)
Lemma unconfirmed_transfer_stays_pending_witness :
  exists st',
    sendMonad (silent_world 43500) sample_key sample_to (js "1.5") sample_log =
      (Thrown (wrap (Error "Timed out while waiting for transaction")), st') /\
    persisted st' =
      Some (JArr ([sample_old] ++
                  [transfer_record (silent_world 43500) sample_hash sample_account sample_to
                     (js "1.5") pending])) /\
    io st' = io sample_log ++ [FsRead (read_ok sample_log); FsWrite true].
Proof.
  apply (unconfirmed_transfer_stays_pending (silent_world 43500)
           sample_key sample_to (js "1.5") sample_account sample_hash 2 43500 1500).
  - reflexivity.
  - reflexivity.
  - reflexivity.
  - reflexivity.
  - vm_compute. discriminate.
  - reflexivity.
  - reflexivity.
  - vm_compute. reflexivity.
  - repeat constructor.
  - reflexivity.
  - vm_compute. constructor.
Defined.

(* ================================================================== *)
(** * The log functions on logs of any shape *)
(* ================================================================== *)

(** X5.  When the log file holds JSON that is not an array, neither
    [logTransaction] nor [updateTransactionStatus] writes: each reads
    the file, fails on the value and leaves one line on the console. *)
Theorem log_that_is_not_an_array_is_never_written
    (tx : json) (txId s : jstr) (st : state) :
  not_array (history st) ->
  (exists m,
     logTransaction tx st =
       (Returned tt,
        mkState (file st) (tl (faults st)) (calls st) (io st ++ [FsRead (read_ok st)])
          (console st ++ [ErrLine "Failed to log transaction:" m]))) /\
  (exists m,
     updateTransactionStatus txId s st =
       (Returned tt,
        mkState (file st) (tl (faults st)) (calls st) (io st ++ [FsRead (read_ok st)])
          (console st ++ [ErrLine "Failed to update transaction status:" m]))).
Proof.
  intro Hna. unfold logTransaction, updateTransactionStatus, try_catch, bind.
  rewrite getTransactionHistory_eq.
  destruct (history st) as [|b|x|t|l|o];
    try (split; eexists; reflexivity).
  exfalso. exact (Hna l eq_refl).
Qed.

(** On a file that holds an object. *)
Lemma log_that_is_not_an_array_is_never_written_witness :
  (exists m,
     logTransaction sample_old (disk (js "{}")) =
       (Returned tt,
        mkState (Some (js "{}")) [] [] [FsRead true]
          [ErrLine "Failed to log transaction:" m])) /\
  (exists m,
     updateTransactionStatus sample_hash confirmed (disk (js "{}")) =
       (Returned tt,
        mkState (Some (js "{}")) [] [] [FsRead true]
          [ErrLine "Failed to update transaction status:" m])).
Proof.
  apply (log_that_is_not_an_array_is_never_written sample_old sample_hash confirmed
           (disk (js "{}"))).
  intros l H. vm_compute in H. discriminate.
Defined.

(** X6.  A [null] entry that comes before the record: reading its [id]
    throws inside [findIndex], and the status is not updated. *)
Theorem null_entry_blocks_status_update
    (txId s : jstr) (st : state) (l1 l2 : list json) :
  history st = JArr (l1 ++ JNull :: l2) -> fresh txId l1 ->
  exists m,
    updateTransactionStatus txId s st =
      (Returned tt,
       mkState (file st) (tl (faults st)) (calls st) (io st ++ [FsRead (read_ok st)])
         (console st ++ [ErrLine "Failed to update transaction status:" m])).
Proof.
  intros Hh Hfr. unfold updateTransactionStatus, try_catch, bind.
  rewrite getTransactionHistory_eq, Hh. cbn [findIndex]. unfold lift. clear Hh.
  assert (Hi : forall i, exists e, findIndex_from (id_is txId) (l1 ++ JNull :: l2) i = Thrown e).
  { induction Hfr as [|y l1 Hy _ IH]; intro i.
    - eexists. reflexivity.
    - cbn [app findIndex_from]. rewrite Hy. apply IH. }
  destruct (Hi 0%Z) as [e ->]. exists (message e). reflexivity.
Qed.

(** The record with the id comes after a [null]. *)
Lemma null_entry_blocks_status_update_witness :
  exists m,
    updateTransactionStatus (js "0xaaaa") failed
        (disk (JSON_stringify (JArr [JNull; sample_old]))) =
      (Returned tt,
       mkState (Some (JSON_stringify (JArr [JNull; sample_old]))) [] [] [FsRead true]
         [ErrLine "Failed to update transaction status:" m]).
Proof.
  apply (null_entry_blocks_status_update (js "0xaaaa") failed
           (disk (JSON_stringify (JArr [JNull; sample_old]))) [] [sample_old]).
  - vm_compute. reflexivity.
  - constructor.
Defined.

(** X7.  The status goes to the first record that has the id: the records
    before it and after it, also those with the same id, are read back
    as they were.  The numbers of the log are safe integers. *)
Theorem status_update_sets_first_match
    (txId s : jstr) (st : state) (l1 l2 : list json) (x : json) :
  history st = JArr (l1 ++ x :: l2) -> Forall safe_json (l1 ++ x :: l2) ->
  fresh txId l1 -> entry_id x = Some txId ->
  no_fault 3 st ->
  exists st1 st2,
    updateTransactionStatus txId s st = (Returned tt, st1) /\
    getTransactionHistory st1 = (Returned (JArr (l1 ++ with_status s x :: l2)), st2).
Proof.
  intros Hh _ Hfr Hx Hf. apply id_is_true in Hx.
  pose proof (history_canonical st _ Hh) as Hl.
  apply Forall_app in Hl as [Hl1 Hl2]. apply Forall_cons_iff in Hl2 as [Hcx Hl2].
  rewrite (updateTransactionStatus_found txId s st l1 l2 x Hh Hfr Hx
             (no_fault_le 3 2 st Hf ltac:(lia))).
  eexists _, _. split; [reflexivity|].
  rewrite getTransactionHistory_eq, (history_written _ (JArr (l1 ++ with_status s x :: l2))).
  - reflexivity.
  - apply canonical_arr, Forall_app. split; [exact Hl1|].
    constructor; [apply canonical_with_status; exact Hcx|exact Hl2].
  - reflexivity.
  - apply (no_fault_at 2 3 st); [exact Hf|lia|reflexivity].
Qed.

(** On a log that holds the same record twice: the first one is set to
    [failed], the second one stays [confirmed]. *)
Lemma status_update_sets_first_match_witness :
  exists st1 st2,
    updateTransactionStatus (js "0xaaaa") failed doubled_log = (Returned tt, st1) /\
    getTransactionHistory st1 =
      (Returned (JArr ([] ++ with_status failed sample_old :: [sample_old])), st2).
Proof.
  apply (status_update_sets_first_match (js "0xaaaa") failed doubled_log [] [sample_old]
           sample_old).
  - vm_compute. reflexivity.
  - repeat constructor.
  - constructor.
  - reflexivity.
  - vm_compute. constructor.
Defined.

(** Setting a property twice is setting it to the last value. *)
Lemma obj_replace_twice (k : jstr) (v1 v2 : json) (o : obj) :
  forall o1, obj_replace k v1 o = Some o1 -> obj_replace k v2 o1 = obj_replace k v2 o.
Proof.
  induction o as [|[k' v'] o IH]; intros o1; cbn [obj_replace]; [discriminate|].
  destruct (jstr_eqb k' k) eqn:Hk.
  - intros [= <-]. cbn [obj_replace]. rewrite Hk. reflexivity.
  - destruct (obj_replace k v1 o) as [o1'|]; [|discriminate].
    intros [= <-]. cbn [obj_replace]. rewrite Hk, (IH o1' eq_refl). reflexivity.
Qed.

Lemma obj_replace_at_end (k : jstr) (v1 v2 : json) (o : obj) :
  obj_replace k v1 o = None ->
  obj_replace k v2 (o ++ [(k, v1)]) = Some (o ++ [(k, v2)]).
Proof.
  induction o as [|[k' v'] o IH]; cbn [obj_replace app].
  - intros _. rewrite jstr_eqb_refl. reflexivity.
  - destruct (jstr_eqb k' k); [discriminate|].
    destruct (obj_replace k v1 o); [discriminate|]. intros _.
    rewrite (IH eq_refl). reflexivity.
Qed.

Lemma obj_replace_none_any (k : jstr) (v1 v2 : json) (o : obj) :
  obj_replace k v1 o = None -> obj_replace k v2 o = None.
Proof.
  induction o as [|[k' v'] o IH]; cbn [obj_replace]; [reflexivity|].
  destruct (jstr_eqb k' k); [discriminate|].
  destruct (obj_replace k v1 o); [discriminate|]. intros _. rewrite (IH eq_refl). reflexivity.
Qed.

Lemma with_status_twice (s1 s2 : jstr) (x : json) :
  with_status s2 (with_status s1 x) = with_status s2 x.
Proof.
  destruct x as [|b|n|t|l|o]; try reflexivity. cbn [with_status]. f_equal.
  unfold obj_define. destruct (obj_replace (js "status") (JStr s1) o) as [o1|] eqn:H1.
  - rewrite (obj_replace_twice _ _ (JStr s2) o o1 H1).
    destruct (obj_replace (js "status") (JStr s2) o) eqn:H2; [reflexivity|].
    apply (obj_replace_none_any _ _ (JStr s1)) in H2. congruence.
  - rewrite (obj_replace_none_any _ _ (JStr s2) o H1).
    assert (Hs : array_index (js "status") = None) by reflexivity. rewrite Hs.
    rewrite (obj_replace_at_end _ (JStr s1) (JStr s2) o H1). reflexivity.
Qed.

(** The history depends on the file and on the next fault only. *)
Lemma history_ext (st st' : state) :
  file st' = file st -> next_fault st' = next_fault st -> history st' = history st.
Proof. unfold history, persisted. intros -> ->. reflexivity. Qed.

Lemma unmatched_or_found (txId : jstr) (v : json) :
  unmatched txId v \/
  exists l1 x l2, v = JArr (l1 ++ x :: l2) /\ fresh txId l1 /\ id_is txId x = Returned true.
Proof.
  destruct v as [|b|n|t|l|o]; try (left; exact I).
  destruct (findIndex_from (id_is txId) l 0) as [j|e] eqn:Hi.
  - destruct (findIndex_from_returned txId l 0%Z j Hi) as [->|(l1 & x & l2 & -> & Hfr & Hx)].
    + left. left. exact Hi.
    + right. exists l1, x, l2. auto.
  - left. right. exists e. exact Hi.
Qed.

(** Without a match the update reads the file and leaves it. *)
Lemma updateTransactionStatus_unmatched (txId s : jstr) (st : state) :
  unmatched txId (history st) ->
  file (snd (updateTransactionStatus txId s st)) = file st /\
  faults (snd (updateTransactionStatus txId s st)) = tl (faults st).
Proof.
  unfold updateTransactionStatus, try_catch, bind. rewrite getTransactionHistory_eq.
  destruct (history st) as [|b|n|t|l|o]; try (intros _; split; reflexivity).
  cbn [unmatched findIndex]. unfold lift. intros [->|[e ->]]; split; reflexivity.
Qed.

(** X8.  Two status updates of the same id in a row leave the file that the
    second one alone leaves: a status that has been set is overwritten,
    [confirmed] and [failed] like [pending].  The numbers of the log
    are safe integers. *)
Theorem status_update_last_wins (txId s1 s2 : jstr) (st : state) :
  safe_log st -> no_fault 4 st ->
  file (run_ops [UpdateStatus txId s1; UpdateStatus txId s2] st) =
  file (run_ops [UpdateStatus txId s2] st).
Proof.
  intros _ Hf. cbn [run_ops fold_left run_op].
  assert (H0 : next_fault st = false) by (apply (no_fault_next 3); exact Hf).
  destruct (unmatched_or_found txId (history st)) as [Hu|(l1 & x & l2 & Hh & Hfr & Hx)].
  - destruct (updateTransactionStatus_unmatched txId s1 st Hu) as [Hfile Hfaults].
    set (st1 := snd (updateTransactionStatus txId s1 st)) in *.
    assert (H1 : next_fault st1 = false).
    { apply (no_fault_at 1 4 st); [exact Hf|lia|exact Hfaults]. }
    assert (Hh1 : history st1 = history st).
    { apply history_ext; [exact Hfile|congruence]. }
    rewrite <- Hh1 in Hu.
    rewrite (proj1 (updateTransactionStatus_unmatched txId s2 st1 Hu)), Hfile.
    rewrite Hh1 in Hu.
    symmetry. exact (proj1 (updateTransactionStatus_unmatched txId s2 st Hu)).
  - pose proof (history_canonical st _ Hh) as Hl.
    apply Forall_app in Hl as [Hl1 Hl2]. apply Forall_cons_iff in Hl2 as [Hcx Hl2].
    assert (Hf2 : no_fault 2 st) by (apply (no_fault_le 4 2); [exact Hf|lia]).
    rewrite (updateTransactionStatus_found txId s1 st l1 l2 x Hh Hfr Hx Hf2).
    rewrite (updateTransactionStatus_found txId s2 st l1 l2 x Hh Hfr Hx Hf2).
    cbn [snd]. set (st1 := mkState _ _ _ _ _) at 1.
    assert (Hh1 : history st1 = JArr (l1 ++ with_status s1 x :: l2)).
    { apply history_written.
      - apply canonical_arr, Forall_app. split; [exact Hl1|].
        constructor; [apply canonical_with_status; exact Hcx|exact Hl2].
      - reflexivity.
      - apply (no_fault_at 2 4 st); [exact Hf|lia|reflexivity]. }
    assert (Hx1 : id_is txId (with_status s1 x) = Returned true).
    { apply id_is_true. rewrite entry_id_with_status. apply id_is_true. exact Hx. }
    assert (Hf1 : no_fault 2 st1).
    { unfold no_fault in *. cbn [st1 faults].
      destruct (faults st) as [|a [|b r]]; try constructor.
      cbn [firstn tl] in *.
      apply Forall_cons_iff in Hf as [_ Hf]. apply Forall_cons_iff in Hf as [_ Hf].
      exact Hf. }
    rewrite (updateTransactionStatus_found txId s2 st1 l1 l2 _ Hh1 Hfr Hx1 Hf1).
    cbn [snd file]. rewrite with_status_twice. reflexivity.
Qed.

(** A record that was [confirmed] is set back to [pending]. *)
Lemma status_update_last_wins_witness :
  file (run_ops [UpdateStatus (js "0xaaaa") failed; UpdateStatus (js "0xaaaa") pending]
          sample_log) =
  file (run_ops [UpdateStatus (js "0xaaaa") pending] sample_log).
Proof.
  apply (status_update_last_wins (js "0xaaaa") failed pending sample_log).
  - intros v Hv. vm_compute in Hv. injection Hv as <-. repeat constructor.
  - vm_compute. constructor.
Defined.

Lemma no_fault_tl2 (n : nat) (st st' : state) :
  no_fault (S (S n)) st -> faults st' = tl (tl (faults st)) -> no_fault n st'.
Proof.
  unfold no_fault. intros H ->. destruct (faults st) as [|a [|b r]]; cbn [tl].
  - rewrite firstn_nil. constructor.
  - rewrite firstn_nil. constructor.
  - cbn [firstn] in H. apply Forall_cons_iff in H as [_ H].
    apply Forall_cons_iff in H as [_ H]. exact H.
Qed.

(** X9.  Appends in a row accumulate: when no file operation fails, the
    records come after those that the log held, in the order of the
    calls, and none is merged with another or dropped, whether or not
    two of them have the same id.  The numbers of the log and of the
    records are safe integers. *)
Theorem appends_accumulate (txs : list json) (st : state) (l : list json) :
  history st = JArr l -> Forall safe_json l ->
  Forall canonical txs -> Forall safe_json txs ->
  no_fault (2 * List.length txs + 1) st ->
  history (run_ops (map Append txs) st) = JArr (l ++ txs).
Proof.
  intros Hh _ Hc _. revert st l Hh.
  induction txs as [|tx txs IH]; intros st l Hh Hf.
  - cbn [map run_ops fold_left]. rewrite app_nil_r. exact Hh.
  - apply Forall_cons_iff in Hc as [Hc1 Hc].
    cbn [map run_ops fold_left run_op]. fold (run_ops (map Append txs)).
    assert (Hf2 : no_fault 2 st) by (apply (no_fault_le _ 2 st Hf); cbn [List.length]; lia).
    rewrite (logTransaction_appends tx st l Hh Hf2). cbn [snd].
    set (st1 := mkState _ _ _ _ _).
    replace (l ++ tx :: txs) with ((l ++ [tx]) ++ txs) by (rewrite <- app_assoc; reflexivity).
    assert (Hf1 : no_fault (2 * List.length txs + 1) st1).
    { apply (no_fault_tl2 _ st); [|reflexivity].
      replace (S (S (2 * List.length txs + 1))) with (2 * List.length (tx :: txs) + 1)
        by (cbn [List.length]; lia).
      exact Hf. }
    apply IH; [exact Hc| |exact Hf1].
    apply history_written.
    + apply canonical_arr, Forall_app. split; [exact (history_canonical st l Hh)|].
      constructor; [exact Hc1|constructor].
    + reflexivity.
    + apply (no_fault_next (2 * List.length txs)). rewrite Nat.add_1_r in Hf1. exact Hf1.
Qed.

(** The same record appended twice is in the log twice. *)
Lemma appends_accumulate_witness :
  history (run_ops (map Append [sample_old; sample_old]) sample_log) =
    JArr ([sample_old] ++ [sample_old; sample_old]).
Proof.
  apply (appends_accumulate [sample_old; sample_old] sample_log [sample_old]).
  - vm_compute. reflexivity.
  - repeat constructor.
  - repeat constructor.
  - repeat constructor.
  - vm_compute. constructor.
Defined.

(** The assignment [x.status = s] on an object: its [status] is then
    [s] and its other properties are what they were. *)
Lemma with_status_fields (s : jstr) (o : obj) :
  exists o',
    with_status s (JObj o) = JObj o' /\
    obj_get (js "status") o' = Some (JStr s) /\
    forall k, k <> js "status" -> obj_get k o' = obj_get k o.
Proof.
  cbn [with_status]. eexists. split; [reflexivity|].
  unfold obj_define.
  assert (Hs : array_index (js "status") = None) by reflexivity. rewrite Hs.
  destruct (obj_replace (js "status") (JStr s) o) as [o1|] eqn:Hr.
  - split.
    + clear Hs. revert o1 Hr. induction o as [|[k' v'] o IH]; intros o1; cbn [obj_replace];
        [discriminate|].
      destruct (jstr_eqb k' (js "status")) eqn:Hk.
      * intros [= <-]. cbn [obj_get]. rewrite Hk. reflexivity.
      * destruct (obj_replace (js "status") (JStr s) o) as [o1'|]; [|discriminate].
        intros [= <-]. cbn [obj_get]. rewrite Hk. apply IH. reflexivity.
    + intros k Hk. apply (obj_get_replace k (js "status") (JStr s) o); [|exact Hr].
      apply jstr_eqb_neq. congruence.
  - split.
    + clear Hs. induction o as [|[k' v'] o IH]; cbn [app obj_get].
      * reflexivity.
      * cbn [obj_replace] in Hr. destruct (jstr_eqb k' (js "status")); [discriminate|].
        destruct (obj_replace (js "status") (JStr s) o); [discriminate|]. apply IH. reflexivity.
    + intros k Hk. apply obj_get_app. apply jstr_eqb_neq. congruence.
Qed.

(** X10.  [updateTransactionStatus] changes the status of the record
    and nothing else of it: when the first record with the id is read
    back after the update, its [status] is the new one and every other
    property of it is what it was.  The numbers of the log are safe
    integers. *)
Theorem status_update_changes_status_only
    (txId s : jstr) (st : state) (l1 l2 : list json) (o : obj) :
  history st = JArr (l1 ++ JObj o :: l2) -> Forall safe_json (l1 ++ JObj o :: l2) ->
  fresh txId l1 -> obj_get (js "id") o = Some (JStr txId) ->
  no_fault 3 st ->
  exists o' st1 st2,
    updateTransactionStatus txId s st = (Returned tt, st1) /\
    getTransactionHistory st1 = (Returned (JArr (l1 ++ JObj o' :: l2)), st2) /\
    obj_get (js "status") o' = Some (JStr s) /\
    forall k, k <> js "status" -> obj_get k o' = obj_get k o.
Proof.
  intros Hh _ Hfr Hid Hf.
  assert (Hx : id_is txId (JObj o) = Returned true).
  { cbn [id_is]. rewrite Hid, jstr_eqb_refl. reflexivity. }
  pose proof (history_canonical st _ Hh) as Hl.
  apply Forall_app in Hl as [Hl1 Hl2]. apply Forall_cons_iff in Hl2 as [Hcx Hl2].
  rewrite (updateTransactionStatus_found txId s st l1 l2 (JObj o) Hh Hfr Hx
             (no_fault_le 3 2 st Hf ltac:(lia))).
  destruct (with_status_fields s o) as (o' & Ho' & Hs & Hk).
  exists o'. eexists _, _. split; [reflexivity|].
  rewrite getTransactionHistory_eq,
    (history_written _ (JArr (l1 ++ with_status s (JObj o) :: l2))).
  - rewrite Ho'. split; [reflexivity|]. split; [exact Hs|exact Hk].
  - apply canonical_arr, Forall_app. split; [exact Hl1|].
    constructor; [apply canonical_with_status; exact Hcx|exact Hl2].
  - reflexivity.
  - apply (no_fault_at 2 3 st); [exact Hf|lia|reflexivity].
Qed.

(** On the log of one confirmed record, set to [failed]. *)
Lemma status_update_changes_status_only_witness :
  exists o' st1 st2,
    updateTransactionStatus (js "0xaaaa") failed sample_log = (Returned tt, st1) /\
    getTransactionHistory st1 = (Returned (JArr ([] ++ JObj o' :: [])), st2) /\
    obj_get (js "status") o' = Some (JStr failed) /\
    forall k, k <> js "status" -> obj_get k o' = obj_get k sample_fields.
Proof.
  apply (status_update_changes_status_only (js "0xaaaa") failed sample_log [] []
           sample_fields).
  - vm_compute. reflexivity.
  - repeat constructor.
  - constructor.
  - reflexivity.
  - vm_compute. constructor.
Defined.

(* ================================================================== *)
(** * The command line *)
(* ================================================================== *)

Lemma nth_error_nth_default (argv : list jstr) (n : nat) (s : jstr) :
  nth_error argv n = Some s -> nth n argv [] = s.
Proof. intro H. exact (nth_error_nth argv n [] H). Qed.

Lemma command_is_eq (x : option jstr) (s : string) :
  command_is x s = true <-> x = Some (js s).
Proof.
  destruct x as [c|]; cbn [command_is].
  - rewrite jstr_eqb_eq. split; congruence.
  - split; discriminate.
Qed.

(** X11.  [main] never throws: what its [try] block throws ends in its
    [catch], so the handler of the entry point for a rejected [main]
    never runs; and the exit code of the [catch] is 1. *)
Theorem main_never_raises (W : World) (P : Platform) (argv : list jstr) (p : process) :
  exists e p',
    main W P argv p = (Ok e, p') /\
    (e = Resolved \/ exists m, e = Exited 1 m).
Proof.
  unfold main. cbv zeta.
  destruct (falsy (nth_error argv 2) || command_is (nth_error argv 2) "help"
            || command_is (nth_error argv 2) "index.js").
  - eexists _, _. split; [reflexivity|left; reflexivity].
  - unfold ctry, cbind at 1.
    match goal with |- context [match ?b p with _ => _ end] => destruct (b p) as [[[]|m] p'] end.
    + eexists _, _. split; [reflexivity|left; reflexivity].
    + eexists _, _. split; [reflexivity|right; exists m; reflexivity].
Qed.

Lemma keeps_wallet_bind {A B} (m : C A) (k : A -> C B) :
  keeps_wallet m -> (forall a, keeps_wallet (k a)) -> keeps_wallet (cbind m k).
Proof.
  intros Hm Hk p. unfold cbind. specialize (Hm p).
  destruct (m p) as [[a|e] p']; cbn [snd] in *.
  - rewrite (Hk a p'). exact Hm.
  - exact Hm.
Qed.

Lemma keeps_wallet_log (line : jstr) : keeps_wallet (console_log line).
Proof. intro p. reflexivity. Qed.

Lemma keeps_wallet_lift {A} (r : result A) : keeps_wallet (clift r).
Proof. intro p. reflexivity. Qed.

Lemma keeps_wallet_ret {A} (a : A) : keeps_wallet (cret a).
Proof. intro p. reflexivity. Qed.

Lemma keeps_wallet_throw {A} (m : jstr) : keeps_wallet (@cthrow A m).
Proof. intro p. reflexivity. Qed.

Ltac keep_wallet :=
  repeat first
    [ apply keeps_wallet_log | apply keeps_wallet_lift | apply keeps_wallet_ret
    | apply keeps_wallet_throw | apply keeps_wallet_bind; [|intro] ].

Lemma keeps_wallet_print (P : Platform) (tx : json) (index : nat) :
  keeps_wallet (print_transaction P tx index).
Proof. unfold print_transaction. keep_wallet. Qed.

Lemma keeps_wallet_forEach (P : Platform) (v : json) :
  keeps_wallet (forEach (print_transaction P) v).
Proof.
  destruct v as [|b|n|t|l|o]; cbn [forEach]; try apply keeps_wallet_throw.
  generalize 0. induction l as [|x l IH]; intro i; cbn [forEach_from].
  - apply keeps_wallet_ret.
  - apply keeps_wallet_bind; [apply keeps_wallet_print|intro; apply IH].
Qed.

Lemma keeps_wallet_info : keeps_wallet case_info.
Proof. unfold case_info. keep_wallet. Qed.

(** The wallet after a body run in [in_wallet] and a continuation that
    keeps it. *)
Lemma wallet_in_wallet {A B} (m : M A) (k : A -> C B) (p : process) :
  (forall a, keeps_wallet (k a)) ->
  wallet (snd (cbind (in_wallet m) k p)) = snd (m (wallet p)).
Proof.
  intro Hk. unfold cbind, in_wallet.
  destruct (m (wallet p)) as [[a|e] st]; cbn [snd].
  - rewrite (Hk a). reflexivity.
  - reflexivity.
Qed.

Lemma wallet_ctry {A} (body : C A) (f : jstr -> A) (p : process) :
  wallet (snd (ctry body (fun m => cret (f m)) p)) = wallet (snd (body p)).
Proof. unfold ctry. destruct (body p) as [[x|e] p']; reflexivity. Qed.

Lemma wallet_then {A B} (m : C A) (b : B) (p : process) :
  wallet (snd (cbind m (fun _ => cret b) p)) = wallet (snd (m p)).
Proof. unfold cbind. destruct (m p) as [[x|e] p']; reflexivity. Qed.

Lemma read_only_refl (st : state) : read_only st st.
Proof.
  split; [reflexivity|]. split; [exists []; rewrite app_nil_r; split; [reflexivity|constructor]|].
  split; [exists []; rewrite app_nil_r; split; reflexivity|reflexivity].
Qed.

(** X12.  Every command but [transfer] leaves the log file as it is: it
    reads it at most, it submits nothing to the node, and nothing is
    written by [console.error]. *)
Theorem only_transfer_changes_the_log
    (W : World) (P : Platform) (argv : list jstr) (p : process) :
  nth_error argv 2 <> Some (js "transfer") ->
  read_only (wallet p) (wallet (snd (main W P argv p))).
Proof.
  intro Hnot. unfold main. cbv zeta.
  destruct (falsy (nth_error argv 2) || command_is (nth_error argv 2) "help"
            || command_is (nth_error argv 2) "index.js").
  { apply read_only_refl. }
  rewrite wallet_ctry, wallet_then.
  destruct (command_is (nth_error argv 2) "check").
  { unfold case_check. cbv zeta.
    destruct (negb (opt_match re_address (nth_error argv 3))); [apply read_only_refl|].
    rewrite wallet_in_wallet by (intro; keep_wallet).
    unfold checkBalance, try_catch, bind, remote.
    destruct (node_balance W (nth 3 argv [])) as [b|e]; cbn [snd];
      (split; [reflexivity|]; split;
       [exists []; rewrite app_nil_r; split; [reflexivity|constructor]|];
       split; [eexists; split; reflexivity|reflexivity]). }
  destruct (command_is (nth_error argv 2) "transfer") eqn:Ht.
  { apply command_is_eq in Ht. contradiction. }
  destruct (command_is (nth_error argv 2) "history").
  { unfold case_history.
    rewrite wallet_in_wallet.
    - rewrite getTransactionHistory_eq. cbn [snd]. split; [reflexivity|].
      split; [eexists; split; [reflexivity|repeat constructor; eexists; reflexivity]|].
      split; [exists []; rewrite app_nil_r; split; reflexivity|reflexivity].
    - intro v. apply keeps_wallet_bind; [apply keeps_wallet_lift|]. intros [|].
      + apply keeps_wallet_log.
      + apply keeps_wallet_bind; [apply keeps_wallet_log|intro; apply keeps_wallet_forEach]. }
  destruct (command_is (nth_error argv 2) "info").
  { rewrite keeps_wallet_info. apply read_only_refl. }
  destruct (command_is (nth_error argv 2) "gas").
  { unfold case_gas. rewrite wallet_in_wallet by (intro; cbv zeta; keep_wallet).
    unfold remote. cbn [snd]. split; [reflexivity|].
    split; [exists []; rewrite app_nil_r; split; [reflexivity|constructor]|].
    split; [eexists; split; reflexivity|reflexivity]. }
  apply read_only_refl.
Qed.

(** On the [history] command. *)
Lemma only_transfer_changes_the_log_witness :
  read_only (wallet sample_process)
    (wallet (snd (main (sample_world 0 (js "success")) sample_platform
                    [js "node"; js "index.js"; js "history"] sample_process))).
Proof.
  apply (only_transfer_changes_the_log (sample_world 0 (js "success")) sample_platform).
  cbn. discriminate.
Defined.

(** ** The [history] command *)

Lemma main_history (W : World) (P : Platform) (argv : list jstr) :
  nth_error argv 2 = Some (js "history") ->
  main W P argv =
    ctry (case_history P ;;~ cret Resolved) (fun message => cret (Exited 1 message)).
Proof. intro H. unfold main. rewrite H. reflexivity. Qed.

Lemma case_history_eq (P : Platform) (p : process) :
  case_history P p =
    let p' := mkProcess (after_read (read_ok (wallet p)) (wallet p)) (stdout p) in
    match length_is_zero (history (wallet p)) with
    | Raise e => (Raise e, p')
    | Ok true => (Ok tt, mkProcess (wallet p') (stdout p ++ [no_history]))
    | Ok false =>
        forEach (print_transaction P) (history (wallet p))
          (mkProcess (wallet p') (stdout p ++ [history_header]))
    end.
Proof.
  unfold case_history, cbind, in_wallet, clift. rewrite getTransactionHistory_eq.
  cbv zeta. cbn [wallet stdout].
  destruct (length_is_zero (history (wallet p))) as [[|]|e]; reflexivity.
Qed.

Lemma print_record (P : Platform) (tx : MonadTransaction) (index : nat) (p : process) :
  print_transaction P (tx_object tx) index p =
    (Ok tt, mkProcess (wallet p) (stdout p ++ record_lines P index tx)).
Proof.
  unfold print_transaction.
  replace (get "id" (tx_object tx)) with (Ok (Some (JStr (id tx)))) by reflexivity.
  replace (get "timestamp" (tx_object tx)) with (Ok (Some (JNum (NInt (timestamp tx)))))
    by reflexivity.
  replace (get "sender" (tx_object tx)) with (Ok (Some (JStr (sender tx)))) by reflexivity.
  replace (get "recipient" (tx_object tx)) with (Ok (Some (JStr (recipient tx))))
    by reflexivity.
  replace (get "amount" (tx_object tx)) with (Ok (Some (JStr (amount tx)))) by reflexivity.
  replace (get "status" (tx_object tx)) with (Ok (Some (JStr (status tx)))) by reflexivity.
  unfold cbind, clift, console_log, record_lines.
  cbn [template to_string date_string upper_case wallet stdout].
  rewrite <- !app_assoc. reflexivity.
Qed.

Lemma forEach_records (P : Platform) (txs : list MonadTransaction) :
  forall index p,
    forEach_from (print_transaction P) (map tx_object txs) index p =
      (Ok tt, mkProcess (wallet p) (stdout p ++ records_lines P index txs)).
Proof.
  induction txs as [|tx txs IH]; intros index p; cbn [map forEach_from records_lines].
  - rewrite app_nil_r. destruct p. reflexivity.
  - unfold cbind. rewrite print_record, IH. cbn [wallet stdout].
    rewrite <- app_assoc. reflexivity.
Qed.

(** The entries before the one where the callback throws are
    printed. *)
Lemma forEach_records_then (P : Platform) (txs : list MonadTransaction) (x : json)
    (rest : list json) :
  forall index p,
    forEach_from (print_transaction P) (map tx_object txs ++ x :: rest) index p =
      forEach_from (print_transaction P) (x :: rest) (index + List.length txs)
        (mkProcess (wallet p) (stdout p ++ records_lines P index txs)).
Proof.
  induction txs as [|tx txs IH]; intros index p; cbn [map app records_lines List.length].
  - rewrite app_nil_r, Nat.add_0_r. destruct p. reflexivity.
  - cbn [forEach_from]. unfold cbind at 1. rewrite print_record, IH. cbn [wallet stdout].
    rewrite <- app_assoc, Nat.add_succ_comm. reflexivity.
Qed.

Lemma case_history_records (P : Platform) (p : process) (txs : list MonadTransaction) :
  history (wallet p) = JArr (map tx_object txs) ->
  case_history P p =
    (Ok tt,
     mkProcess (after_read (read_ok (wallet p)) (wallet p))
       (stdout p ++
        match txs with
        | [] => [no_history]
        | _ :: _ => history_header :: records_lines P 0 txs
        end)).
Proof.
  intro Hh. rewrite case_history_eq, Hh. cbv zeta.
  destruct txs as [|tx txs]; [reflexivity|].
  cbn [map length_is_zero forEach]. rewrite <- (map_cons tx_object).
  rewrite forEach_records. cbn [wallet stdout]. rewrite <- app_assoc. reflexivity.
Qed.

(** X13.  The [history] command on a log that holds records as [sendMonad]
    writes them: for an empty log one line says so; otherwise a
    header comes first and then seven lines for each record, in the
    order of the log, with the fields of the record; [main] returns, and
    the file has been read once. *)
Theorem history_lists_the_records
    (W : World) (P : Platform) (argv : list jstr) (p : process)
    (txs : list MonadTransaction) :
  nth_error argv 2 = Some (js "history") ->
  history (wallet p) = JArr (map tx_object txs) ->
  main W P argv p =
    (Ok Resolved,
     mkProcess (after_read (read_ok (wallet p)) (wallet p))
       (stdout p ++
        match txs with
        | [] => [no_history]
        | _ :: _ => history_header :: records_lines P 0 txs
        end)).
Proof.
  intros Hc Hh. rewrite (main_history W P argv Hc).
  unfold ctry, cbind. rewrite (case_history_records P p txs Hh). reflexivity.
Qed.

(** On the log of one confirmed record. *)
Lemma history_lists_the_records_witness :
  main (sample_world 0 (js "success")) sample_platform
       [js "node"; js "index.js"; js "history"] sample_process =
    (Ok Resolved,
     mkProcess (after_read (read_ok (wallet sample_process)) (wallet sample_process))
       (stdout sample_process ++
        history_header ::
        records_lines sample_platform 0
          [mkTx (js "0xaaaa") 1690000000000 sample_account sample_to (js "0.25") confirmed])).
Proof.
  apply (history_lists_the_records (sample_world 0 (js "success")) sample_platform
           [js "node"; js "index.js"; js "history"] sample_process
           [mkTx (js "0xaaaa") 1690000000000 sample_account sample_to (js "0.25") confirmed]).
  - reflexivity.
  - vm_compute. reflexivity.
Defined.

(** X14.  The [history] command on a log file that holds JSON other than
    an array: no transaction is printed.  Either the value counts as
    empty (the empty string, an object whose [length] is zero) and the
    command says that there is no history, or the command fails with
    exit code 1, before the header on [null] and after it
    otherwise. *)
Theorem history_of_a_log_that_is_not_an_array
    (W : World) (P : Platform) (argv : list jstr) (p : process) :
  nth_error argv 2 = Some (js "history") ->
  not_array (history (wallet p)) ->
  exists e out,
    main W P argv p =
      (Ok e, mkProcess (after_read (read_ok (wallet p)) (wallet p)) (stdout p ++ out)) /\
    ((e = Resolved /\ out = [no_history] /\
      length_is_zero (history (wallet p)) = Ok true) \/
     (exists m, e = Exited 1 m /\
        ((out = [] /\ history (wallet p) = JNull) \/ out = [history_header]))).
Proof.
  intros Hc Hna. rewrite (main_history W P argv Hc).
  unfold ctry, cbind. rewrite case_history_eq. cbv zeta.
  destruct (history (wallet p)) as [|b|n|t|l|o] eqn:Hh.
  - eexists _, []. rewrite app_nil_r. split; [reflexivity|].
    right. eexists. split; [reflexivity|]. left. auto.
  - eexists _, _. split; [reflexivity|]. right. eexists. split; [reflexivity|]. right. reflexivity.
  - eexists _, _. split; [reflexivity|]. right. eexists. split; [reflexivity|]. right. reflexivity.
  - destruct t as [|c t].
    + eexists _, _. split; [reflexivity|]. left. auto.
    + eexists _, _. split; [reflexivity|]. right. eexists. split; [reflexivity|].
      right. reflexivity.
  - exfalso. exact (Hna l eq_refl).
  - cbn [length_is_zero].
    destruct (match obj_get (js "length") o with
              | Some (JNum x) => number_is_zero x
              | _ => false
              end).
    + eexists _, _. split; [reflexivity|]. left. auto.
    + eexists _, _. split; [reflexivity|]. right. eexists. split; [reflexivity|].
      right. reflexivity.
Qed.

(** On a file that holds an object. *)
Lemma history_of_a_log_that_is_not_an_array_witness :
  exists e out,
    main (sample_world 0 (js "success")) sample_platform
         [js "node"; js "index.js"; js "history"] (mkProcess (disk (js "{}")) []) =
      (Ok e, mkProcess (after_read (read_ok (disk (js "{}"))) (disk (js "{}"))) ([] ++ out)) /\
    ((e = Resolved /\ out = [no_history] /\
      length_is_zero (history (disk (js "{}"))) = Ok true) \/
     (exists m, e = Exited 1 m /\
        ((out = [] /\ history (disk (js "{}")) = JNull) \/ out = [history_header]))).
Proof.
  apply (history_of_a_log_that_is_not_an_array (sample_world 0 (js "success")) sample_platform
           [js "node"; js "index.js"; js "history"] (mkProcess (disk (js "{}")) [])).
  - reflexivity.
  - intros l H. vm_compute in H. discriminate.
Defined.

(** X15.  The [history] command stops at a [null] entry: the records before
    it and the first line of the entry have been printed when reading
    its [id] throws, and [main] exits with code 1. *)
Theorem history_stops_at_a_null_entry
    (W : World) (P : Platform) (argv : list jstr) (p : process)
    (txs : list MonadTransaction) (rest : list json) :
  nth_error argv 2 = Some (js "history") ->
  history (wallet p) = JArr (map tx_object txs ++ JNull :: rest) ->
  exists m,
    main W P argv p =
      (Ok (Exited 1 m),
       mkProcess (after_read (read_ok (wallet p)) (wallet p))
         (stdout p ++ history_header :: records_lines P 0 txs ++
          [js "Transaction #" ++ number_to_string (NInt (Z.of_nat (List.length txs) + 1))])).
Proof.
  intros Hc Hh. rewrite (main_history W P argv Hc).
  unfold ctry, cbind. rewrite case_history_eq, Hh. cbv zeta.
  replace (length_is_zero (JArr (map tx_object txs ++ JNull :: rest))) with (@Ok bool false)
    by (destruct txs; reflexivity).
  cbn [forEach]. rewrite forEach_records_then. cbn [forEach_from wallet stdout Nat.add].
  unfold print_transaction, cbind, console_log, clift. cbn [get wallet stdout].
  eexists. rewrite <- !app_assoc. reflexivity.
Qed.

(** On a log that holds one record and then [null]. *)
Lemma history_stops_at_a_null_entry_witness :
  let p := mkProcess (disk (JSON_stringify (JArr [sample_old; JNull]))) [] in
  exists m,
    main (sample_world 0 (js "success")) sample_platform
         [js "node"; js "index.js"; js "history"] p =
      (Ok (Exited 1 m),
       mkProcess (after_read (read_ok (wallet p)) (wallet p))
         (stdout p ++ history_header ::
          records_lines sample_platform 0
            [mkTx (js "0xaaaa") 1690000000000 sample_account sample_to (js "0.25") confirmed] ++
          [js "Transaction #" ++ number_to_string (NInt (Z.of_nat 1 + 1))])).
Proof.
  intro p.
  apply (history_stops_at_a_null_entry (sample_world 0 (js "success")) sample_platform
           [js "node"; js "index.js"; js "history"] p
           [mkTx (js "0xaaaa") 1690000000000 sample_account sample_to (js "0.25") confirmed]
           []).
  - reflexivity.
  - vm_compute. reflexivity.
Defined.

(** The callback throws on an entry that has no [status] that is a
    string: at the latest when it calls [toUpperCase]. *)
Lemma print_transaction_fails (P : Platform) (x : json) (index : nat) (p : process) :
  entry_status x = None ->
  exists m p', print_transaction P x index p = (Raise m, p').
Proof.
  intro Hs. unfold print_transaction, cbind, clift, console_log.
  destruct x as [|b|n|t|l|o]; cbn [get template date_string upper_case];
    try (eexists _, _; reflexivity).
  cbn [entry_status] in Hs.
  destruct (template (obj_get (js "id") o)); [|eexists _, _; reflexivity].
  destruct (date_string P (obj_get (js "timestamp") o)); [|eexists _, _; reflexivity].
  destruct (template (obj_get (js "sender") o)); [|eexists _, _; reflexivity].
  destruct (template (obj_get (js "recipient") o)); [|eexists _, _; reflexivity].
  destruct (template (obj_get (js "amount") o)); [|eexists _, _; reflexivity].
  destruct (obj_get (js "status") o) as [[|b|n|t|l|o']|]; try discriminate;
    eexists _, _; reflexivity.
Qed.

Lemma forEach_from_fails (f : json -> nat -> C unit) (x : json) (l : list json) :
  (forall index p, exists m p', f x index p = (Raise m, p')) ->
  In x l ->
  forall index p, exists m p', forEach_from f l index p = (Raise m, p').
Proof.
  intro Hx. induction l as [|y l IH]; intros Hin index p; [destruct Hin|].
  cbn [forEach_from]. unfold cbind.
  destruct (f y index p) as [[[]|m] p1] eqn:Hy.
  - destruct Hin as [->|Hin].
    + destruct (Hx index p) as (m & p' & H). congruence.
    + apply IH. exact Hin.
  - eexists _, _. reflexivity.
Qed.

(** X16.  The [history] command fails, with exit code 1, on every log that
    has an entry without a [status] that is a string: [null], a value
    that is not an object, a record whose [status] is missing or is a
    number. *)
Theorem history_needs_a_status_in_every_entry
    (W : World) (P : Platform) (argv : list jstr) (p : process)
    (l : list json) (x : json) :
  nth_error argv 2 = Some (js "history") ->
  history (wallet p) = JArr l -> In x l -> entry_status x = None ->
  exists m p', main W P argv p = (Ok (Exited 1 m), p').
Proof.
  intros Hc Hh Hin Hs. rewrite (main_history W P argv Hc).
  unfold ctry, cbind. rewrite case_history_eq, Hh. cbv zeta.
  replace (length_is_zero (JArr l)) with (@Ok bool false)
    by (destruct l; [destruct Hin|reflexivity]).
  cbn [forEach].
  destruct (forEach_from_fails (print_transaction P) x l
              (fun i q => print_transaction_fails P x i q Hs) Hin 0
              (mkProcess (wallet (mkProcess (after_read (read_ok (wallet p)) (wallet p))
                                    (stdout p)))
                 (stdout p ++ [history_header])))
    as (m & p' & ->).
  eexists _, _. reflexivity.
Qed.

(** On a log whose record has lost its [status]. *)
Lemma history_needs_a_status_in_every_entry_witness :
  exists m p',
    main (sample_world 0 (js "success")) sample_platform
         [js "node"; js "index.js"; js "history"]
         (mkProcess (disk (JSON_stringify (JArr [JObj [(js "id", JStr (js "0xaaaa"))]]))) []) = (Ok (Exited 1 m), p').
Proof.
  apply (history_needs_a_status_in_every_entry (sample_world 0 (js "success"))
           sample_platform [js "node"; js "index.js"; js "history"]
           (mkProcess (disk (JSON_stringify (JArr [JObj [(js "id", JStr (js "0xaaaa"))]]))) [])
           [JObj [(js "id", JStr (js "0xaaaa"))]]
           (JObj [(js "id", JStr (js "0xaaaa"))])).
  - reflexivity.
  - vm_compute. reflexivity.
  - left. reflexivity.
  - reflexivity.
Defined.

(** ** The other commands *)

Lemma has_hex_format (n : nat) (x : option jstr) :
  opt_match (Cat (Chr 48) (Cat (Chr 120) (Rep n (Cls is_hex)))) x = true <->
  has_format (hex_string n) x.
Proof. apply opt_match_format. intro s. apply hex_re_spec. Qed.

(** X17.  A command is rejected before anything has been printed, read or
    requested: [check] with an address that is not [0x] and 40 hex
    digits, [transfer] with a malformed key, address or amount, and
    every word that is not a command.  [main] exits with code 1 and
    shows which. *)
Theorem main_rejects_before_acting
    (W : World) (P : Platform) (argv : list jstr) (p : process) (command : jstr) :
  nth_error argv 2 = Some command ->
  (command = js "check" /\ ~ has_format (hex_string 40) (nth_error argv 3)) \/
  (command = js "transfer" /\
   ~ (has_format (hex_string 64) (nth_error argv 3) /\
      has_format (hex_string 40) (nth_error argv 4) /\
      has_format decimal_amount (nth_error argv 5))) \/
  (command <> [] /\ ~ In command (map js known_commands)) ->
  exists m,
    main W P argv p = (Ok (Exited 1 m), p) /\
    (In m (map js validation_errors) \/ m = unknown_command command).
Proof.
  intros Hc [[-> Hbad]|[[-> Hbad]|[Hne Hun]]]; unfold main; rewrite Hc; cbv zeta.
  - change (falsy (Some (js "check")) || command_is (Some (js "check")) "help"
            || command_is (Some (js "check")) "index.js") with false.
    change (command_is (Some (js "check")) "check") with true.
    cbv iota. unfold case_check. cbv zeta.
    destruct (opt_match re_address (nth_error argv 3)) eqn:Ha.
    + exfalso. apply Hbad. apply has_hex_format. exact Ha.
    + eexists. split; [reflexivity|]. left. right. left. reflexivity.
  - change (falsy (Some (js "transfer")) || command_is (Some (js "transfer")) "help"
            || command_is (Some (js "transfer")) "index.js") with false.
    change (command_is (Some (js "transfer")) "check") with false.
    change (command_is (Some (js "transfer")) "transfer") with true.
    cbv iota. unfold case_transfer. cbv zeta.
    destruct (opt_match re_private_key (nth_error argv 3)) eqn:Hk;
      [|eexists; split; [reflexivity|left; left; reflexivity]].
    destruct (opt_match re_address (nth_error argv 4)) eqn:Ha;
      [|eexists; split; [reflexivity|left; right; left; reflexivity]].
    destruct (opt_match re_amount (nth_error argv 5)) eqn:Hm;
      [|eexists; split; [reflexivity|left; right; right; left; reflexivity]].
    exfalso. apply Hbad. repeat split.
    + apply has_hex_format. exact Hk.
    + apply has_hex_format. exact Ha.
    + apply (opt_match_format re_amount _ _ re_amount_spec). exact Hm.
  - assert (Hno : forall s, In s known_commands -> command_is (Some command) s = false).
    { intros s Hs. destruct (command_is (Some command) s) eqn:E; [|reflexivity].
      apply command_is_eq in E. injection E as ->. exfalso. apply Hun.
      apply in_map. exact Hs. }
    assert (Hf : falsy (Some command) = false) by (destruct command; [congruence|reflexivity]).
    rewrite Hf, !Hno by (cbn; tauto).
    rewrite (nth_error_nth_default argv 2 command Hc).
    eexists. split; [reflexivity|]. right. reflexivity.
Qed.

(** The word [send] is not a command. *)
Lemma main_rejects_before_acting_witness :
  exists m,
    main (sample_world 0 (js "success")) sample_platform
         [js "node"; js "index.js"; js "send"; sample_key; sample_to; js "1.5"]
         sample_process = (Ok (Exited 1 m), sample_process) /\
    (In m (map js validation_errors) \/ m = unknown_command (js "send")).
Proof.
  apply (main_rejects_before_acting (sample_world 0 (js "success")) sample_platform
           [js "node"; js "index.js"; js "send"; sample_key; sample_to; js "1.5"]
           sample_process (js "send")).
  - reflexivity.
  - right. right. split; [discriminate|].
    cbn. intros [H|[H|[H|[H|[H|[H|[H|[]]]]]]]]; discriminate.
Defined.

(** X18.  The [check] command with a well-formed address sends one request,
    for the balance of that address.  With the answer of the node it
    prints the address and [formatEther] of the balance and returns;
    when the request fails it prints nothing and exits with code 1,
    showing ["Failed to check balance: "] and the cause.  The log file
    is not touched. *)
Theorem check_shows_the_balance
    (W : World) (P : Platform) (argv : list jstr) (p : process) (address : jstr) :
  nth_error argv 2 = Some (js "check") ->
  nth_error argv 3 = Some address -> hex_string 40 address ->
  main W P argv p =
    match node_balance W address with
    | Returned balance =>
        (Ok Resolved,
         mkProcess (sent (GetBalance address) (wallet p))
           (stdout p ++
            [ nl ++ money_bag ++ js " Account Balance";
              js "Address: " ++ address;
              js "Balance: " ++ formatEther P balance ++ js " MONAD" ++ nl ]))
    | Thrown e =>
        (Ok (Exited 1 (js ("Failed to check balance: " ++ message e))),
         mkProcess (sent (GetBalance address) (wallet p)) (stdout p))
    end.
Proof.
  intros Hc Ha Hfmt. unfold main. rewrite Hc. cbv zeta.
  change (falsy (Some (js "check")) || command_is (Some (js "check")) "help"
          || command_is (Some (js "check")) "index.js") with false.
  change (command_is (Some (js "check")) "check") with true.
  cbv iota. unfold case_check. cbv zeta.
  assert (Hm : opt_match re_address (nth_error argv 3) = true).
  { apply has_hex_format. exists address. auto. }
  rewrite Hm, (nth_error_nth_default argv 3 address Ha). cbn [negb].
  unfold ctry, cbind, in_wallet, checkBalance, try_catch, bind, remote, console_log.
  destruct (node_balance W address) as [balance|e]; cbn [wallet stdout ret throw message].
  - rewrite <- !app_assoc. reflexivity.
  - reflexivity.
Qed.

(** On a node that says 43500 wei. *)
Lemma check_shows_the_balance_witness :
  main (sample_world 43500 (js "success")) sample_platform
       [js "node"; js "index.js"; js "check"; sample_account] sample_process =
    (Ok Resolved,
     mkProcess (sent (GetBalance sample_account) (wallet sample_process))
       (stdout sample_process ++
        [ nl ++ money_bag ++ js " Account Balance";
          js "Address: " ++ sample_account;
          js "Balance: " ++ formatEther sample_platform 43500 ++ js " MONAD" ++ nl ])).
Proof.
  apply (check_shows_the_balance (sample_world 43500 (js "success")) sample_platform
           [js "node"; js "index.js"; js "check"; sample_account] sample_process
           sample_account).
  - reflexivity.
  - reflexivity.
  - exists (skipn 2 sample_account). repeat split. repeat constructor.
Defined.

Lemma main_on_transfer (W : World) (P : Platform) (argv : list jstr) :
  nth_error argv 2 = Some (js "transfer") ->
  main W P argv =
    ctry (case_transfer W argv ;;~ cret Resolved) (fun message => cret (Exited 1 message)).
Proof. intro H. unfold main. rewrite H. reflexivity. Qed.

(** With well-formed arguments the case comes to [sendMonad]. *)
Lemma case_transfer_run (W : World) (argv : list jstr) (p : process)
    (privateKey toAddress amountText : jstr) :
  nth_error argv 3 = Some privateKey -> hex_string 64 privateKey ->
  nth_error argv 4 = Some toAddress -> hex_string 40 toAddress ->
  nth_error argv 5 = Some amountText -> decimal_amount amountText ->
  case_transfer W argv p =
    let announced :=
      [ nl ++ rocket ++ js " Initiating MONAD Transfer";
        js "To: " ++ toAddress;
        js "Amount: " ++ amountText ++ js " MONAD" ] in
    match sendMonad W privateKey toAddress amountText (wallet p) with
    | (Returned hash, st) =>
        (Ok tt,
         mkProcess st
           (stdout p ++ announced ++
            [ nl ++ memo ++ js " Transaction Details";
              js "Status: Submitted";
              js "Hash: " ++ hash;
              nl ++ hourglass ++ js " Waiting for confirmation..." ++ nl ]))
    | (Thrown e, st) => (Raise (js (message e)), mkProcess st (stdout p ++ announced))
    end.
Proof.
  intros Hk Hkf Ha Haf Hm Hmf. unfold case_transfer. cbv zeta.
  assert (H1 : opt_match re_private_key (nth_error argv 3) = true).
  { apply has_hex_format. exists privateKey. auto. }
  assert (H2 : opt_match re_address (nth_error argv 4) = true).
  { apply has_hex_format. exists toAddress. auto. }
  assert (H3 : opt_match re_amount (nth_error argv 5) = true).
  { apply (opt_match_format re_amount _ _ re_amount_spec). exists amountText. auto. }
  rewrite H1, H2, H3. cbn [negb].
  rewrite (nth_error_nth_default argv 3 privateKey Hk),
          (nth_error_nth_default argv 4 toAddress Ha),
          (nth_error_nth_default argv 5 amountText Hm).
  unfold cbind, in_wallet, console_log. cbn [wallet stdout].
  destruct (sendMonad W privateKey toAddress amountText (wallet p)) as [[hash|e] st];
    cbn [wallet stdout]; rewrite <- !app_assoc; reflexivity.
Qed.

(** X19.  The [transfer] command with well-formed arguments announces the
    transfer, then runs [sendMonad].  The hash and the words
    ["Status: Submitted"] and ["Waiting for confirmation..."] are printed
    when [sendMonad] has returned, that is after the receipt has come;
    when [sendMonad] throws, also after the node accepted the transfer,
    the hash is not printed: [main] shows the error and exits with
    code 1. *)
Theorem transfer_prints_the_hash_after_the_receipt
    (W : World) (P : Platform) (argv : list jstr) (p : process)
    (privateKey toAddress amountText : jstr) :
  nth_error argv 2 = Some (js "transfer") ->
  nth_error argv 3 = Some privateKey -> hex_string 64 privateKey ->
  nth_error argv 4 = Some toAddress -> hex_string 40 toAddress ->
  nth_error argv 5 = Some amountText -> decimal_amount amountText ->
  main W P argv p =
    let announced :=
      [ nl ++ rocket ++ js " Initiating MONAD Transfer";
        js "To: " ++ toAddress;
        js "Amount: " ++ amountText ++ js " MONAD" ] in
    match sendMonad W privateKey toAddress amountText (wallet p) with
    | (Returned hash, st) =>
        (Ok Resolved,
         mkProcess st
           (stdout p ++ announced ++
            [ nl ++ memo ++ js " Transaction Details";
              js "Status: Submitted";
              js "Hash: " ++ hash;
              nl ++ hourglass ++ js " Waiting for confirmation..." ++ nl ]))
    | (Thrown e, st) =>
        (Ok (Exited 1 (js (message e))), mkProcess st (stdout p ++ announced))
    end.
Proof.
  intros Hc Hk Hkf Ha Haf Hm Hmf. rewrite (main_on_transfer W P argv Hc).
  unfold ctry, cbind.
  rewrite (case_transfer_run W argv p privateKey toAddress amountText Hk Hkf Ha Haf Hm Hmf).
  cbv zeta.
  destruct (sendMonad W privateKey toAddress amountText (wallet p)) as [[hash|e] st];
    reflexivity.
Qed.

(** With a node that accepts the transfer and never gives the
    receipt. *)
Lemma transfer_prints_the_hash_after_the_receipt_witness :
  let argv := [js "node"; js "index.js"; js "transfer"; sample_key; sample_to; js "1.5"] in
  main (silent_world 43500) sample_platform argv sample_process =
    let announced :=
      [ nl ++ rocket ++ js " Initiating MONAD Transfer";
        js "To: " ++ sample_to;
        js "Amount: " ++ js "1.5" ++ js " MONAD" ] in
    match sendMonad (silent_world 43500) sample_key sample_to (js "1.5")
            (wallet sample_process) with
    | (Returned hash, st) =>
        (Ok Resolved,
         mkProcess st
           (stdout sample_process ++ announced ++
            [ nl ++ memo ++ js " Transaction Details";
              js "Status: Submitted";
              js "Hash: " ++ hash;
              nl ++ hourglass ++ js " Waiting for confirmation..." ++ nl ]))
    | (Thrown e, st) =>
        (Ok (Exited 1 (js (message e))), mkProcess st (stdout sample_process ++ announced))
    end.
Proof.
  intro argv.
  apply (transfer_prints_the_hash_after_the_receipt (silent_world 43500) sample_platform
           argv sample_process sample_key sample_to (js "1.5")).
  - reflexivity.
  - reflexivity.
  - exists (skipn 2 sample_key). repeat split. repeat constructor.
  - reflexivity.
  - exists (skipn 2 sample_to). repeat split. repeat constructor.
  - reflexivity.
  - exists (js "1"), (js "5"). split; [repeat constructor|]. split; [repeat constructor|].
    right. split; [reflexivity|discriminate].
Defined.

(** X20.  Without a command, with the empty word, with [help] and with
    [index.js], [main] prints the usage and returns: the other
    arguments are not looked at, nothing is read or requested. *)
Theorem usage_is_printed_without_a_command
    (W : World) (P : Platform) (argv : list jstr) (p : process) :
  nth_error argv 2 = None \/ nth_error argv 2 = Some [] \/
  nth_error argv 2 = Some (js "help") \/ nth_error argv 2 = Some (js "index.js") ->
  main W P argv p = (Ok Resolved, mkProcess (wallet p) (stdout p ++ [usage])).
Proof.
  intros [H|[H|[H|H]]]; unfold main; rewrite H; reflexivity.
Qed.

(** The script name where the command is expected. *)
Lemma usage_is_printed_without_a_command_witness :
  main (sample_world 0 (js "success")) sample_platform
       [js "node"; js "build"; js "index.js"; js "check"] sample_process =
    (Ok Resolved, mkProcess (wallet sample_process) (stdout sample_process ++ [usage])).
Proof.
  apply (usage_is_printed_without_a_command (sample_world 0 (js "success")) sample_platform
           [js "node"; js "build"; js "index.js"; js "check"] sample_process).
  right. right. right. reflexivity.
Defined.

(** X21.  The [gas] command asks the node for the gas price once.  It prints
    [formatEther] of the price multiplied by [10^9]; when the request
    fails it prints nothing and exits with code 1, showing the message
    of the node as it is. *)
Theorem gas_shows_the_price
    (W : World) (P : Platform) (argv : list jstr) (p : process) :
  nth_error argv 2 = Some (js "gas") ->
  main W P argv p =
    match node_gasPrice W with
    | Returned gasPrice =>
        (Ok Resolved,
         mkProcess (sent GetGasPrice (wallet p))
           (stdout p ++
            [ nl ++ fuel_pump ++ js " Current Gas Price";
              formatEther P (gasPrice * 10 ^ 9) ++ js " Gwei" ++ nl ]))
    | Thrown e =>
        (Ok (Exited 1 (js (message e))), mkProcess (sent GetGasPrice (wallet p)) (stdout p))
    end.
Proof.
  intro Hc. unfold main. rewrite Hc. cbv zeta.
  change (falsy (Some (js "gas")) || command_is (Some (js "gas")) "help"
          || command_is (Some (js "gas")) "index.js") with false.
  change (command_is (Some (js "gas")) "check") with false.
  change (command_is (Some (js "gas")) "transfer") with false.
  change (command_is (Some (js "gas")) "history") with false.
  change (command_is (Some (js "gas")) "info") with false.
  change (command_is (Some (js "gas")) "gas") with true.
  cbv iota. unfold case_gas, ctry, cbind, in_wallet, remote, console_log.
  destruct (node_gasPrice W) as [gasPrice|e]; cbn [wallet stdout].
  - change (10 ^ 9)%Z with 1000000000%Z. rewrite <- !app_assoc. reflexivity.
  - reflexivity.
Qed.

(** On a node whose gas price is 2 wei. *)
Lemma gas_shows_the_price_witness :
  main (sample_world 0 (js "success")) sample_platform
       [js "node"; js "index.js"; js "gas"] sample_process =
    match node_gasPrice (sample_world 0 (js "success")) with
    | Returned gasPrice =>
        (Ok Resolved,
         mkProcess (sent GetGasPrice (wallet sample_process))
           (stdout sample_process ++
            [ nl ++ fuel_pump ++ js " Current Gas Price";
              formatEther sample_platform (gasPrice * 10 ^ 9) ++ js " Gwei" ++ nl ]))
    | Thrown e =>
        (Ok (Exited 1 (js (message e))),
         mkProcess (sent GetGasPrice (wallet sample_process)) (stdout sample_process))
    end.
Proof.
  apply (gas_shows_the_price (sample_world 0 (js "success")) sample_platform
           [js "node"; js "index.js"; js "gas"] sample_process).
  reflexivity.
Defined.

(* ================================================================== *)
(** * The log file stays well formed *)
(* ================================================================== *)

Lemma well_written_persisted (st : state) :
  well_written st -> exists l, persisted st = Some (JArr l).
Proof.
  intros (l & Hl & Hfile). exists l. unfold persisted. rewrite Hfile.
  apply JSON_roundtrip, canonical_arr. exact Hl.
Qed.

Lemma after_write_effect (ok : bool) (l : list json) (lbl : string) (st : state) :
  Forall canonical l ->
  (file (after_write ok (JSON_stringify (JArr l)) lbl st) = file st /\
   exists evs, io (after_write ok (JSON_stringify (JArr l)) lbl st) = io st ++ evs /\
               ~ In (FsWrite true) evs) \/
  well_written (after_write ok (JSON_stringify (JArr l)) lbl st).
Proof.
  intro Hl. destruct ok; cbn [after_write].
  - right. exists l. split; [exact Hl|reflexivity].
  - left. split; [reflexivity|]. eexists. split; [reflexivity|].
    intros [H|[H|[]]]; discriminate.
Qed.

(** An operation leaves the file, without a write that succeeded, or
    leaves a file that is well written. *)
Lemma run_op_effect (op : ledger_op) (st : state) :
  canonical_op op ->
  (file (run_op op st) = file st /\
   exists evs, io (run_op op st) = io st ++ evs /\ ~ In (FsWrite true) evs) \/
  well_written (run_op op st).
Proof.
  intro Hop. destruct op as [tx|txId s|]; cbn [run_op canonical_op] in *.
  - destruct (history st) as [|b|n|t|l|o] eqn:Hh.
    5:{ rewrite (logTransaction_on_array tx st l Hh). cbn [snd].
        apply after_write_effect, Forall_app. split; [exact (history_canonical st l Hh)|].
        constructor; [exact Hop|constructor]. }
    all: left; unfold logTransaction, try_catch, bind;
      rewrite getTransactionHistory_eq, Hh; cbn [snd];
      (split; [reflexivity|]); eexists; (split; [reflexivity|]);
      intros [H|[]]; discriminate.
  - destruct (unmatched_or_found txId (history st)) as [Hu|(l1 & x & l2 & Hh & Hfr & Hx)].
    + left. revert Hu. unfold updateTransactionStatus, try_catch, bind.
      rewrite getTransactionHistory_eq.
      destruct (history st) as [|b|n|t|l|o]; cbn [unmatched findIndex]; unfold lift;
        try (intros _; cbn [snd]; (split; [reflexivity|]); eexists; (split; [reflexivity|]);
             intros [H|[]]; discriminate).
      intros [->|[e ->]]; cbn [snd]; (split; [reflexivity|]); eexists;
        (split; [reflexivity|]); intros [H|[]]; discriminate.
    + rewrite (updateTransactionStatus_on_entry txId s st l1 l2 x Hh Hfr Hx). cbn [snd].
      apply after_write_effect.
      pose proof (history_canonical st _ Hh) as Hl.
      apply Forall_app in Hl as [Hl1 Hl2]. apply Forall_cons_iff in Hl2 as [Hcx Hl2].
      apply Forall_app. split; [exact Hl1|].
      constructor; [apply canonical_with_status; exact Hcx|exact Hl2].
  - left. rewrite getTransactionHistory_eq. cbn [snd]. split; [reflexivity|].
    eexists. split; [reflexivity|]. intros [H|[]]; discriminate.
Qed.

Lemma run_op_well_written (op : ledger_op) (st : state) :
  canonical_op op -> well_written st -> well_written (run_op op st).
Proof.
  intros Hop (l & Hl & Hfile).
  destruct (run_op_effect op st Hop) as [[Hsame _]|Hw]; [|exact Hw].
  exists l. split; [exact Hl|congruence].
Qed.

Lemma run_ops_well_written (ops : list ledger_op) :
  forall st, Forall canonical_op ops -> well_written st -> well_written (run_ops ops st).
Proof.
  induction ops as [|op ops IH]; intros st Hops Hw; [exact Hw|].
  apply Forall_cons_iff in Hops as [Hop Hops]. cbn [run_ops fold_left].
  apply (IH (run_op op st) Hops). apply run_op_well_written; assumption.
Qed.

(** X22.  The log functions never leave a file that they cannot read: after
    any sequence of appends, status updates and reads in which a write
    took place and no write failed, whatever reads failed and whatever
    the file held before (no file, text that is not JSON, a value that
    is not an array), the file holds a JSON array.  The numbers of the
    file and of the records are safe integers. *)
Theorem writes_leave_a_readable_log (ops : list ledger_op) (st : state) (evs : list fs_event) :
  Forall canonical_op ops -> Forall safe_op ops -> safe_log st ->
  io (run_ops ops st) = io st ++ evs ->
  In (FsWrite true) evs -> ~ In (FsWrite false) evs ->
  exists l, persisted (run_ops ops st) = Some (JArr l).
Proof.
  intros Hops _ _ Hio Hin _. apply well_written_persisted.
  revert st evs Hops Hio Hin. induction ops as [|op ops IH]; intros st evs Hops Hio Hin.
  - cbn [run_ops fold_left] in Hio. rewrite <- (app_nil_r (io st)) in Hio at 1.
    apply app_inv_head in Hio. subst evs. destruct Hin.
  - apply Forall_cons_iff in Hops as [Hop Hops].
    cbn [run_ops fold_left] in *. fold (run_ops ops (run_op op st)) in *.
    destruct (run_op_effect op st Hop) as [[_ (evs1 & Hio1 & Hno)]|Hw].
    + destruct (run_ops_io ops (run_op op st)) as [evs2 Hio2].
      apply (IH (run_op op st) evs2 Hops Hio2).
      rewrite Hio2, Hio1, <- app_assoc in Hio. apply app_inv_head in Hio. subst evs.
      apply in_app_or in Hin as [Hin|Hin]; [contradiction|exact Hin].
    + apply run_ops_well_written; assumption.
Qed.

(** An append on a file that is not JSON. *)
Lemma writes_leave_a_readable_log_witness :
  exists l,
    persisted (run_ops [Append sample_old; UpdateStatus (js "0xaaaa") failed]
                 (disk (js "not json"))) = Some (JArr l).
Proof.
  apply (writes_leave_a_readable_log [Append sample_old; UpdateStatus (js "0xaaaa") failed]
           (disk (js "not json")) [FsRead true; FsWrite true; FsRead true; FsWrite true]).
  - repeat constructor.
  - repeat constructor.
  - intros v Hv. vm_compute in Hv. discriminate.
  - vm_compute. reflexivity.
  - right. left. reflexivity.
  - intros [H|[H|[H|[H|[]]]]]; discriminate.
Defined.

(* ================================================================== *)
(** * A transfer, then the history *)
(* ================================================================== *)

Lemma fresh_records (hash : jstr) (txs : list MonadTransaction) :
  Forall (fun tx => id tx <> hash) txs -> fresh hash (map tx_object txs).
Proof.
  induction 1 as [|tx txs Hne _ IH]; [constructor|].
  cbn [map]. constructor; [|exact IH].
  apply jstr_eqb_neq in Hne. cbn. rewrite Hne. reflexivity.
Qed.

Section Shown.

Variable W : World.
Variable P : Platform.
Variables (node script privateKey toAddress amountText account hash receipt : jstr).
Variables (gp bal wei : Z).
Hypothesis Hkey : hex_string 64 privateKey.
Hypothesis Hto : hex_string 40 toAddress.
Hypothesis Hamount : decimal_amount amountText.
Hypothesis Hacc : privateKeyToAccount W privateKey = Returned account.
Hypothesis Hgas : node_gasPrice W = Returned gp.
Hypothesis Hbal : node_balance W account = Returned bal.
Hypothesis Hwei : parseEther W amountText = Returned wei.
Hypothesis Hfunds : (wei + gp * 21000 <= bal)%Z.
Hypothesis Hsend : node_send W account toAddress wei 21000 = Returned hash.
Hypothesis Hrec : node_receipt W hash = Returned receipt.

(** X23.  A transfer made with the [transfer] command is then listed by the
    [history] command, after the records that the log held: with the
    hash that the node gave, the account of the key as the sender, the
    recipient and the amount as they were typed, and whatever the
    receipt says the status [CONFIRMED] (a receipt has a status that is
    not the empty string).  The timestamps of the log and the time of
    the clock are safe integers. *)
Theorem transfer_then_history (p : process) (txs : list MonadTransaction) :
  history (wallet p) = JArr (map tx_object txs) ->
  Forall (fun tx => safe_number (NInt (timestamp tx))) txs ->
  safe_number (NInt (Date_now W)) ->
  Forall (fun tx => id tx <> hash) txs ->
  no_fault 5 (wallet p) ->
  receipt <> [] ->
  exists p1 p2,
    main W P [node; script; js "transfer"; privateKey; toAddress; amountText] p =
      (Ok Resolved, p1) /\
    main W P [node; script; js "history"] p1 = (Ok Resolved, p2) /\
    stdout p2 =
      stdout p1 ++ history_header ::
      records_lines P 0
        (txs ++ [mkTx hash (Date_now W) account toAddress amountText confirmed]).
Proof.
  intros Hh _ _ Hids Hf Hne.
  rewrite (main_on_transfer W P [node; script; js "transfer"; privateKey; toAddress; amountText]
             eq_refl).
  unfold ctry at 1, cbind at 1.
  rewrite (case_transfer_run W
             [node; script; js "transfer"; privateKey; toAddress; amountText]
             p privateKey toAddress amountText
             eq_refl Hkey eq_refl Hto eq_refl Hamount).
  cbv zeta.
  rewrite (sendMonad_persists W privateKey toAddress amountText account hash receipt gp bal wei
             Hacc Hgas Hbal Hwei Hfunds Hsend Hrec (wallet p) (map tx_object txs) Hh
             (history_canonical _ _ Hh) (fresh_records hash txs Hids)
             (no_fault_le 5 4 _ Hf ltac:(lia))).
  replace (truthy receipt) with true by (destruct receipt; [congruence|reflexivity]).
  eexists _, _. split; [reflexivity|].
  set (tx := mkTx hash (Date_now W) account toAddress amountText confirmed).
  set (p1 := mkProcess _ _).
  assert (Hh1 : history (wallet p1) = JArr (map tx_object (txs ++ [tx]))).
  { rewrite map_app. apply history_written.
    - apply canonical_arr, Forall_app. split; [exact (history_canonical _ _ Hh)|].
      constructor; [apply canonical_tx_object|constructor].
    - reflexivity.
    - apply (no_fault_at 4 5 (wallet p)); [exact Hf|lia|reflexivity]. }
  rewrite (main_history W P [node; script; js "history"] eq_refl).
  unfold ctry, cbind. rewrite (case_history_records P p1 (txs ++ [tx]) Hh1).
  split; [reflexivity|]. cbn [stdout snd].
  destruct txs; reflexivity.
Qed.

End Shown.

(** A transfer that reverted, on the log of one record: the history
    shows it as confirmed. *)
Lemma transfer_then_history_witness :
  exists p1 p2,
    main (sample_world 43500 (js "reverted")) sample_platform
         [js "node"; js "index.js"; js "transfer"; sample_key; sample_to; js "1.5"]
         sample_process = (Ok Resolved, p1) /\
    main (sample_world 43500 (js "reverted")) sample_platform
         [js "node"; js "index.js"; js "history"] p1 = (Ok Resolved, p2) /\
    stdout p2 =
      stdout p1 ++ history_header ::
      records_lines sample_platform 0
        ([mkTx (js "0xaaaa") 1690000000000 sample_account sample_to (js "0.25") confirmed] ++
         [mkTx sample_hash (Date_now (sample_world 43500 (js "reverted"))) sample_account
            sample_to (js "1.5") confirmed]).
Proof.
  apply (transfer_then_history (sample_world 43500 (js "reverted")) sample_platform
           (js "node") (js "index.js") sample_key sample_to (js "1.5") sample_account
           sample_hash (js "reverted") 2 43500 1500).
  - exists (skipn 2 sample_key). repeat split. repeat constructor.
  - exists (skipn 2 sample_to). repeat split. repeat constructor.
  - exists (js "1"), (js "5"). split; [repeat constructor|]. split; [repeat constructor|].
    right. split; [reflexivity|discriminate].
  - reflexivity.
  - reflexivity.
  - reflexivity.
  - reflexivity.
  - vm_compute. discriminate.
  - reflexivity.
  - reflexivity.
  - vm_compute. reflexivity.
  - repeat constructor.
  - reflexivity.
  - repeat constructor; discriminate.
  - vm_compute. constructor.
  - discriminate.
Defined.

(* ================================================================== *)
(** * Writes that fail during a transfer *)
(* ================================================================== *)

Lemma findIndex_from_fresh (txId : jstr) (l : list json) :
  fresh txId l -> forall i, findIndex_from (id_is txId) l i = Returned (-1)%Z.
Proof.
  induction 1 as [|x l Hx _ IH]; intro i; cbn [findIndex_from]; [reflexivity|].
  rewrite Hx. apply IH.
Qed.

Lemma unmatched_fresh (txId : jstr) (l : list json) : fresh txId l -> unmatched txId (JArr l).
Proof. intro H. left. apply findIndex_from_fresh. exact H. Qed.

Section Failing.

Variable W : World.
Variables (senderKey toAddress amountText account hash receipt : jstr) (gp bal wei : Z).
Hypothesis Hacc : privateKeyToAccount W senderKey = Returned account.
Hypothesis Hgas : node_gasPrice W = Returned gp.
Hypothesis Hbal : node_balance W account = Returned bal.
Hypothesis Hwei : parseEther W amountText = Returned wei.
Hypothesis Hfunds : (wei + gp * 21000 <= bal)%Z.
Hypothesis Hsend : node_send W account toAddress wei 21000 = Returned hash.
Hypothesis Hrec : node_receipt W hash = Returned receipt.

Lemma sendMonad_accepted (st : state) :
  sendMonad W senderKey toAddress amountText st =
    (Returned hash,
     snd (updateTransactionStatus hash (if truthy receipt then confirmed else failed)
            (sent (WaitForTransactionReceipt hash)
               (snd (logTransaction
                       (transfer_record W hash account toAddress amountText pending)
                       (sent (SendTransaction account toAddress wei GAS_LIMIT)
                          (sent (GetBalance account) (sent GetGasPrice st)))))))).
Proof.
  rewrite sendMonad_eq, Hacc, Hgas, Hbal, Hwei. cbv zeta. change GAS_LIMIT with 21000%Z.
  replace (bal <? wei + gp * 21000)%Z with false by (symmetry; apply Z.ltb_ge; exact Hfunds).
  rewrite Hsend, Hrec. reflexivity.
Qed.

(** X24.  When the write of the append fails, the status update that
    follows does not make up for it: it finds no record with the hash
    and writes nothing.  The transfer returns its hash and the log
    file is what it was before the transfer; one line on the console
    tells of the failed write. *)
Theorem failed_append_leaves_no_record (st : state) (l : list json) (fl : list bool) :
  history st = JArr l -> fresh hash l -> faults st = false :: true :: fl ->
  exists st',
    sendMonad W senderKey toAddress amountText st = (Returned hash, st') /\
    file st' = file st /\
    console st' = console st ++ [ErrLine "Failed to log transaction:" write_error] /\
    exists ok, io st' = io st ++ [FsRead (read_ok st); FsWrite false; FsRead ok].
Proof.
  intros Hh Hfr Hfl. rewrite sendMonad_accepted. eexists. split; [reflexivity|].
  set (st3 := sent _ (sent _ (sent _ st))).
  assert (Hh3 : history st3 = JArr l) by exact Hh.
  rewrite (logTransaction_on_array _ st3 l Hh3). cbn [snd].
  replace (hd false (tl (faults st3))) with true by (cbn [st3 sent faults]; rewrite Hfl; reflexivity).
  cbn [negb after_write].
  set (st5 := sent _ _).
  assert (Hr : read_ok st3 = read_ok st) by reflexivity.
  assert (Hh5 : history st5 = history st \/ history st5 = JArr []).
  { destruct (next_fault st5) eqn:Hn5.
    - right. unfold history. rewrite Hn5. reflexivity.
    - left. unfold history. rewrite Hn5. unfold next_fault. rewrite Hfl. reflexivity. }
  assert (Hu : unmatched hash (history st5)).
  { destruct Hh5 as [-> | ->]; [rewrite Hh; apply unmatched_fresh; exact Hfr|].
    left. reflexivity. }
  assert (Hio : io (snd (updateTransactionStatus hash
                           (if truthy receipt then confirmed else failed) st5)) =
                io st5 ++ [FsRead (read_ok st5)] /\
                console (snd (updateTransactionStatus hash
                                (if truthy receipt then confirmed else failed) st5)) =
                console st5).
  { unfold updateTransactionStatus, try_catch, bind.
    rewrite getTransactionHistory_eq.
    destruct Hh5 as [-> | ->]; [rewrite Hh|]; cbn [findIndex]; unfold lift;
      rewrite findIndex_from_fresh by (exact Hfr || constructor);
      split; reflexivity. }
  destruct (updateTransactionStatus_unmatched hash
              (if truthy receipt then confirmed else failed) st5 Hu) as [Hfile _].
  destruct Hio as [Hio Hcon].
  rewrite Hfile, Hcon, Hio. cbn [st5 st3 sent file console io].
  split; [reflexivity|]. split; [reflexivity|].
  eexists. rewrite <- !app_assoc. reflexivity.
Qed.

(** X25.  When the write of the status update fails, the record stays
    [pending] in the log although the receipt has come: the transfer
    returns its hash, and one line on the console tells of the failed
    write.  The failed write is taken to leave the file; the numbers of
    the log and the time of the clock are safe integers. *)
Theorem failed_status_write_leaves_pending (st : state) (l : list json) (fl : list bool) :
  history st = JArr l -> Forall safe_json l -> safe_number (NInt (Date_now W)) ->
  fresh hash l ->
  faults st = false :: false :: false :: true :: fl ->
  exists st',
    sendMonad W senderKey toAddress amountText st = (Returned hash, st') /\
    persisted st' =
      Some (JArr (l ++ [transfer_record W hash account toAddress amountText pending])) /\
    console st' =
      console st ++ [ErrLine "Failed to update transaction status:" write_error].
Proof.
  intros Hh _ _ Hfr Hfl. rewrite sendMonad_accepted. eexists. split; [reflexivity|].
  pose proof (history_canonical st l Hh) as Hl.
  set (record := transfer_record W hash account toAddress amountText pending).
  assert (Hc : canonical (JArr (l ++ [record]))).
  { apply canonical_arr, Forall_app. split; [exact Hl|].
    constructor; [apply canonical_tx_object|constructor]. }
  set (st3 := sent _ (sent _ (sent _ st))).
  assert (Hh3 : history st3 = JArr l) by exact Hh.
  assert (Hf3 : no_fault 2 st3).
  { unfold no_fault. cbn [st3 sent faults]. rewrite Hfl. repeat constructor. }
  rewrite (logTransaction_appends _ st3 l Hh3 Hf3). cbn [snd].
  set (st5 := sent _ _).
  assert (Hh5 : history st5 = JArr (l ++ [record])).
  { apply history_written; [exact Hc|reflexivity|].
    unfold next_fault. cbn [st5 st3 sent faults]. rewrite Hfl. reflexivity. }
  rewrite (updateTransactionStatus_on_entry hash _ st5 l [] record Hh5 Hfr
             (id_is_tx_object _)).
  replace (hd false (tl (faults st5))) with true
    by (cbn [st5 st3 sent faults]; rewrite Hfl; reflexivity).
  cbn [negb after_write snd]. split; [|reflexivity].
  unfold persisted. cbn [file st5 sent]. apply JSON_roundtrip. exact Hc.
Qed.

End Failing.

(** The second file operation fails: the write of the append. *)
Lemma failed_append_leaves_no_record_witness :
  let st := mkState (file sample_log) [false; true] [] [] [] in
  exists st',
    sendMonad (sample_world 43500 (js "success")) sample_key sample_to (js "1.5") st =
      (Returned sample_hash, st') /\
    file st' = file st /\
    console st' = console st ++ [ErrLine "Failed to log transaction:" write_error] /\
    exists ok, io st' = io st ++ [FsRead (read_ok st); FsWrite false; FsRead ok].
Proof.
  intro st.
  apply (failed_append_leaves_no_record (sample_world 43500 (js "success"))
           sample_key sample_to (js "1.5") sample_account sample_hash (js "success")
           2 43500 1500 eq_refl eq_refl eq_refl eq_refl ltac:(vm_compute; discriminate)
           eq_refl eq_refl st [sample_old] []).
  - vm_compute. reflexivity.
  - repeat constructor.
  - reflexivity.
Defined.

(** The fourth file operation fails: the write of the status update. *)
Lemma failed_status_write_leaves_pending_witness :
  let st := mkState (file sample_log) [false; false; false; true] [] [] [] in
  exists st',
    sendMonad (sample_world 43500 (js "success")) sample_key sample_to (js "1.5") st =
      (Returned sample_hash, st') /\
    persisted st' =
      Some (JArr ([sample_old] ++
                  [transfer_record (sample_world 43500 (js "success")) sample_hash
                     sample_account sample_to (js "1.5") pending])) /\
    console st' =
      console st ++ [ErrLine "Failed to update transaction status:" write_error].
Proof.
  intro st.
  apply (failed_status_write_leaves_pending (sample_world 43500 (js "success"))
           sample_key sample_to (js "1.5") sample_account sample_hash (js "success")
           2 43500 1500 eq_refl eq_refl eq_refl eq_refl ltac:(vm_compute; discriminate)
           eq_refl eq_refl st [sample_old] []).
  - vm_compute. reflexivity.
  - repeat constructor.
  - reflexivity.
  - repeat constructor.
  - reflexivity.
Defined.

(* ================================================================== *)
(** * [main] and [main_transfer] *)
(* ================================================================== *)

(** On the [transfer] command [main] does to the wallet manager what
    [main_transfer] does, and ends with the same exit code; the line
    that [main_transfer] leaves on the console is the error that [main]
    shows. *)
Lemma main_transfer_agrees
    (W : World) (P : Platform) (argv : list jstr) (st : state) (out : list jstr) :
  nth_error argv 2 = Some (js "transfer") ->
  exists e p' r st',
    main W P argv (mkProcess st out) = (Ok e, p') /\
    main_transfer W argv st = (Returned r, st') /\
    file (wallet p') = file st' /\ faults (wallet p') = faults st' /\
    calls (wallet p') = calls st' /\ io (wallet p') = io st' /\
    match e with
    | Resolved => r = 0%Z /\ console st' = console (wallet p')
    | Exited code m =>
        r = code /\
        exists msg, m = js msg /\ console st' = console (wallet p') ++ [ErrLine "Error:" msg]
    end.
Proof.
  intro Hc. rewrite (main_on_transfer W P argv Hc).
  unfold main_transfer, case_transfer, ctry, try_catch. cbv zeta.
  destruct (opt_match re_private_key (nth_error argv 3)); cbn [negb].
  2:{ eexists _, _, _, _. do 6 (split; [reflexivity|]). split; [reflexivity|].
      eexists. split; reflexivity. }
  destruct (opt_match re_address (nth_error argv 4)); cbn [negb].
  2:{ eexists _, _, _, _. do 6 (split; [reflexivity|]). split; [reflexivity|].
      eexists. split; reflexivity. }
  destruct (opt_match re_amount (nth_error argv 5)); cbn [negb].
  2:{ eexists _, _, _, _. do 6 (split; [reflexivity|]). split; [reflexivity|].
      eexists. split; reflexivity. }
  unfold cbind, bind, in_wallet, console_log. cbn [wallet stdout].
  destruct (sendMonad W (nth 3 argv []) (nth 4 argv []) (nth 5 argv []) st) as [[hash|e] st1].
  - eexists _, _, _, _. do 6 (split; [reflexivity|]). split; reflexivity.
  - eexists _, _, _, _. do 6 (split; [reflexivity|]). split; [reflexivity|].
    eexists. split; reflexivity.
Qed.

(* ================================================================== *)
(** * Records are kept, in place and in order *)
(* ================================================================== *)

Lemma persisted_ext (st st' : state) : file st' = file st -> persisted st' = persisted st.
Proof. unfold persisted. intros ->. reflexivity. Qed.

Lemma persisted_written (st : state) (l : list json) :
  Forall canonical l -> file st = Some (JSON_stringify (JArr l)) ->
  persisted st = Some (JArr l).
Proof.
  intros Hl Hf. unfold persisted. rewrite Hf. apply JSON_roundtrip, canonical_arr. exact Hl.
Qed.

Lemma Forall2_same_record_refl (l : list json) : Forall2 same_record l l.
Proof. induction l; constructor; [apply same_record_refl|assumption]. Qed.

Lemma Forall2_same_record_trans (l1 : list json) :
  forall l2 l3, Forall2 same_record l1 l2 -> Forall2 same_record l2 l3 ->
    Forall2 same_record l1 l3.
Proof.
  induction l1 as [|x l1 IH]; intros l2 l3 H12 H23; inversion H12; subst;
    inversion H23; subst; constructor.
  - eapply same_record_trans; eassumption.
  - eapply IH; eassumption.
Qed.

(** Keeping every record in its place keeps every record. *)
Lemma keeps_every_record_keeps_records (st st' : state) :
  keeps_every_record st st' -> keeps_records st st'.
Proof.
  intros H l x Hp Hx. destruct (H l Hp) as (l1 & l2 & Hp' & Hall).
  assert (Hy : exists y, In y (l1 ++ l2) /\ same_record x y).
  { clear Hp Hp'. induction Hall as [|a b l l1 Hab _ IH]; [destruct Hx|].
    destruct Hx as [<-|Hx].
    - exists b. split; [left; reflexivity|exact Hab].
    - destruct (IH Hx) as (y & Hy & Hs). exists y. split; [right; exact Hy|exact Hs]. }
  destruct Hy as (y & Hy & Hs). exists (l1 ++ l2), y. auto.
Qed.

(** The state after a read and a write: a write that failed is among
    the file operations, one that succeeded left its text. *)
Lemma after_write_kept (b : bool) (text : jstr) (lbl : string) (st : state) :
  (forall rest, io (after_write (negb b) text lbl st) = io st ++ rest ->
     ~ In (FsWrite false) rest) ->
  file (after_write (negb b) text lbl st) = Some text.
Proof.
  destruct b; cbn [negb after_write io file]; [|reflexivity].
  intro H. exfalso. apply (H _ eq_refl). right. left. reflexivity.
Qed.

(** One operation whose write, if any, succeeds, and which reads the
    log if it is an append, keeps every record of the log in place. *)
Lemma run_op_keeps (op : ledger_op) (st : state) (l : list json) :
  canonical_op op ->
  match op with Append _ => next_fault st = false | _ => True end ->
  (forall rest, io (run_op op st) = io st ++ rest -> ~ In (FsWrite false) rest) ->
  persisted st = Some (JArr l) ->
  exists l1 l2,
    persisted (run_op op st) = Some (JArr (l1 ++ l2)) /\ Forall2 same_record l l1.
Proof.
  intros Hop Hread Hw Hp.
  pose proof (persisted_canonical st _ Hp) as Hl. apply canonical_arr in Hl.
  destruct op as [tx|txId s|]; cbn [run_op canonical_op] in *.
  - assert (Hh : history st = JArr l) by (unfold history; rewrite Hread, Hp; reflexivity).
    rewrite (logTransaction_on_array tx st l Hh) in *. cbn [snd] in *.
    exists l, [tx]. split; [|apply Forall2_same_record_refl].
    apply persisted_written.
    + apply Forall_app. split; [exact Hl|]. constructor; [exact Hop|constructor].
    + apply after_write_kept. exact Hw.
  - destruct (unmatched_or_found txId (history st)) as [Hu|(l1 & x & l2 & Hh & Hfr & Hx)].
    + exists l, []. rewrite app_nil_r. split; [|apply Forall2_same_record_refl].
      rewrite (persisted_ext st); [exact Hp|].
      apply (updateTransactionStatus_unmatched txId s st Hu).
    + assert (Hl' : l = l1 ++ x :: l2).
      { revert Hh. unfold history. destruct (next_fault st).
        - intros [= H]. destruct (app_cons_not_nil _ _ _ H).
        - rewrite Hp. intros [= H]. exact H. }
      subst l.
      rewrite (updateTransactionStatus_on_entry txId s st l1 l2 x Hh Hfr Hx) in *.
      cbn [snd] in *.
      apply Forall_app in Hl as [Hl1 Hl2]. apply Forall_cons_iff in Hl2 as [Hcx Hl2].
      exists (l1 ++ with_status s x :: l2), []. rewrite app_nil_r. split.
      * apply persisted_written.
        -- apply Forall_app. split; [exact Hl1|].
           constructor; [apply canonical_with_status; exact Hcx|exact Hl2].
        -- apply after_write_kept. exact Hw.
      * apply Forall2_app; [apply Forall2_same_record_refl|].
        constructor; [apply same_record_status|apply Forall2_same_record_refl].
  - exists l, []. rewrite app_nil_r. split; [|apply Forall2_same_record_refl].
    rewrite getTransactionHistory_eq. cbn [snd]. exact Hp.
Qed.

(** C9, amended.  The records of the log are kept, each in its place
    and in their order, as they were or with their status set, through
    every sequence of appends, status updates and reads in which no
    write fails and the read of every append succeeds; the reads of
    status updates and of the history may fail, and lose nothing.  The
    numbers of the log and of the appended records are safe integers,
    and what is appended went through [JSON.parse] or is a record of
    [sendMonad]. *)
Theorem records_kept_when_writes_succeed (ops : list ledger_op) (st : state) :
  Forall canonical_op ops -> Forall safe_op ops -> safe_log st ->
  appends_read ops st -> writes_succeeded st (run_ops ops st) ->
  keeps_every_record st (run_ops ops st).
Proof.
  intros Hc _ _. revert st Hc. induction ops as [|op ops IH]; intros st Hc Hr Hw l Hp.
  - exists l, []. rewrite app_nil_r. split; [exact Hp|apply Forall2_same_record_refl].
  - apply Forall_cons_iff in Hc as [Hop Hc]. destruct Hr as [Hr1 Hr].
    cbn [run_ops fold_left] in *. fold (run_ops ops (run_op op st)) in *.
    destruct (run_op_reads op st) as [rest1 Hio1].
    destruct (run_ops_io ops (run_op op st)) as [evs2 Hio2].
    destruct (run_op_keeps op st l Hop Hr1) as (la & lb & Hp1 & Hla); [|exact Hp|].
    { intros rest Hrest Hin. apply (Hw (rest ++ evs2)).
      - rewrite Hio2, Hrest, <- app_assoc. reflexivity.
      - apply in_or_app. left. exact Hin. }
    destruct (IH (run_op op st) Hc Hr) with (l := la ++ lb) as (l1 & l2 & Hp2 & Hl1);
      [|exact Hp1|].
    { intros evs Hevs Hin. apply (Hw ((FsRead (read_ok st) :: rest1) ++ evs)).
      - rewrite Hevs, Hio1, <- app_assoc. reflexivity.
      - apply in_or_app. right. exact Hin. }
    apply Forall2_app_inv_l in Hl1 as (l1a & l1b & Ha & _ & ->).
    exists l1a, (l1b ++ l2). rewrite app_assoc. split; [exact Hp2|].
    exact (Forall2_same_record_trans l la l1a Hla Ha).
Qed.

(** An append, the update of its status, and a read of the history
    that fails, on the log of one record. *)
Lemma records_kept_when_writes_succeed_witness :
  keeps_every_record
    (mkState (Some (JSON_stringify (JArr [sample_old]))) [false; false; false; false; true]
       [] [] [])
    (run_ops
       [Append (tx_object (mkTx sample_hash 1700000000000 sample_account sample_to
                             (js "1.5") pending));
        UpdateStatus sample_hash confirmed; ReadAll]
       (mkState (Some (JSON_stringify (JArr [sample_old]))) [false; false; false; false; true]
          [] [] [])).
Proof.
  apply (records_kept_when_writes_succeed
           [Append (tx_object (mkTx sample_hash 1700000000000 sample_account sample_to
                                 (js "1.5") pending));
            UpdateStatus sample_hash confirmed; ReadAll]).
  - repeat constructor.
  - repeat constructor.
  - intros v Hv. vm_compute in Hv. injection Hv as <-. repeat constructor.
  - vm_compute. repeat split.
  - intros evs Hio. vm_compute in Hio. subst evs.
    intros [H|[H|[H|[H|[H|[]]]]]]; discriminate.
Defined.
